(** * Capture store, export projection, sync engine and sync scheduler

    A shallow embedding of the capture store ([DatabaseManager]), of the
    Obsidian exporter ([syncHomeTimelineToObsidian]) and of the scheduler
    ([SyncManager]), with the properties the specification states about
    them.

    Conventions of the embedding.
    - A JavaScript string is a Rocq [string] holding its UTF-8 bytes.
    - A JavaScript number that holds a count, an epoch or an HTTP status is
      a [Z].
    - A rejected promise or a thrown exception is a [Thrown] completion.
    - Tables of the Dexie store are [gmap]s keyed by the primary key, and
      a query lists their rows in the order of that key; a JavaScript
      [Map], whose iteration order is the insertion order, is an
      association list; a JavaScript [Set] of strings is a [gset]. *)

From Stdlib Require Import ZArith NArith List String Ascii Lia Bool.
From Stdlib Require Import Permutation Sorted.
From Stdlib Require Import DecimalString DecimalZ DecimalN DecimalPos DecimalFacts.
From stdpp Require Import gmap strings list fin_maps.

Set Warnings "-register-all".

(** [simpl] unfolds the concatenation of strings again. *)
Arguments String.append !_ _ : simpl nomatch.

Open Scope string_scope.
Open Scope list_scope.
Open Scope Z_scope.

(* ===================================================================== *)
(** * JavaScript strings *)
(* ===================================================================== *)

Module Js.

(** The double quote, the backslash and the line feed. *)
Definition dquote : ascii := "034"%char.
Definition backslash : ascii := "092"%char.
Definition LF : ascii := "010"%char.

Definition str1 (c : ascii) : string := String c "".

(** [parts.join(sep)] *)
Fixpoint join (sep : string) (parts : list string) : string :=
  match parts with
  | [] => ""
  | [p] => p
  | p :: rest => p +:+ sep +:+ join sep rest
  end.

(** [s.split(String.fromCharCode(c))]: the pieces between the occurrences
    of the separator; an empty string gives one empty piece. *)
Fixpoint split (c : ascii) (s : string) : list string :=
  match s with
  | "" => [""]
  | String a r =>
      if Ascii.eqb a c then "" :: split c r
      else match split c r with
           | p :: ps => String a p :: ps
           | [] => [str1 a]
           end
  end.

Fixpoint last_char (s : string) : option ascii :=
  match s with
  | "" => None
  | String a "" => Some a
  | String _ r => last_char r
  end.

(** [s.endsWith(String.fromCharCode(c))] *)
Definition endsWith (s : string) (c : ascii) : bool :=
  match last_char s with
  | Some a => Ascii.eqb a c
  | None => false
  end.

(** Truthiness of a string: every string but the empty one. *)
Definition truthy (s : string) : bool :=
  match s with "" => false | _ => true end.

(** ** [String.prototype.trim]

    White space and line terminators of ECMAScript, as UTF-8 byte
    sequences: TAB, LF, VT, FF, CR, SP, U+00A0, U+1680, U+2000..U+200A,
    U+2028, U+2029, U+202F, U+205F, U+3000 and U+FEFF. *)
Definition ascii_ws (c : ascii) : bool :=
  let n := N_of_ascii c in
  ((9 <=? n) && (n <=? 13) || (n =? 32))%N.

Definition wide_ws3 (a b c : ascii) : bool :=
  let x := N_of_ascii a in
  let y := N_of_ascii b in
  let z := N_of_ascii c in
  ((x =? 225) && (y =? 154) && (z =? 128)
   || (x =? 226) && (y =? 128) && (128 <=? z) && (z <=? 138)
   || (x =? 226) && (y =? 128) && ((z =? 168) || (z =? 169) || (z =? 175))
   || (x =? 226) && (y =? 129) && (z =? 159)
   || (x =? 227) && (y =? 128) && (z =? 128)
   || (x =? 239) && (y =? 187) && (z =? 191))%N.

Definition wide_ws2 (a b : ascii) : bool :=
  ((N_of_ascii a =? 194) && (N_of_ascii b =? 160))%N.

Fixpoint trimStart (s : string) : string :=
  match s with
  | "" => ""
  | String a r =>
      if ascii_ws a then trimStart r
      else match r with
           | String b r2 =>
               if wide_ws2 a b then trimStart r2
               else match r2 with
                    | String c r3 => if wide_ws3 a b c then trimStart r3 else s
                    | "" => s
                    end
           | "" => s
           end
  end.

Fixpoint rev_onto (s acc : string) : string :=
  match s with
  | "" => acc
  | String a r => rev_onto r (String a acc)
  end.

Definition rev (s : string) : string := rev_onto s "".

(** The same scan from the end, on the reversed string. *)
Fixpoint trimStart_rev (s : string) : string :=
  match s with
  | "" => ""
  | String a r =>
      if ascii_ws a then trimStart_rev r
      else match r with
           | String b r2 =>
               if wide_ws2 b a then trimStart_rev r2
               else match r2 with
                    | String c r3 =>
                        if wide_ws3 c b a then trimStart_rev r3 else s
                    | "" => s
                    end
           | "" => s
           end
  end.

Definition trimEnd (s : string) : string := rev (trimStart_rev (rev s)).

Definition trim (s : string) : string := trimEnd (trimStart s).

(** ** Numbers as text *)

(** The decimal text of an integer, as template literals and
    [JSON.stringify] write a number that holds an integer of magnitude
    below 10^21. *)
Definition decimal (z : Z) : string := NilZero.string_of_int (Z.to_int z).

Definition two53 : Z := 9007199254740992.

(** Text of the numbers whose conversion to a double is not exact, or not
    an integer: IEEE-754 rounding and shortest-digits printing are outside
    the embedding, so the engine's printer is a parameter for them. The
    arguments [m] and [e] stand for the decimal value [m * 10^e]. *)
Class NumberPrinter := inexact_toString : Z -> Z -> string.

(** The integer denoted by [m * 10^e], when it is one. *)
Definition integer_value (m e : Z) : option Z :=
  if 0 <=? e then Some (m * 10 ^ e)
  else if (m mod 10 ^ (- e)) =? 0 then Some (m / 10 ^ (- e))
  else None.

(** [String(x)] for a number [x] read from the decimal [m * 10^e]. *)
Definition Number_toString `{NumberPrinter} (m e : Z) : string :=
  match integer_value m e with
  | Some z => if Z.abs z <=? two53 then decimal z else inexact_toString m e
  | None => inexact_toString m e
  end.

End Js.

(* ===================================================================== *)
(** * JSON: [JSON.parse], [JSON.stringify], [String] *)
(* ===================================================================== *)

Module Json.
Import Js.

(** What [JSON.parse] returns. A number keeps the decimal it was read
    from, [m * 10^e]; an object keeps its members in the order of the
    text, duplicate names included. *)
Inductive JSON : Type :=
| JNull
| JBool (b : bool)
| JNum (m e : Z)
| JStr (s : string)
| JArr (items : list JSON)
| JObj (members : list (string * JSON)).

(** ** Lexical elements *)

(** White space of the JSON grammar: TAB, LF, CR and SP. *)
Definition json_ws (c : ascii) : bool :=
  let n := N_of_ascii c in
  ((n =? 9) || (n =? 10) || (n =? 13) || (n =? 32))%N.

Fixpoint skip_ws (s : string) : string :=
  match s with
  | String c r => if json_ws c then skip_ws r else s
  | "" => ""
  end.

Definition digit (c : ascii) : option (Decimal.uint -> Decimal.uint) :=
  match c with
  | "0"%char => Some Decimal.D0 | "1"%char => Some Decimal.D1
  | "2"%char => Some Decimal.D2 | "3"%char => Some Decimal.D3
  | "4"%char => Some Decimal.D4 | "5"%char => Some Decimal.D5
  | "6"%char => Some Decimal.D6 | "7"%char => Some Decimal.D7
  | "8"%char => Some Decimal.D8 | "9"%char => Some Decimal.D9
  | _ => None
  end.

(** The longest run of digits at the head of the text. *)
Fixpoint lex_uint (s : string) : Decimal.uint * string :=
  match s with
  | String c r =>
      match digit c with
      | Some k => let '(d, r') := lex_uint r in (k d, r')
      | None => (Decimal.Nil, s)
      end
  | "" => (Decimal.Nil, "")
  end.

Definition hex_digit (c : ascii) : option N :=
  let n := N_of_ascii c in
  if ((48 <=? n) && (n <=? 57))%N then Some (n - 48)%N
  else if ((97 <=? n) && (n <=? 102))%N then Some (n - 87)%N
  else if ((65 <=? n) && (n <=? 70))%N then Some (n - 55)%N
  else None.

Definition hex4 (a b c d : ascii) : option N :=
  match hex_digit a, hex_digit b, hex_digit c, hex_digit d with
  | Some x, Some y, Some z, Some w => Some (((x * 16 + y) * 16 + z) * 16 + w)%N
  | _, _, _, _ => None
  end.

(** UTF-8 bytes of a code point (a lone surrogate is written like any other
    point of its range). *)
Definition byte (n : N) : ascii := ascii_of_N n.

Definition utf8 (cp : N) : string :=
  (if cp <? 128 then str1 (byte cp)
   else if cp <? 2048 then
     String (byte (192 + cp / 64)) (str1 (byte (128 + cp mod 64)))
   else if cp <? 65536 then
     String (byte (224 + cp / 4096))
       (String (byte (128 + (cp / 64) mod 64)) (str1 (byte (128 + cp mod 64))))
   else
     String (byte (240 + cp / 262144))
       (String (byte (128 + (cp / 4096) mod 64))
          (String (byte (128 + (cp / 64) mod 64))
             (str1 (byte (128 + cp mod 64))))))%N.

Definition is_high (u : N) : bool := ((55296 <=? u) && (u <=? 56319))%N.
Definition is_low (u : N) : bool := ((56320 <=? u) && (u <=? 57343))%N.

Definition pair_point (h l : N) : N :=
  (65536 + (h - 55296) * 1024 + (l - 56320))%N.

(** A high surrogate read from an escape waits for its low half. *)
Definition flush (pend : option N) : string :=
  match pend with Some h => utf8 h | None => "" end.

Definition simple_escape (c : ascii) : option ascii :=
  match c with
  | "034"%char => Some "034"%char
  | "092"%char => Some "092"%char
  | "/"%char => Some "/"%char
  | "b"%char => Some "008"%char
  | "f"%char => Some "012"%char
  | "n"%char => Some "010"%char
  | "r"%char => Some "013"%char
  | "t"%char => Some "009"%char
  | _ => None
  end.

Definition prepend (p : string) (o : option (string * string))
  : option (string * string) :=
  match o with
  | Some (s, r) => Some (p +:+ s, r)
  | None => None
  end.

(** The characters of a string literal after its opening quote, up to and
    including the closing quote. *)
Fixpoint parse_chars (pend : option N) (s : string)
  : option (string * string) :=
  match s with
  | "" => None
  | String c r =>
      if Ascii.eqb c dquote then Some (flush pend, r)
      else if Ascii.eqb c backslash then
        match r with
        | String e r1 =>
            if Ascii.eqb e "u" then
              match r1 with
              | String h1 (String h2 (String h3 (String h4 r2))) =>
                  match hex4 h1 h2 h3 h4 with
                  | Some u =>
                      if is_high u then
                        prepend (flush pend) (parse_chars (Some u) r2)
                      else if is_low u then
                        match pend with
                        | Some h =>
                            prepend (utf8 (pair_point h u)) (parse_chars None r2)
                        | None => prepend (utf8 u) (parse_chars None r2)
                        end
                      else prepend (flush pend +:+ utf8 u) (parse_chars None r2)
                  | None => None
                  end
              | _ => None
              end
            else
              match simple_escape e with
              | Some ch =>
                  prepend (flush pend +:+ str1 ch) (parse_chars None r1)
              | None => None
              end
        | "" => None
        end
      else if (N_of_ascii c <? 32)%N then None
      else prepend (flush pend +:+ str1 c) (parse_chars None r)
  end.

(** ** Numbers *)

Definition no_leading_zero (d : Decimal.uint) : bool :=
  match d with
  | Decimal.Nil => false
  | Decimal.D0 Decimal.Nil => true
  | Decimal.D0 _ => false
  | _ => true
  end.

Definition nonempty (d : Decimal.uint) : bool :=
  match d with Decimal.Nil => false | _ => true end.

(** The text after the character [c], when the text starts with it. *)
Definition starts (c : ascii) (s : string) : option string :=
  match s with
  | String a r => if Ascii.eqb a c then Some r else None
  | "" => None
  end.

Definition parse_fraction (s : string) : option (Decimal.uint * string) :=
  match starts "." s with
  | Some r =>
      let '(f, r') := lex_uint r in
      if nonempty f then Some (f, r') else None
  | None => Some (Decimal.Nil, s)
  end.

(** The digits of an exponent, after its sign. *)
Definition exponent_digits (neg : bool) (r : string) : option (Z * string) :=
  let '(x, r') := lex_uint r in
  if nonempty x
  then Some (if neg then - Z.of_uint x else Z.of_uint x, r')
  else None.

Definition parse_exponent (s : string) : option (Z * string) :=
  match (match starts "e" s with Some r => Some r | None => starts "E" s end) with
  | Some r =>
      match starts "+" r with
      | Some r1 => exponent_digits false r1
      | None =>
          match starts "-" r with
          | Some r1 => exponent_digits true r1
          | None => exponent_digits false r
          end
      end
  | None => Some (0, s)
  end.

Definition parse_number (s : string) : option (JSON * string) :=
  let '(neg, s1) :=
    match starts "-" s with
    | Some r => (true, r)
    | None => (false, s)
    end in
  let '(d, s2) := lex_uint s1 in
  if no_leading_zero d then
    match parse_fraction s2 with
    | Some (f, s3) =>
        match parse_exponent s3 with
        | Some (x, s4) =>
            let m := Z.of_uint (Decimal.app d f) in
            Some (JNum (if neg then - m else m)
                       (x - Z.of_nat (Decimal.nb_digits f)), s4)
        | None => None
        end
    | None => None
    end
  else None.

(** ** Values *)

Fixpoint expect (word s : string) : option string :=
  match word, s with
  | "", _ => Some s
  | String a w, String b r => if Ascii.eqb a b then expect w r else None
  | String _ _, "" => None
  end.

Definition literal (word : string) (v : JSON) (s : string)
  : option (JSON * string) :=
  match expect word s with
  | Some r => Some (v, r)
  | None => None
  end.

(** Recursive descent; every call on a nested value spends one unit of
    [fuel], and [JSON_parse] below gives enough for any text. *)
Fixpoint parse_value (fuel : nat) (s : string) : option (JSON * string) :=
  match fuel with
  | O => None
  | S fuel' =>
      match s with
      | String c r =>
          if Ascii.eqb c "n" then literal "ull" JNull r
          else if Ascii.eqb c "t" then literal "rue" (JBool true) r
          else if Ascii.eqb c "f" then literal "alse" (JBool false) r
          else if Ascii.eqb c dquote then
            match parse_chars None r with
            | Some (str, r') => Some (JStr str, r')
            | None => None
            end
          else if Ascii.eqb c "[" then
            match starts "]" (skip_ws r) with
            | Some r' => Some (JArr [], r')
            | None =>
                match parse_elements fuel' (skip_ws r) with
                | Some (vs, r') => Some (JArr vs, r')
                | None => None
                end
            end
          else if Ascii.eqb c "{" then
            match starts "}" (skip_ws r) with
            | Some r' => Some (JObj [], r')
            | None =>
                match parse_members fuel' (skip_ws r) with
                | Some (ms, r') => Some (JObj ms, r')
                | None => None
                end
            end
          else parse_number s
      | "" => None
      end
  end
with parse_elements (fuel : nat) (s : string)
  : option (list JSON * string) :=
  match fuel with
  | O => None
  | S fuel' =>
      match parse_value fuel' s with
      | Some (v, r) =>
          match starts "," (skip_ws r) with
          | Some r1 =>
              match parse_elements fuel' (skip_ws r1) with
              | Some (vs, r') => Some (v :: vs, r')
              | None => None
              end
          | None =>
              match starts "]" (skip_ws r) with
              | Some r1 => Some ([v], r1)
              | None => None
              end
          end
      | None => None
      end
  end
with parse_members (fuel : nat) (s : string)
  : option (list (string * JSON) * string) :=
  match fuel with
  | O => None
  | S fuel' =>
      match starts dquote s with
      | Some r =>
          match parse_chars None r with
          | Some (k, r0) =>
              match starts ":" (skip_ws r0) with
              | Some r1 =>
                  match parse_value fuel' (skip_ws r1) with
                  | Some (v, r2) =>
                      match starts "," (skip_ws r2) with
                      | Some r3 =>
                          match parse_members fuel' (skip_ws r3) with
                          | Some (ms, r') => Some ((k, v) :: ms, r')
                          | None => None
                          end
                      | None =>
                          match starts "}" (skip_ws r2) with
                          | Some r3 => Some ([(k, v)], r3)
                          | None => None
                          end
                      end
                  | None => None
                  end
              | None => None
              end
          | None => None
          end
      | None => None
      end
  end.

(** [JSON.parse(text)]; [None] stands for the [SyntaxError]. *)
Definition JSON_parse (text : string) : option JSON :=
  match parse_value (2 * String.length text + 2) (skip_ws text) with
  | Some (v, r) => match skip_ws r with "" => Some v | _ => None end
  | None => None
  end.

(** ** [JSON.stringify]

    The plain data the exporter serialises: objects with their own
    properties in insertion order, arrays, strings, numbers holding
    integers, and [null]. *)
Inductive Data : Type :=
| DNull
| DInt (z : Z)
| DStr (s : string)
| DArr (items : list Data)
| DObj (fields : list (string * Data)).

Definition hex_char (n : N) : ascii :=
  if (n <? 10)%N then byte (48 + n) else byte (87 + n).

(** One character of a quoted string: the short escapes, a four-digit
    escape for the other control characters, the character itself
    otherwise. *)
Definition escape_char (c : ascii) : string :=
  let n := N_of_ascii c in
  if (n =? 34)%N then String backslash (str1 dquote)
  else if (n =? 92)%N then String backslash (str1 backslash)
  else if (n =? 8)%N then String backslash "b"
  else if (n =? 12)%N then String backslash "f"
  else if (n =? 10)%N then String backslash "n"
  else if (n =? 13)%N then String backslash "r"
  else if (n =? 9)%N then String backslash "t"
  else if (n <? 32)%N then
    String backslash
      (String "u" (String "0" (String "0"
         (String (hex_char (n / 16)) (str1 (hex_char (n mod 16)))))))
  else str1 c.

(** The code unit of a surrogate, which takes three bytes: ED, a byte from
    A0 to BF and a byte from 80 to BF. *)
Definition surrogate (a b c : ascii) : option N :=
  let x := N_of_ascii a in
  let y := N_of_ascii b in
  let z := N_of_ascii c in
  if ((x =? 237) && (160 <=? y) && (y <=? 191) && (128 <=? z) && (z <=? 191))%N
  then Some (53248 + (y - 128) * 64 + (z - 128))%N
  else None.

(** The escape of a code unit, with its four digits in lower case. *)
Definition unicode_escape (u : N) : string :=
  String backslash
    (String "u"
       (String (hex_char (u / 4096))
          (String (hex_char ((u / 256) mod 16))
             (String (hex_char ((u / 16) mod 16))
                (str1 (hex_char (u mod 16))))))).

(** The characters of a quoted string. A surrogate without its other half
    is written as an escape; a high surrogate followed by a low one is a
    pair, and is written as it is. *)
Fixpoint escape (s : string) : string :=
  match s with
  | "" => ""
  | String a r =>
      match r with
      | String b (String c r3) =>
          match surrogate a b c with
          | Some u =>
              if is_high u then
                match r3 with
                | String a' (String b' (String c' r6)) =>
                    match surrogate a' b' c' with
                    | Some v =>
                        if is_low v
                        then String a (String b (String c
                               (String a' (String b' (String c' (escape r6))))))
                        else unicode_escape u +:+ escape r3
                    | None => unicode_escape u +:+ escape r3
                    end
                | _ => unicode_escape u +:+ escape r3
                end
              else unicode_escape u +:+ escape r3
          | None => escape_char a +:+ escape r
          end
      | _ => escape_char a +:+ escape r
      end
  end.

Definition quote (s : string) : string :=
  String dquote (escape s +:+ str1 dquote).

Fixpoint stringify (d : Data) : string :=
  match d with
  | DNull => "null"
  | DInt z => decimal z
  | DStr s => quote s
  | DArr items =>
      "[" +:+ join "," (map stringify items) +:+ "]"
  | DObj fields =>
      "{" +:+ join "," (map (fun kv => quote (fst kv) +:+ ":" +:+ stringify (snd kv))
                            fields) +:+ "}"
  end.

(** What [JSON.parse] gives back for serialised data. *)
Fixpoint embed (d : Data) : JSON :=
  match d with
  | DNull => JNull
  | DInt z => JNum z 0
  | DStr s => JStr s
  | DArr items => JArr (map embed items)
  | DObj fields => JObj (map (fun kv => (fst kv, embed (snd kv))) fields)
  end.

(** ** Reading a property and converting to a string *)

Fixpoint last_member (name : string) (ms : list (string * JSON))
  : option JSON :=
  match ms with
  | [] => None
  | (k, v) :: rest =>
      match last_member name rest with
      | Some w => Some w
      | None => if String.eqb k name then Some v else None
      end
  end.

(** [parsed?.id]: the member named [id] of an object, the last one when the
    text repeats the name; [None] stands for [undefined], which is what
    [null], numbers, strings, booleans and arrays give. *)
Definition get_id (parsed : JSON) : option JSON :=
  match parsed with
  | JObj ms => last_member "id" ms
  | _ => None
  end.

Section ToString.
Context `{NumberPrinter}.

(** [String(v)] *)
Fixpoint js_String (v : JSON) : string :=
  match v with
  | JNull => "null"
  | JBool true => "true"
  | JBool false => "false"
  | JNum m e => Number_toString m e
  | JStr s => s
  | JArr items =>
      join "," (map (fun x => match x with
                              | JNull => ""
                              | _ => js_String x
                              end) items)
  | JObj _ => "[object Object]"
  end.

End ToString.

(** ** Vocabulary of the statements about the parser *)

(** The text after a serialised value: nothing, or a separator. *)
Definition delimited (rest : string) : Prop :=
  match rest with
  | "" => True
  | String c _ => c = ","%char \/ c = "]"%char \/ c = "}"%char
  end.

Definition not_digit_head (rest : string) : Prop :=
  match rest with "" => True | String c _ => digit c = None end.

Section DataInduction.
Variable P : Data -> Prop.
Hypothesis Hnull : P DNull.
Hypothesis Hint : forall z, P (DInt z).
Hypothesis Hstr : forall s, P (DStr s).
Hypothesis Harr : forall items, Forall P items -> P (DArr items).
Hypothesis Hobj : forall fields, Forall (fun kv => P (snd kv)) fields -> P (DObj fields).

Fixpoint Data_nested_ind (d : Data) : P d :=
  match d with
  | DNull => Hnull
  | DInt z => Hint z
  | DStr s => Hstr s
  | DArr items =>
      Harr items
        ((fix go (l : list Data) : Forall P l :=
            match l with
            | [] => List.Forall_nil P
            | x :: r => @List.Forall_cons _ P x r (Data_nested_ind x) (go r)
            end) items)
  | DObj fields =>
      Hobj fields
        ((fix go (l : list (string * Data)) : Forall (fun kv => P (snd kv)) l :=
            match l with
            | [] => List.Forall_nil _
            | x :: r => @List.Forall_cons _ _ x r (Data_nested_ind (snd x)) (go r)
            end) fields)
  end.
End DataInduction.

(** The first character of a serialised value. *)
Definition value_head (c : ascii) : bool :=
  match digit c with
  | Some _ => true
  | None =>
      Ascii.eqb c "-" || Ascii.eqb c "n" || Ascii.eqb c dquote
      || Ascii.eqb c "[" || Ascii.eqb c "{"
  end.

Definition number_head (c : ascii) : bool :=
  match digit c with Some _ => true | None => Ascii.eqb c "-" end.

Definition roundtrips (d : Data) : Prop :=
  forall fuel rest,
    (String.length (stringify d) <= fuel)%nat -> delimited rest ->
    parse_value fuel (stringify d +:+ rest) = Some (embed d, rest).

Definition member_text (kv : string * Data) : string :=
  quote (fst kv) +:+ ":" +:+ stringify (snd kv).

(** A parser consumes when every result leaves a shorter rest. *)
Definition consumes {A} (parse : string -> option (A * string)) : Prop :=
  forall s x r, parse s = Some (x, r) -> (String.length r < String.length s)%nat.

(** ** Characters a text is free of *)
Fixpoint has_char (c : ascii) (s : string) : bool :=
  match s with
  | "" => false
  | String a r => Ascii.eqb a c || has_char c r
  end.

(** A text that starts with a low surrogate. *)
Definition starts_low (s : string) : bool :=
  match s with
  | String a (String b (String c _)) =>
      match surrogate a b c with
      | Some v => is_low v
      | None => false
      end
  | _ => false
  end.

Definition all_bytes : list ascii := map ascii_of_nat (seq 0 256).

(** What the bytes of a surrogate and its escape have to satisfy for the
    escape to be read back; it is checked on every pair of bytes. *)
Definition surrogate_checked (a b c : ascii) : bool :=
  match surrogate a b c with
  | Some u =>
      match hex4 (hex_char (u / 4096)) (hex_char ((u / 256) mod 16))
                 (hex_char ((u / 16) mod 16)) (hex_char (u mod 16)) with
      | Some v => (v =? u)%N
      | None => false
      end
      && String.eqb (utf8 u) (String a (String b (str1 c)))
      && xorb (is_high u) (is_low u)
      && String.eqb (escape_char a) (str1 a)
      && String.eqb (escape_char b) (str1 b)
      && String.eqb (escape_char c) (str1 c)
      && negb (has_char LF (unicode_escape u))
  | None => true
  end.

End Json.

(* ===================================================================== *)
(** * Dates *)
(* ===================================================================== *)

Module DateTime.
Import Js.

(** Zero-padded decimal text of a non-negative number. *)
Fixpoint zeros (n : nat) : string :=
  match n with O => "" | S k => String "0" (zeros k) end.

Definition pad (width : nat) (z : Z) : string :=
  let s := decimal z in
  zeros (width - String.length s) +:+ s.

(** Year, month and day of the proleptic Gregorian calendar for a number of
    days since 1970-01-01. *)
Definition civil_from_days (days : Z) : Z * Z * Z :=
  let z := days + 719468 in
  let era := z / 146097 in
  let doe := z - era * 146097 in
  let yoe := (doe - doe / 1460 + doe / 36524 - doe / 146096) / 365 in
  let doy := doe - (365 * yoe + yoe / 4 - yoe / 100) in
  let mp := (5 * doy + 2) / 153 in
  let d := doy - (153 * mp + 2) / 5 + 1 in
  let m := if mp <? 10 then mp + 3 else mp - 9 in
  let y := yoe + era * 400 + (if m <=? 2 then 1 else 0) in
  (y, m, d).

Definition days_from_civil (y m d : Z) : Z :=
  let y' := if m <=? 2 then y - 1 else y in
  let era := y' / 400 in
  let yoe := y' - era * 400 in
  let mp := if 2 <? m then m - 3 else m + 9 in
  let doy := (153 * mp + 2) / 5 + d - 1 in
  let doe := yoe * 365 + yoe / 4 - yoe / 100 + doy in
  era * 146097 + doe - 719468.

Definition ms_per_day : Z := 86400000.

Definition year_text (y : Z) : string :=
  if (0 <=? y) && (y <=? 9999) then pad 4 y
  else (if y <? 0 then "-" else "+") +:+ pad 6 (Z.abs y).

(** The UTC calendar date, [YYYY-MM-DD], of an epoch in milliseconds. *)
Definition utc_date (ms : Z) : string :=
  let '(y, m, d) := civil_from_days (ms / ms_per_day) in
  year_text y +:+ "-" +:+ pad 2 m +:+ "-" +:+ pad 2 d.

(** [new Date(ms).toISOString()] *)
Definition toISOString (ms : Z) : string :=
  let t := ms mod ms_per_day in
  utc_date ms +:+ "T" +:+ pad 2 (t / 3600000) +:+ ":"
    +:+ pad 2 ((t / 60000) mod 60) +:+ ":" +:+ pad 2 ((t / 1000) mod 60)
    +:+ "." +:+ pad 3 (t mod 1000) +:+ "Z".

(** The helpers of [@/utils/common], a module that is not embedded here:
    they stay abstract. A parsed date is [Some ms], the epoch in milliseconds,
    or [None] for a date that [isValid()] rejects. *)
Class Common := {
  parseTwitterDateTime : string -> option Z;
  formatDateTime : option Z -> string -> string
}.

End DateTime.

(* ===================================================================== *)
(** * The capture store ([DatabaseManager]) *)
(* ===================================================================== *)

Module Legacy.
Record t := mk {
  created_at : string;
  favorite_count : Z;
  retweet_count : Z;
  reply_count : Z;
  quote_count : Z;
  bookmark_count : Z;
  in_reply_to_status_id_str : option string
}.
End Legacy.

(** [tweet.core.user_results.result.core] *)
Module UserCore.
Record t := mk { screen_name : string; name : string }.
End UserCore.

(** [twe_private_fields]; [created_at] is [None] for [NaN]. *)
Module PrivateFields.
Record t := mk { created_at : option Z; updated_at : Z; media_count : nat }.
End PrivateFields.

Module Tweet.
Record t := mk {
  rest_id : string;
  legacy : option Legacy.t;
  core : option UserCore.t;
  views_count : option string;
  twe_private_fields : option PrivateFields.t
}.
End Tweet.

Module Capture.
Inductive ExtensionType := TWEET | USER.
Record t := mk {
  id : string;
  extension : string;
  type : ExtensionType;
  data_key : string;
  created_at : Z;
  sort_index : option string
}.
End Capture.

(** [WithSortIndex<T>] *)
Module WithSortIndex.
Record t (T : Type) := mk { data : T; sortIndex : option string }.
Arguments mk {T}.
Arguments data {T}.
Arguments sortIndex {T}.
End WithSortIndex.

(** The helpers of [@/utils/api], a module that is not embedded here:
    they stay abstract. *)
Class Api := {
  Media : Type;
  compareSortIndex : option string -> option string -> Z;
  extractTweetMedia : Tweet.t -> list Media;
  getMediaOriginalUrl : Media -> string;
  extractTweetFullText : Tweet.t -> string;
  getTweetURL : Tweet.t -> string;
  extractRetweetedTweet : Tweet.t -> option Tweet.t;
  extractQuotedTweet : Tweet.t -> option Tweet.t
}.

Module Store.
Import Js DateTime.

(** ** [Array.prototype.sort]

    The language defines the result of the sort for a comparator that is
    consistent on the elements ([consistent] below): the elements in the
    order of the comparator, and in the order they had where it answers
    zero. That result is the one computed here, by insertion from the
    right, which keeps an element before the later ones it does not exceed.
    With any other comparator the order is left to the engine: the
    statements about an order that a sort gives take the consistency of
    the comparator as a hypothesis. *)
Fixpoint insert_sorted {A} (cmp : A -> A -> Z) (x : A) (l : list A) : list A :=
  match l with
  | [] => [x]
  | y :: r => if cmp x y <=? 0 then x :: l else y :: insert_sorted cmp x r
  end.

Fixpoint Array_sort {A} (cmp : A -> A -> Z) (l : list A) : list A :=
  match l with
  | [] => []
  | x :: r => insert_sorted cmp x (Array_sort cmp r)
  end.

(** Truthiness of an optional string: present and not empty. *)
Definition present (k : option string) : bool :=
  match k with Some s => truthy s | None => false end.

(** The two tables the exporter reads, keyed by their primary key
    ([rest_id] and [id]). The [users] table mirrors [tweets] and no
    statement below reads it. *)
Record Db := mkDb {
  tweets : gmap string Tweet.t;
  captures : gmap string Capture.t
}.

Definition empty_db : Db := mkDb ∅ ∅.

(** [table.bulkPut(rows)]: each row replaces the row of the same key, in
    the order of the batch. *)
Definition bulkPut {A} (key : A -> string) (rows : list A)
  (table : gmap string A) : gmap string A :=
  foldl (fun t row => <[key row := row]> t) table rows.

(** ** The order of a table

    IndexedDB keeps the rows of a table in the order of their primary key,
    and a query over the table, or over the rows an index gives for one
    value, answers in that order. String keys are compared code unit by
    code unit. On the UTF-8 bytes of two keys this is the comparison of the
    first bytes that differ, except that a character outside the basic
    plane (lead byte F0 and above: a surrogate pair in UTF-16) goes before
    the characters from U+E000 on (lead bytes EE and EF). *)
Definition unit_ltb (x y : ascii) : bool :=
  let a := N_of_ascii x in
  let b := N_of_ascii y in
  (if (240 <=? a) && ((b =? 238) || (b =? 239)) then true
   else if (240 <=? b) && ((a =? 238) || (a =? 239)) then false
   else a <? b)%N.

(** [indexedDB.cmp(a, b)] on two string keys. *)
Fixpoint key_cmp (a b : string) : Z :=
  match a, b with
  | "", "" => 0
  | "", String _ _ => -1
  | String _ _, "" => 1
  | String x a', String y b' =>
      if Ascii.eqb x y then key_cmp a' b'
      else if unit_ltb x y then -1 else 1
  end.

Definition in_key_order {A} (rows : list (string * A)) : list (string * A) :=
  fold_right (insert_sorted (fun p q => key_cmp (fst p) (fst q))) [] rows.

(** [table.toArray()]: the rows in the order of their primary key. *)
Definition toArray {A} (table : gmap string A) : list A :=
  (in_key_order (map_to_list table)).*2.

Section WithHelpers.
Context `{Api} `{Common}.

Definition sortItems {T} (items : list (WithSortIndex.t T))
  : list (WithSortIndex.t T) :=
  Array_sort (fun a b => compareSortIndex (WithSortIndex.sortIndex a)
                                          (WithSortIndex.sortIndex b)) items.

Definition compareCaptures (a b : Capture.t) : Z :=
  if present (Capture.sort_index a) && present (Capture.sort_index b)
  then compareSortIndex (Capture.sort_index a) (Capture.sort_index b)
  else if present (Capture.sort_index a) then -1
  else if present (Capture.sort_index b) then 1
  else Capture.created_at b - Capture.created_at a.

Definition sortCaptures (captures : list Capture.t) : list Capture.t :=
  Array_sort compareCaptures captures.

Definition filterEmptyData (data : Tweet.t) : bool :=
  match Tweet.legacy data with Some _ => true | None => false end.

Definition extGetCaptures (db : Db) (extName : string) : list Capture.t :=
  List.filter (fun c => String.eqb (Capture.extension c) extName)
              (toArray (captures db)).

Definition extGetCapturesSince (db : Db) (extName : string) (since : Z)
  : list Capture.t :=
  List.filter (fun c => String.eqb (Capture.extension c) extName
                        && (since <? Capture.created_at c))
              (toArray (captures db)).

(** [where('rest_id').anyOf(ids).filter(...).toArray()] *)
Definition anyOf_filtered (db : Db) (ids : list string) : list Tweet.t :=
  List.filter (fun t => bool_decide (Tweet.rest_id t ∈ ids) && filterEmptyData t)
              (toArray (tweets db)).

(** [new Map(rows.map((t) => [t.rest_id, t]))] *)
Definition Map_by_rest_id (rows : list Tweet.t) : gmap string Tweet.t :=
  foldl (fun m t => <[Tweet.rest_id t := t]> m) ∅ rows.

(** The records of a list of captures, in the order of the captures. *)
Definition resolve (db : Db) (captures : list Capture.t) : list Tweet.t :=
  let tweetIds := map Capture.data_key (sortCaptures captures) in
  let m := Map_by_rest_id (anyOf_filtered db tweetIds) in
  omap (fun id => m !! id) tweetIds.

Definition extGetCapturedTweets (db : Db) (extName : string) : list Tweet.t :=
  resolve db (extGetCaptures db extName).

Definition extGetCapturedTweetsSince (db : Db) (extName : string) (since : Z)
  : list Tweet.t :=
  match extGetCapturesSince db extName since with
  | [] => []
  | captures => resolve db captures
  end.

(** [upsertTweets]; [now i] is the clock read for the row of index [i]. *)
Definition annotate (now : Z) (tweet : Tweet.t) : Tweet.t :=
  Tweet.mk (Tweet.rest_id tweet) (Tweet.legacy tweet) (Tweet.core tweet)
    (Tweet.views_count tweet)
    (Some (PrivateFields.mk
             (match Tweet.legacy tweet with
              | Some l => parseTwitterDateTime (Legacy.created_at l)
              | None => None
              end)
             now
             (length (extractTweetMedia tweet)))).

Definition upsertTweets (rows : list Tweet.t) (now : nat -> Z) (db : Db) : Db :=
  mkDb (bulkPut Tweet.rest_id (imap (fun i t => annotate (now i) t) rows)
                (tweets db))
       (captures db).

Definition upsertCaptures (rows : list Capture.t) (db : Db) : Db :=
  mkDb (tweets db) (bulkPut Capture.id rows (captures db)).

(** The primary key of a capture, [`${extName}-${rest_id}`]. *)
Definition capture_id (extName rest_id : string) : string :=
  extName +:+ "-" +:+ rest_id.

Definition capture_of (extName : string) (now : nat -> Z) (i : nat)
  (item : WithSortIndex.t Tweet.t) : Capture.t :=
  Capture.mk (capture_id extName (Tweet.rest_id (WithSortIndex.data item)))
             extName Capture.TWEET
             (Tweet.rest_id (WithSortIndex.data item))
             (now i + Z.of_nat i)
             (WithSortIndex.sortIndex item).

Definition extAddTweets (extName : string)
  (items : list (WithSortIndex.t Tweet.t)) (now : nat -> Z) (db : Db) : Db :=
  let sorted := sortItems items in
  let db1 := upsertTweets (map WithSortIndex.data sorted) now db in
  upsertCaptures (imap (capture_of extName now) sorted) db1.

(** A sequence of batches of one source, each with its clock. *)
Definition extAddTweets_all (extName : string)
  (batches : list (list (WithSortIndex.t Tweet.t) * (nat -> Z))) (db : Db) : Db :=
  fold_left (fun db batch => extAddTweets extName (fst batch) (snd batch) db)
            batches db.

End WithHelpers.

(** ** Vocabulary of the statements about the store *)

(** Rows are stored under their primary key. *)
Definition keyed_by {A} (key : A -> string) (table : gmap string A) : Prop :=
  forall k row, table !! k = Some row -> key row = k.

(** Captures are stored under their identifier, which is made of their
    source and of the identifier of their record. *)
Definition well_formed (db : Db) : Prop :=
  forall k c, captures db !! k = Some c ->
              Capture.id c = k
              /\ Capture.id c = capture_id (Capture.extension c) (Capture.data_key c).

(** The record a capture refers to, if the store has it with a payload. *)
Definition stored (db : Db) (c : Capture.t) : option Tweet.t :=
  match tweets db !! Capture.data_key c with
  | Some t => if filterEmptyData t then Some t else None
  | None => None
  end.

(** A comparator is consistent on a set of values when it answers zero
    for a value and itself, answers zero both ways round or neither, and
    each of its three answers is transitive: the condition the language
    sets for the order of [Array.prototype.sort] to be defined. *)
Definition consistent {A} (cmp : A -> A -> Z) (S : A -> Prop) : Prop :=
  (forall a, S a -> cmp a a = 0)
  /\ (forall a b, S a -> S b -> cmp a b = 0 -> cmp b a = 0)
  /\ (forall a b c, S a -> S b -> S c ->
        cmp a b = 0 -> cmp b c = 0 -> cmp a c = 0)
  /\ (forall a b c, S a -> S b -> S c ->
        cmp a b < 0 -> cmp b c < 0 -> cmp a c < 0)
  /\ (forall a b c, S a -> S b -> S c ->
        cmp a b > 0 -> cmp b c > 0 -> cmp a c > 0).

Section Rule.
Context `{Api}.

(** The sort key a capture is ordered by, when it has one. *)
Definition key_of (c : Capture.t) : option string :=
  if present (Capture.sort_index c) then Capture.sort_index c else None.

(** The ordering rule of the specification: sort key ascending when both
    entries have one, an entry with a sort key before one without,
    otherwise the most recent creation timestamp first. *)
Definition ordered_before (a b : Capture.t) : Prop :=
  match key_of a, key_of b with
  | Some ka, Some kb => compareSortIndex (Some ka) (Some kb) <= 0
  | Some _, None => True
  | None, Some _ => False
  | None, None => Capture.created_at b <= Capture.created_at a
  end.

(** [compareSortIndex] is consistent on the sort keys of a list of
    captures. *)
Definition consistent_keys (captures : list Capture.t) : Prop :=
  consistent (fun a b => compareSortIndex (Some a) (Some b))
             (fun k => exists c, In c captures /\ key_of c = Some k).

End Rule.
End Store.

(* ===================================================================== *)
(** * The export projection and the sync engine *)
(* ===================================================================== *)

(** How a call ends: with a value, or with an exception (for an [async]
    function, a rejected promise). *)
Inductive Completion (A : Type) : Type :=
| Returned (a : A)
| Thrown (message : string).
Arguments Returned {A}.
Arguments Thrown {A}.

Module Metrics.
Record t := mk {
  favorites : Z;
  retweets : Z;
  replies : Z;
  quotes : Z;
  bookmarks : Z;
  views : option Z
}.
End Metrics.

Module TweetContext.
Record t := mk {
  in_reply_to : option string;
  retweeted_status : option string;
  quoted_status : option string
}.
End TweetContext.

Module ObsidianTweet.
Record t := mk {
  id : string;
  created_at : string;
  screen_name : string;
  name : string;
  text : string;
  url : string;
  media : list string;
  metrics : Metrics.t;
  context : TweetContext.t;
  source : string
}.
End ObsidianTweet.

Module SyncSummary.
Record t := mk {
  total : nat;
  synced : nat;
  skipped : nat;
  files : nat;
  errors : list string
}.
End SyncSummary.

(** What a request to the vault comes to: a response, or a rejection
    ([onerror], a missing token). *)
Inductive Reply : Type :=
| Response (status : Z) (responseText : string)
| Rejected (message : string).

(** The transport of [obsidian.ts] over some state [W] of the outside
    world. *)
Class Vault (W : Type) := {
  getVaultFile : string -> W -> Reply * W;
  putVaultFile : string -> string -> W -> Reply * W
}.

Module Sync.
Import Js Json DateTime Store.

Definition OBSIDIAN_DEFAULT_FOLDER : string := "Tweets".

Definition isOkStatus (status : Z) : bool :=
  (200 <=? status) && (status <? 300).

(** Unary plus on the text of a count, which the timeline gives as a run
    of digits: the number it denotes, zero for the empty text. The other
    texts that the conversion reads as a number (a sign, a fraction, an
    exponent, a radix prefix, [Infinity]) and the runs of digits above 2^53,
    which it rounds, are outside the embedding; [None] stands for [NaN],
    which [JSON.stringify] writes as [null]. No statement below reads the
    value of a count. *)
Definition count_of_string (s : string) : option Z :=
  match lex_uint (trim s) with
  | (d, "") => Some (Z.of_uint d)
  | _ => None
  end.

Section Projection.
Context `{Api} `{Common}.

Definition toObsidianTweet (tweet : Tweet.t) : Completion ObsidianTweet.t :=
  match Tweet.legacy tweet with
  | None => Thrown "TypeError"
  | Some legacy =>
      let createdAt := parseTwitterDateTime (Legacy.created_at legacy) in
      let createdAtIso :=
        match createdAt with
        | Some ms => toISOString ms
        | None => toISOString 0
        end in
      let retweeted := extractRetweetedTweet tweet in
      let quoted := extractQuotedTweet tweet in
      match Tweet.core tweet with
      | None => Thrown "TypeError"
      | Some core =>
          Returned
            (ObsidianTweet.mk
               (Tweet.rest_id tweet)
               createdAtIso
               (UserCore.screen_name core)
               (UserCore.name core)
               (extractTweetFullText tweet)
               (getTweetURL tweet)
               (map getMediaOriginalUrl (extractTweetMedia tweet))
               (Metrics.mk
                  (Legacy.favorite_count legacy)
                  (Legacy.retweet_count legacy)
                  (Legacy.reply_count legacy)
                  (Legacy.quote_count legacy)
                  (Legacy.bookmark_count legacy)
                  (match Tweet.views_count tweet with
                   | None => None
                   | Some count => count_of_string count
                   end))
               (TweetContext.mk
                  (Legacy.in_reply_to_status_id_str legacy)
                  (option_map Tweet.rest_id retweeted)
                  (option_map Tweet.rest_id quoted))
               "home_timeline")
      end
  end.

(** The key of the bucket a record goes to. *)
Definition dateKey (tweet : Tweet.t) : Completion string :=
  match Tweet.legacy tweet with
  | None => Thrown "TypeError"
  | Some legacy =>
      Returned (formatDateTime (parseTwitterDateTime (Legacy.created_at legacy))
                               "YYYY-MM-DD")
  end.

End Projection.

(** ** Serialisation of a document *)

Definition opt_str (o : option string) : Data :=
  match o with Some s => DStr s | None => DNull end.

Definition opt_int (o : option Z) : Data :=
  match o with Some z => DInt z | None => DNull end.

(** The own properties of the object literal of [toObsidianTweet], in the
    order it writes them. *)
Definition toData (item : ObsidianTweet.t) : Data :=
  let m := ObsidianTweet.metrics item in
  let c := ObsidianTweet.context item in
  DObj [ ("id", DStr (ObsidianTweet.id item));
         ("created_at", DStr (ObsidianTweet.created_at item));
         ("screen_name", DStr (ObsidianTweet.screen_name item));
         ("name", DStr (ObsidianTweet.name item));
         ("text", DStr (ObsidianTweet.text item));
         ("url", DStr (ObsidianTweet.url item));
         ("media", DArr (map DStr (ObsidianTweet.media item)));
         ("metrics",
          DObj [ ("favorites", DInt (Metrics.favorites m));
                 ("retweets", DInt (Metrics.retweets m));
                 ("replies", DInt (Metrics.replies m));
                 ("quotes", DInt (Metrics.quotes m));
                 ("bookmarks", DInt (Metrics.bookmarks m));
                 ("views", opt_int (Metrics.views m)) ]);
         ("context",
          DObj [ ("in_reply_to", opt_str (TweetContext.in_reply_to c));
                 ("retweeted_status", opt_str (TweetContext.retweeted_status c));
                 ("quoted_status", opt_str (TweetContext.quoted_status c)) ]);
         ("source", DStr (ObsidianTweet.source item)) ].

(** [JSON.stringify(item)] *)
Definition JSON_stringify (item : ObsidianTweet.t) : string :=
  stringify (toData item).

(** ** [extractExistingIds] *)

Section Engine.
Context `{NumberPrinter}.

(** The identifier one line of a bucket file contributes, if any. *)
Definition id_of_line (line : string) : option string :=
  let trimmed := trim line in
  if truthy trimmed then
    match JSON_parse trimmed with
    | Some parsed =>
        match get_id parsed with
        | Some JNull => None
        | Some v => Some (js_String v)
        | None => None
        end
    | None => None
    end
  else None.

Definition extractExistingIds (content : string) : gset string :=
  foldl (fun ids line =>
           match id_of_line line with
           | Some i => ids ∪ {[ i ]}
           | None => ids
           end)
        ∅ (split LF content).

(** ** [syncHomeTimelineToObsidian] *)

Definition Buckets := list (string * list ObsidianTweet.t).

(** [buckets.get(key) ?? []], [push], [buckets.set(key, items)]: a key
    keeps the place of its first insertion. *)
Fixpoint bucket_push (key : string) (item : ObsidianTweet.t) (buckets : Buckets)
  : Buckets :=
  match buckets with
  | [] => [(key, [item])]
  | (k, items) :: rest =>
      if String.eqb k key then (k, items ++ [item]) :: rest
      else (k, items) :: bucket_push key item rest
  end.

Definition path_of (folder key : string) : string :=
  folder +:+ "/" +:+ key +:+ ".jsonl".

(** The first [try] of the loop body: the existing content, or the message
    of the error that is caught. *)
Definition readExisting (path : string) (reply : Reply) : string + string :=
  match reply with
  | Response status responseText =>
      if status =? 404 then inl ""
      else if isOkStatus status then inl responseText
      else inr ("GET " +:+ path +:+ " failed (" +:+ decimal status +:+ ")")
  | Rejected message => inr message
  end.

(** The second [try]: [None] when the write went through. *)
Definition writeFailure (path : string) (reply : Reply) : option string :=
  match reply with
  | Response status _ =>
      if isOkStatus status then None
      else Some ("PUT " +:+ path +:+ " failed (" +:+ decimal status +:+ ")")
  | Rejected message => Some message
  end.

Definition newItems_of (existingContent : string) (items : list ObsidianTweet.t)
  : list ObsidianTweet.t :=
  let existingIds := extractExistingIds existingContent in
  List.filter (fun item => negb (bool_decide (ObsidianTweet.id item ∈ existingIds)))
              items.

Definition newLines_of (newItems : list ObsidianTweet.t) : string :=
  join (str1 LF) (map JSON_stringify newItems) +:+ str1 LF.

Definition combined_of (existingContent newLines : string) : string :=
  existingContent
    +:+ (if truthy existingContent && negb (endsWith existingContent LF)
         then str1 LF else "")
    +:+ newLines.

Definition add_error (message : string) (s : SyncSummary.t) : SyncSummary.t :=
  SyncSummary.mk (SyncSummary.total s) (SyncSummary.synced s)
    (SyncSummary.skipped s) (SyncSummary.files s)
    (SyncSummary.errors s ++ [message]).

Definition add_skipped (n : nat) (s : SyncSummary.t) : SyncSummary.t :=
  SyncSummary.mk (SyncSummary.total s) (SyncSummary.synced s)
    (SyncSummary.skipped s + n) (SyncSummary.files s) (SyncSummary.errors s).

Definition add_synced (n : nat) (s : SyncSummary.t) : SyncSummary.t :=
  SyncSummary.mk (SyncSummary.total s) (SyncSummary.synced s + n)
    (SyncSummary.skipped s) (SyncSummary.files s + 1) (SyncSummary.errors s).

Section Transport.
Context {W : Type} `{Vault W}.

(** The body of the loop over the buckets. *)
Definition syncBucket (folder : string) (acc : SyncSummary.t * W)
  (bucket : string * list ObsidianTweet.t) : SyncSummary.t * W :=
  let '(summary, w) := acc in
  let '(key, items) := bucket in
  let path := path_of folder key in
  let '(reply, w1) := getVaultFile path w in
  match readExisting path reply with
  | inr message => (add_error message summary, w1)
  | inl existingContent =>
      let newItems := newItems_of existingContent items in
      let summary1 :=
        add_skipped (length items - length newItems) summary in
      match newItems with
      | [] => (summary1, w1)
      | _ :: _ =>
          let combined := combined_of existingContent (newLines_of newItems) in
          let '(reply2, w2) := putVaultFile path combined w1 in
          match writeFailure path reply2 with
          | None => (add_synced (length newItems) summary1, w2)
          | Some message => (add_error message summary1, w2)
          end
      end
  end.

Section WithHelpers.
Context `{Api} `{Common}.

(** The loop that fills the buckets; it stops at the first exception. *)
Fixpoint fillBuckets (tweets : list Tweet.t) (buckets : Buckets)
  : Completion Buckets :=
  match tweets with
  | [] => Returned buckets
  | tweet :: rest =>
      match dateKey tweet with
      | Thrown m => Thrown m
      | Returned key =>
          match toObsidianTweet tweet with
          | Thrown m => Thrown m
          | Returned item => fillBuckets rest (bucket_push key item buckets)
          end
      end
  end.

(** The records the run exports: step 1 of the engine. *)
Definition fetched (db : Db) : list Tweet.t :=
  extGetCapturedTweets db "HomeTimelineModule".

Definition syncHomeTimelineToObsidian (folder : string) (db : Db) (w : W)
  : Completion SyncSummary.t * W :=
  let tweets := fetched db in
  let summary := SyncSummary.mk (length tweets) 0 0 0 [] in
  match tweets with
  | [] => (Returned summary, w)
  | _ :: _ =>
      match fillBuckets tweets [] with
      | Thrown m => (Thrown m, w)
      | Returned buckets =>
          let '(s, w') := fold_left (syncBucket folder) buckets (summary, w) in
          (Returned s, w')
      end
  end.

End WithHelpers.
End Transport.
End Engine.

(** ** A vault that keeps files

    [GET] answers 200 with the content of a file it has and 404 otherwise;
    [PUT] stores the body and answers 204. A request the plan of faults
    names gets that reply instead and changes nothing. *)
Inductive Method := GET | PUT.

Record Files := mkFiles {
  content : gmap string string;
  faults : Method -> string -> option Reply
}.

Definition no_faults : Method -> string -> option Reply := fun _ _ => None.

#[export] Instance files_vault : Vault Files := {
  getVaultFile path w :=
    match faults w GET path with
    | Some reply => (reply, w)
    | None =>
        match content w !! path with
        | Some text => (Response 200 text, w)
        | None => (Response 404 "", w)
        end
    end;
  putVaultFile path body w :=
    match faults w PUT path with
    | Some reply => (reply, w)
    | None => (Response 204 "", mkFiles (<[path := body]> (content w)) (faults w))
    end
}.



(** ** Vocabulary of the statements about two runs *)

(** Every document of the list has its identifier among those of the
    text. *)
Definition covers `{NumberPrinter} (items : list ObsidianTweet.t) (text : string)
  : Prop :=
  forall d, In d items -> ObsidianTweet.id d ∈ extractExistingIds text.

(** A plan of faults only names requests that fail. *)
Definition honest (f : Method -> string -> option Reply) : Prop :=
  forall path reply,
    (f GET path = Some reply -> exists m, readExisting path reply = inr m)
    /\ (f PUT path = Some reply -> exists m, writeFailure path reply = Some m).

(** The number of documents of a list of buckets. *)
Definition documents (buckets : list (string * list ObsidianTweet.t)) : nat :=
  fold_right (fun b n => (length (snd b) + n)%nat) 0%nat buckets.

End Sync.

(* ===================================================================== *)
(** * The scheduler ([SyncManager]) *)
(* ===================================================================== *)

Module Scheduler.
Import Store Sync.

Definition MIN_INTERVAL_MINUTES : Z := 5.
Definition MAX_INTERVAL_MINUTES : Z := 180.

(** [getIntervalMs], for a configured number of minutes. *)
Definition getIntervalMs (minutes : Z) : Z :=
  Z.max MIN_INTERVAL_MINUTES (Z.min MAX_INTERVAL_MINUTES minutes) * 60 * 1000.

(** The fields of the manager a tick touches, and the one option it reads
    and writes. *)
Record State := mkState {
  inFlight : bool;
  signal : Z;
  homeTimelineLastSyncAt : option Z
}.

(** [document.visibilityState === 'visible'] and [navigator.onLine]. *)
Record Host := mkHost { visible : bool; onLine : bool }.

(** Where a tick is suspended: at the [await] of the capture query, at the
    [await] of the sync, or nowhere any more. *)
Inductive Point : Type :=
| AtCaptures (lastSyncAt : Z)
| AtSync (lastSyncAt : option Z)
| Finished.

(** [this.inFlight = true; this.signal.value++] *)
Definition begin_run (s : State) : State :=
  mkState true (signal s + 1) (homeTimelineLastSyncAt s).

(** From the call of [tick] to its first [await], or to its return. *)
Definition tick_enter (host : Host) (s : State) : State * Point :=
  if inFlight s then (s, Finished)
  else if negb (visible host) then (s, Finished)
  else if negb (onLine host) then (s, Finished)
  else match homeTimelineLastSyncAt s with
       | Some lastSyncAt => (s, AtCaptures lastSyncAt)
       | None => (begin_run s, AtSync None)
       end.

(** From the answer of the capture query to the [await] of the sync. *)
Definition tick_captures (lastSyncAt : Z) (newCaptures : list Capture.t)
  (s : State) : State * Point :=
  match newCaptures with
  | [] => (s, Finished)
  | _ :: _ => (begin_run s, AtSync (Some lastSyncAt))
  end.

(** From the end of the sync to the end of the tick: the rest of the [try]
    block, or the [catch], and then the [finally]. [now] is [Date.now()]. *)
Definition tick_settle (result : Completion SyncSummary.t) (now : Z)
  (s : State) : State :=
  let lastSyncAt :=
    match result with
    | Returned _ => Some now
    | Thrown _ => homeTimelineLastSyncAt s
    end in
  mkState false (signal s + 1) lastSyncAt.

(** ** Ticks that overlap

    The ticks started so far, each at its point, over the shared state. An
    event starts a tick or resumes one at the [await] it waits at. *)
Record System := mkSystem { state : State; ticks : list Point }.

Inductive Event : Type :=
| Fire (host : Host)
| CapturesReady (i : nat) (db : Db)
| SyncSettled (i : nat) (result : Completion SyncSummary.t) (now : Z).

Definition step (sys : System) (ev : Event) : System :=
  match ev with
  | Fire host =>
      let '(s, p) := tick_enter host (state sys) in
      mkSystem s (ticks sys ++ [p])
  | CapturesReady i db =>
      match ticks sys !! i with
      | Some (AtCaptures lastSyncAt) =>
          let newCaptures :=
            extGetCapturesSince db "HomeTimelineModule" lastSyncAt in
          let '(s, p) := tick_captures lastSyncAt newCaptures (state sys) in
          mkSystem s (<[i := p]> (ticks sys))
      | _ => sys
      end
  | SyncSettled i result now =>
      match ticks sys !! i with
      | Some (AtSync _) =>
          mkSystem (tick_settle result now (state sys))
                   (<[i := Finished]> (ticks sys))
      | _ => sys
      end
  end.

Definition run (sys : System) (events : list Event) : System :=
  fold_left step events sys.

Definition at_sync (p : Point) : bool :=
  match p with AtSync _ => true | _ => false end.

(** The number of sync executions in flight. *)
Definition syncs_in_flight (sys : System) : nat :=
  length (List.filter at_sync (ticks sys)).

(** ** One tick on its own *)

Section Tick.
Context `{Api} `{DateTime.Common} `{Js.NumberPrinter} {W : Type} `{Vault W}.

(** [syncHomeTimelineToObsidian(undefined, lastSyncAt)]: the callee
    declares the one parameter [folder], which takes its default; the
    second argument has no parameter to bind to. *)
Definition invoke_sync (lastSyncAt : option Z) (db : Db) (w : W)
  : Completion SyncSummary.t * W :=
  syncHomeTimelineToObsidian OBSIDIAN_DEFAULT_FOLDER db w.

(** A tick that nothing interleaves with. *)
Definition tick (host : Host) (now : Z) (db : Db) (w : W) (s : State)
  : State * W :=
  let finish (p : State * Point) :=
    match p with
    | (s1, AtSync lastSyncAt) =>
        let '(result, w') := invoke_sync lastSyncAt db w in
        (tick_settle result now s1, w')
    | (s1, _) => (s1, w)
    end in
  match tick_enter host s with
  | (s1, AtCaptures lastSyncAt) =>
      finish (tick_captures lastSyncAt
                (extGetCapturesSince db "HomeTimelineModule" lastSyncAt) s1)
  | p => finish p
  end.

End Tick.
End Scheduler.

(* ===================================================================== *)
(** * Instances for the abstract helpers *)
(* ===================================================================== *)

Module Model.
Import Js Json DateTime Store.

(** The number a decimal cursor denotes. *)
Definition key_number (k : option string) : Z :=
  match k with
  | Some s => Z.of_uint (fst (lex_uint s))
  | None => 0
  end.

(** Modelled from the spec: [compareSortIndex] of [@/utils/api], whose
    source is missing. The specification's ordering rule is
    "explicit sort key ascending if both compared entries have one; an
    entry with a sort key sorts before one without"; the keys are the
    decimal cursors of the timeline. *)
Definition compareSortIndex_spec (a b : option string) : Z :=
  if present a && present b then Z.sgn (key_number a - key_number b)
  else if present a then -1
  else if present b then 1
  else 0.

(** Modelled from the spec: the other helpers of [@/utils/api]. The
    specification gives no rule for the text, the media and the referenced
    records of a post, and no statement below depends on them: a post has
    no media and refers to no other post here, and its permalink is built
    from its identifier. *)
#[export] Instance spec_api : Api := {
  Media := string;
  compareSortIndex := compareSortIndex_spec;
  extractTweetMedia := fun _ => [];
  getMediaOriginalUrl := fun m => m;
  extractTweetFullText := fun _ => "";
  getTweetURL := fun t => "https://x.com/i/status/" +:+ Tweet.rest_id t;
  extractRetweetedTweet := fun _ => None;
  extractQuotedTweet := fun _ => None
}.

Definition month_number (name : string) : option Z :=
  if String.eqb name "Jan" then Some 1 else if String.eqb name "Feb" then Some 2
  else if String.eqb name "Mar" then Some 3 else if String.eqb name "Apr" then Some 4
  else if String.eqb name "May" then Some 5 else if String.eqb name "Jun" then Some 6
  else if String.eqb name "Jul" then Some 7 else if String.eqb name "Aug" then Some 8
  else if String.eqb name "Sep" then Some 9 else if String.eqb name "Oct" then Some 10
  else if String.eqb name "Nov" then Some 11 else if String.eqb name "Dec" then Some 12
  else None.

(** A run of digits, and nothing else. *)
Definition number_of (s : string) : option Z :=
  match lex_uint s with
  | (Decimal.Nil, _) => None
  | (d, "") => Some (Z.of_uint d)
  | _ => None
  end.

(** Modelled from the spec: [parseTwitterDateTime] of [@/utils/common],
    whose source is missing: the parser of the "timestamps in
    a source-specific string format". The format is the one of the
    timeline, [Thu Sep 28 11:07:25 +0000 2023]; any other text is an
    invalid date. *)
Definition parseTwitterDateTime_spec (s : string) : option Z :=
  match split " " s with
  | [_; mon; day; time; "+0000"; year] =>
      match month_number mon, number_of day, number_of year,
            map number_of (split ":" time) with
      | Some m, Some d, Some y, [Some hh; Some mm; Some ss] =>
          if (1 <=? d) && (d <=? 31) && (hh <? 24) && (mm <? 60) && (ss <? 60)
          then Some (days_from_civil y m d * ms_per_day
                     + hh * 3600000 + mm * 60000 + ss * 1000)
          else None
      | _, _, _, _ => None
      end
  | _ => None
  end.

(** Modelled from the spec: [formatDateTime] of [@/utils/common], whose
    source is missing. For the bucket key the specification asks
    "the UTC calendar date (YYYY-MM-DD) derived from the same creation
    timestamp". It has no words for a date that is not valid, which has no
    calendar date: the empty text stands for it, so that examples can run,
    and no statement below reads it. *)
Definition formatDateTime_spec (date : option Z) (format : string) : string :=
  match date with
  | Some ms => utc_date ms
  | None => ""
  end.

#[export] Instance spec_common : Common := {
  parseTwitterDateTime := parseTwitterDateTime_spec;
  formatDateTime := formatDateTime_spec
}.

(** A printer for the numbers outside the embedding, so that examples can
    run: it writes the decimal it is given. No example below reaches it
    with a number that an engine would write otherwise. *)
#[export] Instance decimal_printer : NumberPrinter :=
  fun m e => decimal m +:+ "e" +:+ decimal e.

End Model.

(* ===================================================================== *)
(** * Sample data *)
(* ===================================================================== *)

Module Sample.
Import Js Json Store Sync Scheduler Model.

Definition legacy (created_at : string) : Legacy.t :=
  Legacy.mk created_at 0 0 0 0 0 None.

Definition tweet (rest_id created_at : string) : Tweet.t :=
  Tweet.mk rest_id (Some (legacy created_at))
           (Some (UserCore.mk "handle" "Name")) None None.

Definition posted : string := "Thu Sep 28 11:07:25 +0000 2023".

(** A post whose author block is missing: the projection throws on it. *)
Definition broken_tweet (rest_id : string) : Tweet.t :=
  Tweet.mk rest_id (Some (legacy posted)) None None None.

Definition item (rest_id : string) (sortIndex : option string)
  : WithSortIndex.t Tweet.t :=
  WithSortIndex.mk (tweet rest_id posted) sortIndex.

Definition home : string := "HomeTimelineModule".

(** Post [A] captured at epoch 10, post [B] captured at epoch 20. *)
Definition two_captures : Db :=
  extAddTweets home [item "B" None] (fun _ => 20)
    (extAddTweets home [item "A" None] (fun _ => 10) empty_db).

(** The posts [A] and [B] captured from the timeline, and the post 7
    captured at epoch 5 from the bookmarks. *)
Definition with_bookmark : Db :=
  extAddTweets "BookmarksModule" [item "7" None] (fun _ => 5) two_captures.

Definition broken_capture : Db :=
  extAddTweets home [WithSortIndex.mk (broken_tweet "C") None]
    (fun _ => 10) empty_db.

(** Three posts captured in one batch: [a] with the sort key 3, [b] with
    the sort key 1 and [c] with the sort key 2. The table keeps their
    captures in the order of their identifiers: the sort keys 3, 1, 2. *)
Definition keyed_captures : Db :=
  extAddTweets home [item "a" (Some "3"); item "b" (Some "1");
                     item "c" (Some "2")] (fun _ => 10) empty_db.

(** Three posts captured without sort keys, at epochs 10, 30 and 20. *)
Definition unkeyed_captures : Db :=
  extAddTweets home [item "late" None] (fun _ => 20)
    (extAddTweets home [item "latest" None] (fun _ => 30)
       (extAddTweets home [item "early" None] (fun _ => 10) empty_db)).

(** Two posts of one day, with the identifiers 1 and 2. *)
Definition same_day_posts : Db :=
  extAddTweets home [item "1" None; item "2" None] (fun _ => 10) empty_db.

(** One batch that names the post [A] twice, first with the sort key 5 and
    then with the sort key 3. *)
Definition repeated_batch : list (WithSortIndex.t Tweet.t) :=
  [item "A" (Some "5"); item "A" (Some "3")].

Definition empty_vault : Files := mkFiles ∅ no_faults.

Definition host_ready : Host := mkHost true true.

(** A vault that answers every request with the status 500. *)
Definition failing_vault : Files :=
  mkFiles ∅ (fun _ _ => Some (Response 500 "")).

(** The line [{"id":"1"}] and the line [{"id":1}]. *)
Definition line_id_text : string :=
  "{" +:+ quote "id" +:+ ":" +:+ quote "1" +:+ "}".


(** Two documents of one day, with the identifiers 1 and 2. *)
Definition document (id : string) : ObsidianTweet.t :=
  ObsidianTweet.mk id "2023-09-28T11:07:25.000Z" "handle" "Name" "" "" []
    (Metrics.mk 0 0 0 0 0 None) (TweetContext.mk None None None)
    "home_timeline".

Definition vault_with_line : Files :=
  mkFiles {[ "Tweets/2023-09-28.jsonl" := line_id_text +:+ str1 LF ]} no_faults.

(** The document the projection makes of [tweet id posted] with the
    helpers of [Model]. *)
Definition exported (id : string) : ObsidianTweet.t :=
  ObsidianTweet.mk id "2023-09-28T11:07:25.000Z" "handle" "Name" ""
    ("https://x.com/i/status/" +:+ id) []
    (Metrics.mk 0 0 0 0 0 None) (TweetContext.mk None None None)
    "home_timeline".

(** [vault_with_line] after a run has added the post 2 to it. *)
Definition vault_after_first_run : Files :=
  mkFiles {[ "Tweets/2023-09-28.jsonl"
             := line_id_text +:+ str1 LF
                +:+ JSON_stringify (exported "2") +:+ str1 LF ]} no_faults.

End Sample.

(* ===================================================================== *)
(** * The rest of the store: counting and clearing captures *)
(* ===================================================================== *)

Module Upkeep.
Import Js Store.

(** The name of the database the constructor opens: [DB_NAME], and the
    identifier of the account after an underscore when the option
    [dedicatedDbForAccounts] is set. [userId] is [None] when the page gives
    no [__META_DATA__] or no identifier in it. *)
Definition database_name (DB_NAME : string) (dedicatedDbForAccounts : bool)
  (userId : option string) : string :=
  let userId := default "unknown" userId in
  let suffix := if dedicatedDbForAccounts then "_" +:+ userId else "" in
  DB_NAME +:+ suffix.

(** [table.bulkDelete(keys)] *)
Definition bulkDelete {A} (keys : list string) (table : gmap string A)
  : gmap string A :=
  foldl (fun t k => delete k t) table keys.

(** [where('extension').equals(extName).count()] *)
Definition extGetCaptureCount (db : Db) (extName : string) : nat :=
  length (List.filter (fun c => String.eqb (Capture.extension c) extName)
                      (toArray (captures db))).

Definition extClearCaptures (db : Db) (extName : string) : Db :=
  let found := extGetCaptures db extName in
  mkDb (tweets db) (bulkDelete (map Capture.id found) (captures db)).

(** ** Vocabulary *)

(** The identifiers of the records of a batch. *)
Definition submitted (items : list (WithSortIndex.t Tweet.t)) : list string :=
  map (fun item => Tweet.rest_id (WithSortIndex.data item)) items.

(** The identifiers of the records a source has captured. *)
Definition captured (db : Db) (extName : string) : list string :=
  map Capture.data_key (extGetCaptures db extName).

End Upkeep.

(* ===================================================================== *)
(** * The transport ([obsidian.ts]) *)
(* ===================================================================== *)

Module Obsidian.
Import Js Json Sync.

(** The two options the transport reads, and the two constants the build
    puts in place of [__OBSIDIAN_API_BASE_URL__] and
    [__OBSIDIAN_API_TOKEN__]. [None] is an option that is not set. *)
Record Options := mkOptions {
  obsidianApiBaseUrl : option string;
  obsidianApiToken : option string;
  BUILD_API_BASE_URL : string;
  BUILD_API_TOKEN : string
}.

(** [a || b] on strings, the left one possibly [undefined]. *)
Definition or_else (a : option string) (b : string) : string :=
  match a with
  | Some s => if truthy s then s else b
  | None => b
  end.

Definition getObsidianApiBaseUrl (o : Options) : string :=
  or_else (obsidianApiBaseUrl o)
          (or_else (Some (BUILD_API_BASE_URL o)) "http://127.0.0.1:27123").

Definition getObsidianApiToken (o : Options) : string :=
  or_else (obsidianApiToken o) (or_else (Some (BUILD_API_TOKEN o)) "").

(** ** [encodeURIComponent]

    The characters the function keeps: letters, digits and
    [- _ . ! ~ * ' ( )]. Every other byte of the UTF-8 form is written
    [%XX] with upper-case digits. *)
Definition unreserved (c : ascii) : bool :=
  let n := N_of_ascii c in
  ((65 <=? n) && (n <=? 90) || (97 <=? n) && (n <=? 122)
   || (48 <=? n) && (n <=? 57)
   || (n =? 45) || (n =? 95) || (n =? 46) || (n =? 33) || (n =? 126)
   || (n =? 42) || (n =? 39) || (n =? 40) || (n =? 41))%N.

Definition HEX (n : N) : ascii :=
  if (n <? 10)%N then byte (48 + n) else byte (55 + n).

Definition percent (c : ascii) : string :=
  let n := N_of_ascii c in
  String "%" (String (HEX (n / 16)) (str1 (HEX (n mod 16)))).

Definition encode_char (c : ascii) : string :=
  if unreserved c then str1 c else percent c.

(** A surrogate on its own has no UTF-8 form; a string holds it as the
    three bytes [ED A0..BF xx], and the function throws [URIError] on it:
    [None]. *)
Definition lone_surrogate (c : ascii) (r : string) : bool :=
  match r with
  | String b _ => ((N_of_ascii c =? 237) && (160 <=? N_of_ascii b))%N
  | "" => false
  end.

Fixpoint encodeURIComponent (s : string) : option string :=
  match s with
  | "" => Some ""
  | String c r =>
      if lone_surrogate c r then None
      else match encodeURIComponent r with
           | Some e => Some (encode_char c +:+ e)
           | None => None
           end
  end.

(** [path.replace(/^\/+/, '')] *)
Fixpoint strip_leading_slashes (path : string) : string :=
  match path with
  | String c r => if Ascii.eqb c "/" then strip_leading_slashes r else path
  | "" => ""
  end.

(** [segments.map(encodeURIComponent)]: the first segment that throws
    ends the call. *)
Fixpoint encode_segments (segments : list string) : option (list string) :=
  match segments with
  | [] => Some []
  | seg :: rest =>
      match encodeURIComponent seg with
      | Some e =>
          match encode_segments rest with
          | Some es => Some (e :: es)
          | None => None
          end
      | None => None
      end
  end.

Definition encodeVaultPath (path : string) : option string :=
  match encode_segments (split "/" (strip_leading_slashes path)) with
  | Some segments => Some (join "/" segments)
  | None => None
  end.

(** [url.replace(/\/$/, '')] *)
Fixpoint strip_trailing_slash (url : string) : string :=
  match url with
  | "" => ""
  | String c "" => if Ascii.eqb c "/" then "" else url
  | String c r => String c (strip_trailing_slash r)
  end.

(** ** [request]

    What [GM_xmlhttpRequest] is called with, and what it calls back:
    [onload] with a status and maybe a text, or [onerror]. The call sets no
    other callback: a request that neither loads nor fails leaves the
    promise pending, and is not a behaviour of the embedding. *)
Record Details := mkDetails {
  method : Method;
  url : string;
  headers : list (string * string);
  data : option string
}.

Inductive Outcome : Type :=
| Load (status : Z) (responseText : option string)
| Failed.

Class Http (W : Type) := GM_xmlhttpRequest : Details -> W -> Outcome * W.

Definition MISSING_TOKEN : string :=
  "Missing Obsidian API Token. Configure it in Settings.".

Definition REQUEST_FAILED : string := "Obsidian request failed".

(** The message of the [URIError] of the engine. *)
Definition URI_MALFORMED : string := "URI malformed".

Section Request.
Context {W : Type} `{Http W}.

Definition request (o : Options) (method : Method) (path : string)
  (data : option string) (w : W) : Reply * W :=
  let token := getObsidianApiToken o in
  if negb (truthy token) then (Rejected MISSING_TOKEN, w)
  else
    let baseUrl := strip_trailing_slash (getObsidianApiBaseUrl o) in
    let url := baseUrl +:+ path in
    let content_type :=
      match data with
      | Some d =>
          if truthy d then [("Content-Type", "text/plain; charset=utf-8")]
          else []
      | None => []
      end in
    let details :=
      mkDetails method url (("Authorization", "Bearer " +:+ token) :: content_type)
                data in
    match GM_xmlhttpRequest details w with
    | (Load status responseText, w') =>
        (Response status (default "" responseText), w')
    | (Failed, w') => (Rejected REQUEST_FAILED, w')
    end.

Definition getVaultFile_of (o : Options) (path : string) (w : W) : Reply * W :=
  match encodeVaultPath path with
  | Some encodedPath => request o GET ("/vault/" +:+ encodedPath) None w
  | None => (Rejected URI_MALFORMED, w)
  end.

Definition putVaultFile_of (o : Options) (path content : string) (w : W)
  : Reply * W :=
  match encodeVaultPath path with
  | Some encodedPath => request o PUT ("/vault/" +:+ encodedPath) (Some content) w
  | None => (Rejected URI_MALFORMED, w)
  end.

(** The transport the sync engine runs over, for given options. *)
Definition vault_of (o : Options) : Vault W := {|
  getVaultFile := getVaultFile_of o;
  putVaultFile := putVaultFile_of o
|}.

End Request.

(** ** A host that records what it is asked

    The requests sent, the latest first, and the answers of the server. *)
Record Wire := mkWire {
  sent : list Details;
  server : Details -> Outcome
}.

#[export] Instance wire_http : Http Wire :=
  fun details w => (server w details, mkWire (details :: sent w) (server w)).

(** ** Vocabulary *)

(** The characters of an encoded path. *)
Definition path_char (c : ascii) : bool :=
  unreserved c || Ascii.eqb c "%" || Ascii.eqb c "/".

Fixpoint all_chars (p : ascii -> bool) (s : string) : bool :=
  match s with
  | "" => true
  | String c r => p c && all_chars p r
  end.

Definition header (name : string) (d : Details) : option string :=
  match List.find (fun h => String.eqb (fst h) name) (headers d) with
  | Some h => Some (snd h)
  | None => None
  end.

(** Reading an encoded text back: [%XX] is the byte [XX]. *)
Fixpoint decode (e : string) : string :=
  match e with
  | "" => ""
  | String c r =>
      if Ascii.eqb c "%" then
        match r with
        | String h (String l r') =>
            match hex_digit h, hex_digit l with
            | Some x, Some y => String (byte (x * 16 + y)) (decode r')
            | _, _ => String c (decode r)
            end
        | _ => String c (decode r)
        end
      else String c (decode r)
  end.

(** A request as the transport is to send it for the options [o]: with
    the token of the options as its bearer, to an encoded path under
    [/vault/] of the base URL, a [GET] without a body and a [PUT] with a
    body that ends with a line feed and is announced as plain text. *)
Definition proper (o : Options) (d : Details) : Prop :=
  truthy (getObsidianApiToken o) = true
  /\ header "Authorization" d = Some ("Bearer " +:+ getObsidianApiToken o)
  /\ (exists encoded,
        url d = strip_trailing_slash (getObsidianApiBaseUrl o)
                +:+ "/vault/" +:+ encoded
        /\ all_chars path_char encoded = true)
  /\ match method d with
     | GET => data d = None /\ header "Content-Type" d = None
     | PUT =>
         exists body,
           data d = Some body /\ endsWith body LF = true
           /\ header "Content-Type" d = Some "text/plain; charset=utf-8"
     end.

End Obsidian.

(* ===================================================================== *)
(** * Languages ([detectBrowserLanguage]) *)
(* ===================================================================== *)

Module Language.
Import Js.

Record LangConf := mkLangConf {
  name : string;
  nameEn : string;
  test : string -> bool
}.

(** [/^zh-(TW|HK|MO|Hant)/.test(code)] *)
Definition test_zh_Hant (code : string) : bool :=
  String.prefix "zh-TW" code || String.prefix "zh-HK" code
  || String.prefix "zh-MO" code || String.prefix "zh-Hant" code.

(** The entries of [LANGUAGES_CONFIG], in the order [Object.entries]
    gives them. *)
Definition LANGUAGES_CONFIG : list (string * LangConf) :=
  [ ("en", mkLangConf "English" "English" (String.prefix "en"));
    ("zh-Hant", mkLangConf "繁體中文" "Traditional Chinese" test_zh_Hant);
    ("zh-Hans", mkLangConf "简体中文" "Simplified Chinese" (String.prefix "zh"));
    ("id", mkLangConf "Bahasa Indonesia" "Indonesian" (String.prefix "id"));
    ("ja", mkLangConf "日本語" "Japanese" (String.prefix "ja")) ].

(** [detectBrowserLanguage], for a value of [window.navigator.language]. *)
Definition detectBrowserLanguage (navigator_language : string) : string :=
  let language := if truthy navigator_language then navigator_language else "en" in
  match List.find (fun entry => test (snd entry) language) LANGUAGES_CONFIG with
  | Some (langTag, _) => langTag
  | None => language
  end.

End Language.

(* ===================================================================== *)
(** * Vocabulary of the statements about the buckets *)
(* ===================================================================== *)

Module Grouping.
Import Js Store Sync.

Section Projection.
Context `{Api} `{DateTime.Common}.

(** The key and the document of a record, when the loop that fills the
    buckets gets both. *)
Definition projected (tweet : Tweet.t) : option (string * ObsidianTweet.t) :=
  match dateKey tweet, toObsidianTweet tweet with
  | Returned key, Returned item => Some (key, item)
  | _, _ => None
  end.

End Projection.

(** [buckets.get(key) ?? []] *)
Definition bucket_items (key : string) (buckets : list (string * list ObsidianTweet.t))
  : list ObsidianTweet.t :=
  match List.find (fun b => String.eqb (fst b) key) buckets with
  | Some b => snd b
  | None => []
  end.

(** The documents of a key, in the order of the list. *)
Definition of_key (key : string) (pairs : list (string * ObsidianTweet.t))
  : list ObsidianTweet.t :=
  map snd (List.filter (fun p => String.eqb (fst p) key) pairs).

(** The keys of a list in the order of their first occurrence. *)
Fixpoint first_occurrences (keys : list string) : list string :=
  match keys with
  | [] => []
  | k :: rest =>
      k :: List.filter (fun k' => negb (String.eqb k' k)) (first_occurrences rest)
  end.

End Grouping.

(* ===================================================================== *)
(** * The rest of the scheduler: conditions and timer *)
(* ===================================================================== *)

Module Manager.
Import Js Store Sync Scheduler.

(** An entry of [extensionManager.getExtensions()]. *)
Record Extension := mkExtension { name : string; enabled : bool }.

(** What the manager reads of its configuration; [None] is an option that
    is not set. *)
Record Config := mkConfig {
  homeTimelineAutoSyncEnabled : option bool;
  homeTimelineAutoSyncIntervalMinutes : option Z;
  OBSIDIAN_API_TOKEN : string;
  extensions : list Extension
}.

(** [shouldRun]: the answer, and [tokenWarningLogged] after the call. *)
Definition shouldRun (cfg : Config) (tokenWarningLogged : bool) : bool * bool :=
  if negb (default false (homeTimelineAutoSyncEnabled cfg))
  then (false, tokenWarningLogged)
  else if negb (truthy (OBSIDIAN_API_TOKEN cfg)) then (false, true)
  else match List.find (fun ext => String.eqb (name ext) "HomeTimelineModule")
                       (extensions cfg) with
       | Some homeModule => (enabled homeModule, tokenWarningLogged)
       | None => (false, tokenWarningLogged)
       end.

(** [getIntervalMs] on the configuration. *)
Definition intervalMs_of (cfg : Config) : Z :=
  getIntervalMs (default 15 (homeTimelineAutoSyncIntervalMinutes cfg)).

(** The interval timers of the window: identifier and period of those
    that are armed, and the identifier the next one gets. *)
Record Window := mkWindow {
  intervals : list (nat * Z);
  next_timer : nat
}.

Definition setInterval (ms : Z) (win : Window) : nat * Window :=
  (next_timer win,
   mkWindow (intervals win ++ [(next_timer win, ms)]) (S (next_timer win))).

Definition clearInterval (id : nat) (win : Window) : Window :=
  mkWindow (List.filter (fun t => negb (Nat.eqb (fst t) id)) (intervals win))
           (next_timer win).

(** The fields of the manager: the timer it remembers, whether it has
    warned about the token, and the flag, the signal and the ticks it has
    started. *)
Record t := mk {
  timerId : option nat;
  tokenWarningLogged : bool;
  system : System
}.

Definition clearTimer (m : t) (win : Window) : t * Window :=
  match timerId m with
  | Some id => (mk None (tokenWarningLogged m) (system m), clearInterval id win)
  | None => (m, win)
  end.

(** [reschedule]; the call of [tick] runs the tick to its first [await]. *)
Definition reschedule (cfg : Config) (host : Host) (m : t) (win : Window)
  : t * Window :=
  let '(m1, win1) := clearTimer m win in
  let '(run, logged) := shouldRun cfg (tokenWarningLogged m1) in
  if run then
    let intervalMs := intervalMs_of cfg in
    let sys := step (system m1) (Fire host) in
    let '(id, win2) := setInterval intervalMs win1 in
    (mk (Some id) logged sys, win2)
  else (mk (timerId m1) logged (system m1), win1).

Definition dispose (m : t) (win : Window) : t * Window := clearTimer m win.

(** The callback of an interval, when the window calls it. *)
Definition elapse (id : nat) (host : Host) (m : t) (win : Window) : t * Window :=
  if existsb (fun t => Nat.eqb (fst t) id) (intervals win)
  then (mk (timerId m) (tokenWarningLogged m) (step (system m) (Fire host)), win)
  else (m, win).

(** ** What happens to a manager *)

Inductive Op : Type :=
| Reschedule (cfg : Config) (host : Host)
| Dispose
| Elapse (id : nat) (host : Host)
| Resume (event : Event).

Definition apply (st : t * Window) (op : Op) : t * Window :=
  let '(m, win) := st in
  match op with
  | Reschedule cfg host => reschedule cfg host m win
  | Dispose => dispose m win
  | Elapse id host => elapse id host m win
  | Resume event =>
      (mk (timerId m) (tokenWarningLogged m) (step (system m) event), win)
  end.

Definition applies (st : t * Window) (ops : list Op) : t * Window :=
  fold_left apply ops st.

(** ** Vocabulary *)

(** The timers armed since the window was [win0]. *)
Definition armed_since (win0 win : Window) : list (nat * Z) :=
  List.filter (fun t => (next_timer win0 <=? fst t)%nat) (intervals win).

(** The timers that were armed when the window was [win0]. *)
Definition armed_before (win0 win : Window) : list (nat * Z) :=
  List.filter (fun t => (fst t <? next_timer win0)%nat) (intervals win).

(** Identifiers are given out in order. *)
Definition in_order (win : Window) : Prop :=
  forall t, In t (intervals win) -> (fst t < next_timer win)%nat.

Definition awaiting_captures (p : Point) : bool :=
  match p with AtCaptures _ => true | _ => false end.

(** No tick is started while the capture query of another is pending. *)
Fixpoint well_timed (sys : System) (events : list Event) : bool :=
  match events with
  | [] => true
  | event :: rest =>
      match event with
      | Fire _ => negb (existsb awaiting_captures (ticks sys))
      | _ => true
      end
      && well_timed (step sys event) rest
  end.

(** The capture queries that are pending. *)
Definition queries (sys : System) : nat :=
  length (List.filter awaiting_captures (ticks sys)).

(** The shape that a run of ticks that take turns keeps. *)
Definition taking_turns (sys : System) : Prop :=
  (syncs_in_flight sys <= 1)%nat
  /\ (queries sys <= 1)%nat
  /\ (syncs_in_flight sys = 1%nat ->
      inFlight (state sys) = true /\ queries sys = 0%nat).

(** The shape that the manager and the window keep. *)
Definition tidy (win0 : Window) (st : t * Window) : Prop :=
  let '(m, win) := st in
  armed_before win0 win = intervals win0
  /\ (next_timer win0 <= next_timer win)%nat
  /\ in_order win
  /\ match timerId m with
     | Some id =>
         exists ms, armed_since win0 win = [(id, ms)]
                    /\ 300000 <= ms <= 10800000
     | None => armed_since win0 win = []
     end.

End Manager.

(* ===================================================================== *)
(** * More sample data *)
(* ===================================================================== *)

Module Cases.
Import Js Store Sync Scheduler Obsidian Manager Sample.

Definition with_token : Options := mkOptions None (Some "secret") "" "".
Definition without_token : Options := mkOptions None None "" "".

(** A host whose server answers 404 to every request. *)
Definition quiet_wire : Wire := mkWire [] (fun _ => Load 404 None).

Definition ready_config : Config :=
  mkConfig (Some true) (Some 1) "secret" [mkExtension home true].

Definition fresh_manager : Manager.t :=
  Manager.mk None false (mkSystem (mkState false 0 None) []).

Definition fresh_window : Window := mkWindow [] 0.

End Cases.

(* ===================================================================== *)
(** * Facts about strings and JSON *)
(* ===================================================================== *)

Module JsFacts.
Import Js.

Lemma append_nil_r (s : string) : s +:+ "" = s.
Proof. induction s; simpl; congruence. Qed.

Lemma append_assoc (a b c : string) : (a +:+ b) +:+ c = a +:+ (b +:+ c).
Proof. induction a; simpl; congruence. Qed.

Lemma length_append (a b : string) :
  String.length (a +:+ b) = (String.length a + String.length b)%nat.
Proof. induction a; simpl; congruence. Qed.

Ltac each_ascii c := destruct c as [[] [] [] [] [] [] [] []].

End JsFacts.

Module JsonFacts.
Import Js Json JsFacts.

Lemma parse_chars_escape_char pend c X :
  parse_chars pend (escape_char c +:+ X)
  = prepend (flush pend +:+ str1 c) (parse_chars None X).
Proof. each_ascii c; reflexivity. Qed.

Lemma prepend_Some_app p s r : prepend p (Some (s, r)) = Some (p +:+ s, r).
Proof. reflexivity. Qed.

Lemma all_bytes_In c : In c all_bytes.
Proof.
  unfold all_bytes. rewrite <- (ascii_nat_embedding c).
  apply in_map, in_seq. pose proof (nat_ascii_bounded c). lia.
Qed.

Lemma surrogate_lead a b c u : surrogate a b c = Some u -> a = "237"%char.
Proof. each_ascii a; try discriminate. reflexivity. Qed.

Lemma surrogate_checked_all a b c : surrogate_checked a b c = true.
Proof.
  destruct (surrogate a b c) as [u|] eqn:Hs;
    [|unfold surrogate_checked; rewrite Hs; reflexivity].
  apply surrogate_lead in Hs as ->.
  assert (Hall : forallb (fun b => forallb (surrogate_checked "237" b) all_bytes)
                         all_bytes = true) by (vm_compute; reflexivity).
  rewrite forallb_forall in Hall. specialize (Hall b (all_bytes_In b)).
  rewrite forallb_forall in Hall. apply Hall, all_bytes_In.
Qed.

(** The bytes of a surrogate and the escape of its code unit. *)
Lemma surrogate_facts a b c u :
  surrogate a b c = Some u ->
  hex4 (hex_char (u / 4096)) (hex_char ((u / 256) mod 16))
       (hex_char ((u / 16) mod 16)) (hex_char (u mod 16)) = Some u
  /\ utf8 u = String a (String b (str1 c))
  /\ is_low u = negb (is_high u)
  /\ escape_char a = str1 a /\ escape_char b = str1 b /\ escape_char c = str1 c
  /\ has_char LF (unicode_escape u) = false.
Proof.
  intros Hs. pose proof (surrogate_checked_all a b c) as Hc.
  unfold surrogate_checked in Hc. rewrite Hs in Hc.
  repeat (apply andb_true_iff in Hc as [Hc ?]).
  repeat split.
  - destruct (hex4 _ _ _ _) as [v|]; [|discriminate].
    apply N.eqb_eq in Hc. congruence.
  - apply String.eqb_eq. assumption.
  - destruct (is_high u), (is_low u); try reflexivity; discriminate.
  - apply String.eqb_eq. assumption.
  - apply String.eqb_eq. assumption.
  - apply String.eqb_eq. assumption.
  - apply negb_true_iff. assumption.
Qed.

Lemma parse_chars_u pend h1 h2 h3 h4 X :
  parse_chars pend
    (String backslash (String "u" (String h1 (String h2 (String h3 (String h4 X))))))
  = match hex4 h1 h2 h3 h4 with
    | Some u =>
        if is_high u then prepend (flush pend) (parse_chars (Some u) X)
        else if is_low u then
          match pend with
          | Some h => prepend (utf8 (pair_point h u)) (parse_chars None X)
          | None => prepend (utf8 u) (parse_chars None X)
          end
        else prepend (flush pend +:+ utf8 u) (parse_chars None X)
    | None => None
    end.
Proof. reflexivity. Qed.

(** Reading the escape of a code unit. *)
Lemma parse_chars_unicode_escape pend u X :
  hex4 (hex_char (u / 4096)) (hex_char ((u / 256) mod 16))
       (hex_char ((u / 16) mod 16)) (hex_char (u mod 16)) = Some u ->
  parse_chars pend (unicode_escape u +:+ X)
  = if is_high u then prepend (flush pend) (parse_chars (Some u) X)
    else if is_low u then
      match pend with
      | Some h => prepend (utf8 (pair_point h u)) (parse_chars None X)
      | None => prepend (utf8 u) (parse_chars None X)
      end
    else prepend (flush pend +:+ utf8 u) (parse_chars None X).
Proof.
  intros Hhex.
  change (unicode_escape u +:+ X)
    with (String backslash
            (String "u"
               (String (hex_char (u / 4096))
                  (String (hex_char ((u / 256) mod 16))
                     (String (hex_char ((u / 16) mod 16))
                        (String (hex_char (u mod 16)) X)))))).
  rewrite parse_chars_u, Hhex. reflexivity.
Qed.

Lemma parse_chars_escape_from n : forall s pend rest,
  (String.length s <= n)%nat ->
  pend = None \/ starts_low s = false ->
  parse_chars pend (escape s +:+ String dquote rest) = Some (flush pend +:+ s, rest).
Proof.
  induction n as [|n IH]; intros s pend rest Hlen Hpend.
  { destruct s; [|simpl in Hlen; lia]. simpl. rewrite append_nil_r. reflexivity. }
  destruct s as [|a r].
  { simpl. rewrite append_nil_r. reflexivity. }
  assert (Hplain : escape (String a r) = escape_char a +:+ escape r ->
            parse_chars pend (escape (String a r) +:+ String dquote rest)
            = Some (flush pend +:+ String a r, rest)).
  { intros ->. rewrite append_assoc, parse_chars_escape_char.
    rewrite (IH r None rest) by (simpl in Hlen; auto; lia).
    rewrite prepend_Some_app, append_assoc. reflexivity. }
  destruct r as [|b [|c r3]]; [apply Hplain; reflexivity..|].
  destruct (surrogate a b c) as [u|] eqn:Hs;
    [|apply Hplain; cbn [escape]; rewrite Hs; reflexivity].
  clear Hplain.
  destruct (surrogate_facts a b c u Hs) as (Hhex & Hutf & Hlow & Ha & Hb & Hc & _).
  assert (Hlone : escape (String a (String b (String c r3)))
                  = unicode_escape u +:+ escape r3 ->
                  is_high u = false \/ starts_low r3 = false ->
            parse_chars pend (escape (String a (String b (String c r3)))
                              +:+ String dquote rest)
            = Some (flush pend +:+ String a (String b (String c r3)), rest)).
  { intros -> Hnext. rewrite append_assoc, (parse_chars_unicode_escape _ _ _ Hhex).
    destruct (is_high u) eqn:Hh.
    - destruct Hnext as [?|Hnext]; [discriminate|].
      rewrite (IH r3 (Some u) rest) by (simpl in Hlen; auto; lia).
      rewrite prepend_Some_app. cbn [flush]. rewrite Hutf. reflexivity.
    - rewrite Hlow. cbn [negb].
      destruct Hpend as [->|Hpend].
      + rewrite (IH r3 None rest) by (simpl in Hlen; auto; lia).
        rewrite prepend_Some_app, Hutf. reflexivity.
      + exfalso. cbn [starts_low] in Hpend. rewrite Hs, Hlow in Hpend. discriminate. }
  destruct (is_high u) eqn:Hh;
    [|apply Hlone; [cbn [escape]; rewrite Hs, Hh; reflexivity|auto]].
  destruct r3 as [|a' [|b' [|c' r6]]];
    try (apply Hlone; [cbn [escape]; rewrite Hs, Hh; reflexivity|right; reflexivity]).
  destruct (surrogate a' b' c') as [v|] eqn:Hs';
    [|apply Hlone; [cbn [escape]; rewrite Hs, Hh, Hs'; reflexivity
                   |right; cbn [starts_low]; rewrite Hs'; reflexivity]].
  destruct (is_low v) eqn:Hl;
    [|apply Hlone; [cbn [escape]; rewrite Hs, Hh, Hs', Hl; reflexivity
                   |right; cbn [starts_low]; rewrite Hs', Hl; reflexivity]].
  clear Hlone.
  destruct (surrogate_facts a' b' c' v Hs') as (_ & _ & _ & Ha' & Hb' & Hc' & _).
  cbn [escape]. rewrite Hs, Hh, Hs', Hl.
  change (String a (String b (String c (String a' (String b' (String c' (escape r6)))))))
    with (str1 a +:+ str1 b +:+ str1 c +:+ str1 a' +:+ str1 b' +:+ str1 c' +:+ escape r6).
  rewrite <- Ha, <- Hb, <- Hc, <- Ha', <- Hb', <- Hc'.
  rewrite !append_assoc, !parse_chars_escape_char.
  rewrite (IH r6 None rest) by (simpl in Hlen; auto; lia).
  rewrite !prepend_Some_app. cbn [flush]. rewrite !append_assoc. reflexivity.
Qed.

Lemma parse_chars_escape s rest :
  parse_chars None (escape s +:+ String dquote rest) = Some (s, rest).
Proof. apply (parse_chars_escape_from (String.length s)); auto. Qed.

Lemma parse_quote fuel s rest :
  parse_value (S fuel) (quote s +:+ rest) = Some (JStr s, rest).
Proof.
  unfold quote. simpl. rewrite append_assoc. simpl.
  rewrite parse_chars_escape. reflexivity.
Qed.

(** Digits *)
Lemma lex_uint_no_digit rest : not_digit_head rest -> lex_uint rest = (Decimal.Nil, rest).
Proof. destruct rest; simpl; [reflexivity|]. intros ->. reflexivity. Qed.

Lemma lex_uint_print d rest :
  not_digit_head rest ->
  lex_uint (NilEmpty.string_of_uint d +:+ rest) = (d, rest).
Proof.
  intros Hr. induction d; simpl; rewrite ?IHd; auto using lex_uint_no_digit.
Qed.

Lemma nzhead_not_D0 d u : Decimal.nzhead d <> Decimal.D0 u.
Proof. induction d; simpl; auto; discriminate. Qed.

Lemma no_leading_zero_unorm d : no_leading_zero (Decimal.unorm d) = true.
Proof.
  unfold Decimal.unorm.
  destruct (Decimal.nzhead d) eqn:E; try reflexivity.
  exfalso. eapply nzhead_not_D0; eauto.
Qed.

Lemma to_uint_unorm p : Decimal.unorm (Pos.to_uint p) = Pos.to_uint p.
Proof.
  rewrite <- (DecimalN.Unsigned.to_of (Pos.to_uint p)).
  rewrite DecimalPos.Unsigned.of_to. reflexivity.
Qed.

Lemma no_leading_zero_pos p : no_leading_zero (Pos.to_uint p) = true.
Proof. rewrite <- to_uint_unorm. apply no_leading_zero_unorm. Qed.

Lemma delimited_not_digit rest : delimited rest -> not_digit_head rest.
Proof. destruct rest; simpl; auto. intros [->|[->| ->]]; reflexivity. Qed.

Lemma string_of_uint_nonnil d :
  d <> Decimal.Nil -> NilZero.string_of_uint d = NilEmpty.string_of_uint d.
Proof. intros Hd. destruct d; [congruence|reflexivity..]. Qed.

Lemma of_uint_pos p : Z.of_uint (Pos.to_uint p) = Z.pos p.
Proof. unfold Z.of_uint. rewrite DecimalPos.Unsigned.of_to. reflexivity. Qed.

Lemma parse_tail_delimited rest :
  delimited rest ->
  parse_fraction rest = Some (Decimal.Nil, rest) /\ parse_exponent rest = Some (0, rest).
Proof.
  destruct rest as [|c r]; simpl; [auto|].
  intros [->|[->| ->]]; auto.
Qed.

Lemma parse_unsigned p rest :
  delimited rest ->
  lex_uint (NilZero.string_of_uint (Pos.to_uint p) +:+ rest) = (Pos.to_uint p, rest).
Proof.
  intros Hr. rewrite string_of_uint_nonnil by apply DecimalPos.Unsigned.to_uint_nonnil.
  apply lex_uint_print, delimited_not_digit, Hr.
Qed.

Lemma uint_head d :
  d <> Decimal.Nil ->
  exists c r, NilEmpty.string_of_uint d = String c r /\ digit c <> None.
Proof. destruct d; [congruence|..]; intros _; simpl; eexists _, _; split; try reflexivity; discriminate. Qed.

Lemma parse_number_decimal z rest :
  delimited rest ->
  parse_number (decimal z +:+ rest) = Some (JNum z 0, rest).
Proof.
  intros Hr. destruct (parse_tail_delimited rest Hr) as [Hf He].
  unfold decimal. destruct z as [|p|p]; simpl Z.to_int; unfold NilZero.string_of_int.
  - simpl. unfold parse_number. simpl.
    rewrite (lex_uint_no_digit rest) by (apply delimited_not_digit, Hr).
    simpl. rewrite Hf, He. reflexivity.
  - unfold parse_number.
    destruct (uint_head (Pos.to_uint p) (DecimalPos.Unsigned.to_uint_nonnil p)) as (c & r & Hc & Hd).
    pose proof (parse_unsigned p rest Hr) as Hl.
    rewrite string_of_uint_nonnil in * by apply DecimalPos.Unsigned.to_uint_nonnil.
    assert (Hm : starts "-" (NilEmpty.string_of_uint (Pos.to_uint p) +:+ rest) = None).
    { rewrite Hc. simpl. each_ascii c; try reflexivity. exfalso. apply Hd. reflexivity. }
    rewrite Hm, Hl, no_leading_zero_pos, Hf, He.
    rewrite DecimalFacts.app_nil_r, of_uint_pos. reflexivity.
  - unfold parse_number. simpl.
    rewrite parse_unsigned by assumption.
    rewrite no_leading_zero_pos, Hf, He.
    rewrite DecimalFacts.app_nil_r, of_uint_pos. reflexivity.
Qed.

Lemma decimal_head z : exists c r, decimal z = String c r /\ number_head c = true.
Proof.
  unfold decimal. destruct z as [|p|p]; simpl.
  - eexists _, _; split; reflexivity.
  - rewrite string_of_uint_nonnil by apply DecimalPos.Unsigned.to_uint_nonnil.
    destruct (uint_head (Pos.to_uint p) (DecimalPos.Unsigned.to_uint_nonnil p)) as (c & r & -> & Hd).
    exists c, r. split; [reflexivity|]. unfold number_head. destruct (digit c); congruence.
  - eexists _, _; split; reflexivity.
Qed.

Lemma stringify_head d : exists c r, stringify d = String c r /\ value_head c = true.
Proof.
  destruct d; simpl; try (eexists _, _; split; reflexivity).
  destruct (decimal_head z) as (c & r & -> & Hc).
  exists c, r. split; [reflexivity|].
  unfold number_head in Hc. unfold value_head. destruct (digit c); [reflexivity|].
  rewrite Hc. reflexivity.
Qed.

Lemma skip_ws_head c r : value_head c = true -> skip_ws (String c r) = String c r.
Proof. each_ascii c; try discriminate; reflexivity. Qed.

Lemma skip_ws_stringify d rest : skip_ws (stringify d +:+ rest) = stringify d +:+ rest.
Proof.
  destruct (stringify_head d) as (c & r & -> & Hc). simpl. apply (skip_ws_head c _ Hc).
Qed.

Lemma parse_value_number fuel c r :
  number_head c = true -> parse_value (S fuel) (String c r) = parse_number (String c r).
Proof. each_ascii c; try discriminate; reflexivity. Qed.

Lemma parse_int fuel z rest :
  delimited rest -> parse_value (S fuel) (decimal z +:+ rest) = Some (JNum z 0, rest).
Proof.
  intros Hr. rewrite <- (parse_number_decimal z rest Hr).
  destruct (decimal_head z) as (c & r & -> & Hc). simpl.
  apply parse_value_number, Hc.
Qed.

(** What a value in an array or an object is followed by. *)
Lemma array_open fuel c r :
  value_head c = true ->
  parse_value (S fuel) (String "[" (String c r)) =
  match parse_elements fuel (String c r) with
  | Some (vs, r') => Some (JArr vs, r')
  | None => None
  end.
Proof. each_ascii c; try discriminate; reflexivity. Qed.

Lemma stringify_length_pos d : (1 <= String.length (stringify d))%nat.
Proof. destruct (stringify_head d) as (c & r & -> & _). simpl. lia. Qed.

Lemma parse_elements_S fuel s :
  parse_elements (S fuel) s =
  match parse_value fuel s with
  | Some (v, r) =>
      match starts "," (skip_ws r) with
      | Some r1 =>
          match parse_elements fuel (skip_ws r1) with
          | Some (vs, r') => Some (v :: vs, r')
          | None => None
          end
      | None =>
          match starts "]" (skip_ws r) with
          | Some r1 => Some ([v], r1)
          | None => None
          end
      end
  | None => None
  end.
Proof. reflexivity. Qed.

Lemma skip_ws_join items rest :
  items <> [] ->
  skip_ws (join "," (map stringify items) +:+ rest)
  = join "," (map stringify items) +:+ rest.
Proof.
  destruct items as [|x [|y items]]; [congruence|..]; intros _; simpl join;
    rewrite ?append_assoc; apply skip_ws_stringify.
Qed.

Lemma parse_elements_join items :
  items <> [] -> Forall roundtrips items ->
  forall fuel rest,
    (String.length (join "," (map stringify items)) + 1 <= fuel)%nat ->
    parse_elements fuel (join "," (map stringify items) +:+ String "]" rest)
    = Some (map embed items, rest).
Proof.
  induction items as [|x items IH]; [congruence|]. intros _ Hall fuel rest Hfuel.
  inversion Hall as [|? ? Hx Hrest]; subst.
  destruct fuel as [|fuel]; [lia|].
  rewrite parse_elements_S.
  destruct items as [|y items].
  - simpl in *. rewrite Hx; [|lia|simpl; auto]. reflexivity.
  - change (join "," (map stringify (x :: y :: items)))
      with (stringify x +:+ "," +:+ join "," (map stringify (y :: items))) in *.
    pose proof (skip_ws_join (y :: items) (String "]" rest)) as Hs.
    specialize (IH ltac:(congruence) Hrest fuel rest).
    remember (join "," (map stringify (y :: items))) as J.
    rewrite !length_append in Hfuel. simpl String.length in Hfuel.
    rewrite !append_assoc.
    rewrite Hx; [|lia|simpl; auto].
    simpl. rewrite Hs by congruence. rewrite IH by lia. reflexivity.
Qed.

Lemma stringify_obj fields :
  stringify (DObj fields) = "{" +:+ join "," (map member_text fields) +:+ "}".
Proof. reflexivity. Qed.

Lemma join_head items :
  items <> [] ->
  exists c r, join "," (map stringify items) = String c r /\ value_head c = true.
Proof.
  destruct items as [|x [|y items]]; [congruence|..]; intros _; simpl join;
    destruct (stringify_head x) as (c & r & -> & Hc); simpl; eauto.
Qed.

Lemma members_head fields :
  fields <> [] ->
  exists r, join "," (map member_text fields) = String dquote r.
Proof.
  destruct fields as [|x [|y fields]]; [congruence|..]; intros _; simpl join;
    unfold member_text, quote; simpl; eauto.
Qed.

Lemma object_open fuel r :
  parse_value (S fuel) (String "{" (String dquote r)) =
  match parse_members fuel (String dquote r) with
  | Some (ms, r') => Some (JObj ms, r')
  | None => None
  end.
Proof. reflexivity. Qed.

Lemma parse_members_step fuel k X :
  parse_members (S fuel) (quote k +:+ String ":" X) =
  match parse_value fuel (skip_ws X) with
  | Some (v, r2) =>
      match starts "," (skip_ws r2) with
      | Some r3 =>
          match parse_members fuel (skip_ws r3) with
          | Some (ms, r') => Some ((k, v) :: ms, r')
          | None => None
          end
      | None =>
          match starts "}" (skip_ws r2) with
          | Some r3 => Some ([(k, v)], r3)
          | None => None
          end
      end
  | None => None
  end.
Proof.
  unfold quote. simpl. rewrite append_assoc. simpl.
  rewrite parse_chars_escape. reflexivity.
Qed.

Lemma skip_ws_members fields rest :
  fields <> [] ->
  skip_ws (join "," (map member_text fields) +:+ rest)
  = join "," (map member_text fields) +:+ rest.
Proof.
  intros Hf. destruct (members_head fields Hf) as (r & ->). reflexivity.
Qed.

Lemma member_text_length kv :
  (String.length (stringify (snd kv)) + 3 <= String.length (member_text kv))%nat.
Proof.
  unfold member_text, quote. simpl. rewrite !length_append. simpl. lia.
Qed.

Lemma parse_member_first fuel k v X :
  roundtrips v -> (String.length (stringify v) <= fuel)%nat -> delimited X ->
  parse_members (S fuel) (member_text (k, v) +:+ X) =
  match starts "," (skip_ws X) with
  | Some r3 =>
      match parse_members fuel (skip_ws r3) with
      | Some (ms, r') => Some ((k, embed v) :: ms, r')
      | None => None
      end
  | None =>
      match starts "}" (skip_ws X) with
      | Some r3 => Some ([(k, embed v)], r3)
      | None => None
      end
  end.
Proof.
  intros Hv Hfuel HX. unfold member_text. simpl fst. simpl snd.
  rewrite !append_assoc.
  change (":" +:+ stringify v +:+ X) with (String ":" (stringify v +:+ X)).
  rewrite parse_members_step, skip_ws_stringify, Hv by assumption.
  reflexivity.
Qed.

Lemma parse_members_join fields :
  fields <> [] -> Forall (fun kv => roundtrips (snd kv)) fields ->
  forall fuel rest,
    (String.length (join "," (map member_text fields)) + 1 <= fuel)%nat ->
    parse_members fuel (join "," (map member_text fields) +:+ String "}" rest)
    = Some (map (fun kv => (fst kv, embed (snd kv))) fields, rest).
Proof.
  induction fields as [|[k v] fields IH]; [congruence|]. intros _ Hall fuel rest Hfuel.
  inversion Hall as [|? ? Hx Hrest]; subst. simpl in Hx.
  destruct fuel as [|fuel]; [lia|].
  pose proof (member_text_length (k, v)) as Hlen. simpl snd in Hlen.
  destruct fields as [|y fields].
  - change (join "," (map member_text [(k, v)])) with (member_text (k, v)) in *.
    rewrite parse_member_first; [reflexivity|assumption| |simpl; auto]. lia.
  - change (join "," (map member_text ((k, v) :: y :: fields)))
      with (member_text (k, v) +:+ "," +:+ join "," (map member_text (y :: fields))) in *.
    pose proof (skip_ws_members (y :: fields) (String "}" rest)) as Hs.
    specialize (IH ltac:(congruence) Hrest fuel rest).
    remember (join "," (map member_text (y :: fields))) as J.
    rewrite !length_append in Hfuel. change (String.length ",") with 1%nat in Hfuel.
    rewrite !append_assoc.
    rewrite parse_member_first; [|assumption|lia|simpl; auto].
    simpl. rewrite Hs by congruence. rewrite IH by lia. reflexivity.
Qed.

Lemma join_length_map {A} (f : A -> string) (l : list A) x :
  In x l -> (String.length (f x) <= String.length (join "," (map f l)))%nat.
Proof.
  induction l as [|y l IH]; [intros []|].
  intros [->|Hin].
  - destruct l; simpl; rewrite ?length_append; lia.
  - specialize (IH Hin). destruct l as [|z l]; [destruct Hin|].
    change (join "," (map f (y :: z :: l))) with (f y +:+ "," +:+ join "," (map f (z :: l))).
    rewrite !length_append. lia.
Qed.

Lemma app_cons c r X : String c r +:+ X = String c (r +:+ X).
Proof. reflexivity. Qed.

Lemma stringify_arr_app items rest :
  stringify (DArr items) +:+ rest
  = String "[" (join "," (map stringify items) +:+ String "]" rest).
Proof. simpl. rewrite append_assoc. reflexivity. Qed.

Lemma stringify_arr_length items :
  String.length (stringify (DArr items))
  = S (S (String.length (join "," (map stringify items)))).
Proof. simpl. rewrite length_append. simpl. lia. Qed.

Lemma stringify_obj_app fields rest :
  stringify (DObj fields) +:+ rest
  = String "{" (join "," (map member_text fields) +:+ String "}" rest).
Proof. rewrite stringify_obj. simpl. rewrite append_assoc. reflexivity. Qed.

Lemma stringify_obj_length fields :
  String.length (stringify (DObj fields))
  = S (S (String.length (join "," (map member_text fields)))).
Proof. rewrite stringify_obj. simpl. rewrite length_append. simpl. lia. Qed.

Theorem parse_stringify d : roundtrips d.
Proof.
  induction d as [|z|s|items IH|fields IH] using Data_nested_ind; intros fuel rest Hfuel Hrest.
  - simpl in Hfuel. do 4 (destruct fuel as [|fuel]; [lia|]). reflexivity.
  - pose proof (stringify_length_pos (DInt z)).
    destruct fuel as [|fuel]; [lia|]. apply parse_int, Hrest.
  - pose proof (stringify_length_pos (DStr s)).
    destruct fuel as [|fuel]; [lia|]. apply parse_quote.
  - destruct fuel as [|fuel]; [pose proof (stringify_length_pos (DArr items)); lia|].
    destruct (decide (items = [])) as [->|Hne]; [reflexivity|].
    rewrite stringify_arr_length in Hfuel. rewrite stringify_arr_app.
    pose proof (parse_elements_join items Hne IH fuel rest ltac:(lia)) as Hp.
    destruct (join_head items Hne) as (c & r & Hj & Hc).
    rewrite Hj in *. rewrite app_cons in *.
    rewrite (array_open fuel c _ Hc), Hp. reflexivity.
  - destruct fuel as [|fuel]; [pose proof (stringify_length_pos (DObj fields)); lia|].
    destruct (decide (fields = [])) as [->|Hne]; [reflexivity|].
    rewrite stringify_obj_length in Hfuel. rewrite stringify_obj_app.
    pose proof (parse_members_join fields Hne IH fuel rest ltac:(lia)) as Hp.
    destruct (members_head fields Hne) as (r & Hj).
    rewrite Hj in *. rewrite app_cons in *.
    rewrite object_open, Hp. reflexivity.
Qed.

Theorem JSON_parse_stringify d : JSON_parse (stringify d) = Some (embed d).
Proof.
  unfold JSON_parse.
  pose proof (parse_stringify d (2 * String.length (stringify d) + 2)%nat ""
                ltac:(lia) I) as Hp.
  pose proof (skip_ws_stringify d "") as Hs.
  rewrite append_nil_r in Hp, Hs. rewrite Hs, Hp. reflexivity.
Qed.

Lemma has_char_app c a b : has_char c (a +:+ b) = has_char c a || has_char c b.
Proof. induction a; simpl; [reflexivity|]. rewrite IHa, orb_assoc. reflexivity. Qed.

Lemma split_nonempty c s : split c s <> [].
Proof. destruct s as [|a r]; simpl; [discriminate|]. destruct (Ascii.eqb a c); [discriminate|]. destruct (split c r); discriminate. Qed.

Lemma split_free c s : has_char c s = false -> split c s = [s].
Proof.
  induction s as [|a r IH]; simpl; [reflexivity|].
  intros [Ha Hr]%orb_false_elim. rewrite Ha, IH by assumption. reflexivity.
Qed.

Lemma split_app c a b : split c (a +:+ String c b) = split c a ++ split c b.
Proof.
  induction a as [|x a IH]; simpl.
  - rewrite Ascii.eqb_refl. reflexivity.
  - destruct (Ascii.eqb x c); rewrite IH; [reflexivity|].
    pose proof (split_nonempty c a). destruct (split c a); [congruence|reflexivity].
Qed.

Lemma escape_char_no_LF c : has_char LF (escape_char c) = false.
Proof. each_ascii c; reflexivity. Qed.

Lemma escape_no_LF_from n : forall s,
  (String.length s <= n)%nat -> has_char LF (escape s) = false.
Proof.
  induction n as [|n IH]; intros s Hlen.
  { destruct s; [reflexivity|simpl in Hlen; lia]. }
  destruct s as [|a r]; [reflexivity|].
  assert (Hplain : escape (String a r) = escape_char a +:+ escape r ->
                   has_char LF (escape (String a r)) = false).
  { intros ->. rewrite has_char_app, escape_char_no_LF, IH; [reflexivity|].
    simpl in Hlen. lia. }
  destruct r as [|b [|c r3]]; [apply Hplain; reflexivity..|].
  destruct (surrogate a b c) as [u|] eqn:Hs;
    [|apply Hplain; cbn [escape]; rewrite Hs; reflexivity].
  clear Hplain.
  destruct (surrogate_facts a b c u Hs) as (_ & _ & _ & Ha & Hb & Hc & Hu).
  assert (Hlone : escape (String a (String b (String c r3)))
                  = unicode_escape u +:+ escape r3 ->
                  has_char LF (escape (String a (String b (String c r3)))) = false).
  { intros ->. rewrite has_char_app, Hu, IH; [reflexivity|]. simpl in Hlen. lia. }
  destruct (is_high u) eqn:Hh;
    [|apply Hlone; cbn [escape]; rewrite Hs, Hh; reflexivity].
  destruct r3 as [|a' [|b' [|c' r6]]];
    try (apply Hlone; cbn [escape]; rewrite Hs, Hh; reflexivity).
  destruct (surrogate a' b' c') as [v|] eqn:Hs';
    [|apply Hlone; cbn [escape]; rewrite Hs, Hh, Hs'; reflexivity].
  destruct (is_low v) eqn:Hl;
    [|apply Hlone; cbn [escape]; rewrite Hs, Hh, Hs', Hl; reflexivity].
  destruct (surrogate_facts a' b' c' v Hs') as (_ & _ & _ & Ha' & Hb' & Hc' & _).
  cbn [escape]. rewrite Hs, Hh, Hs', Hl.
  change (String a (String b (String c (String a' (String b' (String c' (escape r6)))))))
    with (str1 a +:+ str1 b +:+ str1 c +:+ str1 a' +:+ str1 b' +:+ str1 c' +:+ escape r6).
  rewrite <- Ha, <- Hb, <- Hc, <- Ha', <- Hb', <- Hc'.
  rewrite !has_char_app, !escape_char_no_LF, IH; [reflexivity|].
  simpl in Hlen. lia.
Qed.

Lemma escape_no_LF s : has_char LF (escape s) = false.
Proof. apply (escape_no_LF_from (String.length s)). lia. Qed.

Lemma quote_no_LF s : has_char LF (quote s) = false.
Proof. unfold quote. simpl. rewrite has_char_app, escape_no_LF. reflexivity. Qed.

Lemma uint_no_LF d : has_char LF (NilEmpty.string_of_uint d) = false.
Proof. induction d; simpl; auto. Qed.

Lemma decimal_no_LF z : has_char LF (decimal z) = false.
Proof.
  unfold decimal. destruct z as [|p|p]; simpl; [reflexivity|..];
    rewrite string_of_uint_nonnil by apply DecimalPos.Unsigned.to_uint_nonnil;
    apply uint_no_LF.
Qed.

Lemma join_no_LF parts :
  Forall (fun p => has_char LF p = false) parts -> has_char LF (join "," parts) = false.
Proof.
  induction 1 as [|p parts Hp Hall IH]; [reflexivity|].
  destruct parts; [assumption|].
  change (join "," (p :: s :: parts)) with (p +:+ "," +:+ join "," (s :: parts)).
  rewrite !has_char_app, Hp, IH. reflexivity.
Qed.

Lemma stringify_no_LF d : has_char LF (stringify d) = false.
Proof.
  induction d as [|z|s|items IH|fields IH] using Data_nested_ind.
  - reflexivity.
  - apply decimal_no_LF.
  - apply quote_no_LF.
  - simpl. rewrite has_char_app, join_no_LF; [reflexivity|].
    apply Forall_map. exact IH.
  - rewrite stringify_obj. simpl. rewrite has_char_app, join_no_LF; [reflexivity|].
    apply Forall_map. eapply Forall_impl; [exact IH|].
    intros [k v] Hv. unfold member_text. cbn [fst snd] in *.
    rewrite !has_char_app, quote_no_LF, Hv. reflexivity.
Qed.

(** ** Trimming a serialised object *)
Lemma rev_onto_app s acc : rev_onto s acc = rev s +:+ acc.
Proof.
  unfold rev. revert acc. induction s as [|a s IH]; intros acc; simpl; [reflexivity|].
  rewrite IH, (IH (String a "")), append_assoc. reflexivity.
Qed.

Lemma rev_app a b : rev (a +:+ b) = rev b +:+ rev a.
Proof.
  induction a as [|x a IH]; simpl.
  - rewrite append_nil_r. reflexivity.
  - unfold rev in *. simpl. rewrite (rev_onto_app (a +:+ b)), (rev_onto_app a).
    fold (rev (a +:+ b)). fold (rev a). unfold rev in *. rewrite IH, append_assoc. reflexivity.
Qed.

Lemma rev_involutive s : rev (rev s) = s.
Proof.
  induction s as [|a s IH]; [reflexivity|].
  change (String a s) with (str1 a +:+ s) at 1. rewrite rev_app, rev_app, IH. reflexivity.
Qed.

Lemma trimStart_brace r : trimStart (String "{" r) = String "{" r.
Proof. destruct r as [|b [|c r]]; reflexivity. Qed.

Lemma trimStart_rev_brace r : trimStart_rev (String "}" r) = String "}" r.
Proof.
  destruct r as [|b [|c r]]; try reflexivity.
  - simpl. unfold wide_ws2. simpl. rewrite andb_false_r. reflexivity.
  - simpl. unfold wide_ws2, wide_ws3. simpl. rewrite !andb_false_r. reflexivity.
Qed.

Lemma trim_object fields : trim (stringify (DObj fields)) = stringify (DObj fields).
Proof.
  unfold trim, trimEnd. rewrite stringify_obj.
  set (J := join "," (map member_text fields)).
  change ("{" +:+ J +:+ "}") with (String "{" (J +:+ "}")).
  rewrite trimStart_brace.
  change (String "{" (J +:+ "}")) with (String "{" J +:+ "}").
  rewrite rev_app.
  change (rev "}" +:+ rev (String "{" J)) with (String "}" (rev (String "{" J))).
  rewrite trimStart_rev_brace.
  change (String "}" (rev (String "{" J))) with (rev "}" +:+ rev (String "{" J)).
  rewrite <- rev_app, rev_involutive. reflexivity.
Qed.

End JsonFacts.

(** ** The recursion bound of [JSON_parse] *)

Module FuelFacts.
Import Js Json JsFacts JsonFacts.


Lemma starts_length c s r : starts c s = Some r -> String.length s = S (String.length r).
Proof.
  destruct s as [|a s]; simpl; [discriminate|].
  destruct (Ascii.eqb a c); [|discriminate]. intros [= ->]. reflexivity.
Qed.

Lemma skip_ws_length s : (String.length (skip_ws s) <= String.length s)%nat.
Proof. induction s as [|c s IH]; simpl; [lia|]. destruct (json_ws c); simpl; lia. Qed.

Lemma prepend_Some p o str r :
  prepend p o = Some (str, r) -> exists str', o = Some (str', r).
Proof. destruct o as [[s' r']|]; simpl; [|discriminate]. intros [= _ ->]. eauto. Qed.

Lemma parse_chars_length n : forall s pend str r,
  (String.length s <= n)%nat ->
  parse_chars pend s = Some (str, r) -> (String.length r < String.length s)%nat.
Proof.
  induction n as [|n IH]; intros s pend str r Hn Hp.
  - destruct s; [discriminate|simpl in Hn; lia].
  - destruct s as [|c s]; [discriminate|]. simpl in Hn. simpl in Hp.
    destruct (Ascii.eqb c dquote).
    { injection Hp as _ <-. simpl. lia. }
    destruct (Ascii.eqb c backslash).
    + destruct s as [|e s1]; [discriminate|]. simpl in Hn.
      destruct (Ascii.eqb e "u").
      * destruct s1 as [|h1 [|h2 [|h3 [|h4 r2]]]]; try discriminate.
        simpl in Hn. destruct (hex4 h1 h2 h3 h4) as [u|]; [|discriminate].
        assert (Hrec : forall pend' p, prepend p (parse_chars pend' r2) = Some (str, r) ->
                 (String.length r < String.length r2)%nat).
        { intros pend' p Hpre. apply prepend_Some in Hpre as (str' & Hpre).
          eapply IH; [|exact Hpre]. lia. }
        simpl. destruct (is_high u); [specialize (Hrec _ _ Hp); lia|].
        destruct (is_low u); [destruct pend|]; specialize (Hrec _ _ Hp); lia.
      * destruct (simple_escape e); [|discriminate].
        apply prepend_Some in Hp as (str' & Hp).
        eapply IH in Hp; [|lia]. simpl. lia.
    + destruct (N_of_ascii c <? 32)%N; [discriminate|].
      apply prepend_Some in Hp as (str' & Hp).
      eapply IH in Hp; [|lia]. simpl. lia.
Qed.

Lemma lex_uint_length s : forall d r,
  lex_uint s = (d, r) ->
  (String.length r <= String.length s)%nat
  /\ (d <> Decimal.Nil -> (String.length r < String.length s)%nat).
Proof.
  induction s as [|c s IH]; intros d r; simpl.
  - intros [= <- <-]. simpl. split; [lia|congruence].
  - destruct (digit c) as [k|] eqn:E.
    + destruct (lex_uint s) as [d' r'] eqn:El. intros [= <- <-].
      destruct (IH _ _ eq_refl) as [Hle _]. simpl. split; lia.
    + intros [= <- <-]. simpl. split; [lia|congruence].
Qed.

Lemma nonempty_not_Nil d : nonempty d = true -> d <> Decimal.Nil.
Proof. destruct d; simpl; congruence. Qed.

Lemma no_leading_zero_not_Nil d : no_leading_zero d = true -> d <> Decimal.Nil.
Proof. destruct d; simpl; congruence. Qed.

Lemma parse_fraction_length s f r :
  parse_fraction s = Some (f, r) -> (String.length r <= String.length s)%nat.
Proof.
  unfold parse_fraction. destruct (starts "." s) as [r0|] eqn:E.
  - apply starts_length in E. destruct (lex_uint r0) as [f' r'] eqn:El.
    destruct (nonempty f'); [|discriminate]. intros [= <- <-].
    destruct (lex_uint_length _ _ _ El). lia.
  - intros [= <- <-]. lia.
Qed.

Lemma exponent_digits_length neg r0 x r :
  exponent_digits neg r0 = Some (x, r) -> (String.length r <= String.length r0)%nat.
Proof.
  unfold exponent_digits. destruct (lex_uint r0) as [x0 r'] eqn:El.
  destruct (nonempty x0); [|discriminate]. intros [= _ <-].
  destruct (lex_uint_length _ _ _ El). lia.
Qed.

Lemma parse_exponent_length s x r :
  parse_exponent s = Some (x, r) -> (String.length r <= String.length s)%nat.
Proof.
  unfold parse_exponent.
  destruct (match starts "e" s with Some r0 => Some r0 | None => starts "E" s end)
    as [r0|] eqn:E.
  - assert (Hs : String.length s = S (String.length r0)).
    { destruct (starts "e" s) eqn:E1; [injection E as <-|]; eapply starts_length; eauto. }
    destruct (starts "+" r0) as [r1|] eqn:Ep.
    { apply starts_length in Ep. intros Hx. apply exponent_digits_length in Hx. lia. }
    destruct (starts "-" r0) as [r1|] eqn:Em.
    { apply starts_length in Em. intros Hx. apply exponent_digits_length in Hx. lia. }
    intros Hx. apply exponent_digits_length in Hx. lia.
  - intros [= _ <-]. lia.
Qed.

Lemma parse_number_length s v r :
  parse_number s = Some (v, r) -> (String.length r < String.length s)%nat.
Proof.
  unfold parse_number.
  destruct (starts "-" s) as [r0|] eqn:E.
  - apply starts_length in E. destruct (lex_uint r0) as [d s2] eqn:El.
    destruct (no_leading_zero d) eqn:Hz; [|discriminate].
    destruct (parse_fraction s2) as [[f s3]|] eqn:Ef; [|discriminate].
    destruct (parse_exponent s3) as [[x s4]|] eqn:Ee; [|discriminate].
    intros [= _ <-]. apply parse_fraction_length in Ef.
    apply parse_exponent_length in Ee. destruct (lex_uint_length _ _ _ El). lia.
  - destruct (lex_uint s) as [d s2] eqn:El.
    destruct (no_leading_zero d) eqn:Hz; [|discriminate].
    destruct (parse_fraction s2) as [[f s3]|] eqn:Ef; [|discriminate].
    destruct (parse_exponent s3) as [[x s4]|] eqn:Ee; [|discriminate].
    intros [= _ <-]. apply parse_fraction_length in Ef.
    apply parse_exponent_length in Ee.
    destruct (lex_uint_length _ _ _ El) as [_ Hlt].
    specialize (Hlt (no_leading_zero_not_Nil _ Hz)). lia.
Qed.

Lemma expect_length w : forall s r,
  expect w s = Some r -> (String.length r <= String.length s)%nat.
Proof.
  induction w as [|a w IH]; intros s r; simpl.
  - intros [= <-]. lia.
  - destruct s as [|b s]; [discriminate|].
    destruct (Ascii.eqb a b); [|discriminate]. intros Hr. apply IH in Hr. simpl. lia.
Qed.

Lemma literal_length w v s v' r :
  literal w v s = Some (v', r) -> (String.length r <= String.length s)%nat.
Proof.
  unfold literal. destruct (expect w s) eqn:E; [|discriminate].
  intros [= _ <-]. eapply expect_length, E.
Qed.

Lemma parse_value_S fuel s :
  parse_value (S fuel) s =
  match s with
  | String c r =>
      if Ascii.eqb c "n" then literal "ull" JNull r
      else if Ascii.eqb c "t" then literal "rue" (JBool true) r
      else if Ascii.eqb c "f" then literal "alse" (JBool false) r
      else if Ascii.eqb c dquote then
        match parse_chars None r with
        | Some (str, r') => Some (JStr str, r')
        | None => None
        end
      else if Ascii.eqb c "[" then
        match starts "]" (skip_ws r) with
        | Some r' => Some (JArr [], r')
        | None =>
            match parse_elements fuel (skip_ws r) with
            | Some (vs, r') => Some (JArr vs, r')
            | None => None
            end
        end
      else if Ascii.eqb c "{" then
        match starts "}" (skip_ws r) with
        | Some r' => Some (JObj [], r')
        | None =>
            match parse_members fuel (skip_ws r) with
            | Some (ms, r') => Some (JObj ms, r')
            | None => None
            end
        end
      else parse_number s
  | "" => None
  end.
Proof. reflexivity. Qed.

Lemma parse_members_S fuel s :
  parse_members (S fuel) s =
  match starts dquote s with
  | Some r =>
      match parse_chars None r with
      | Some (k, r0) =>
          match starts ":" (skip_ws r0) with
          | Some r1 =>
              match parse_value fuel (skip_ws r1) with
              | Some (v, r2) =>
                  match starts "," (skip_ws r2) with
                  | Some r3 =>
                      match parse_members fuel (skip_ws r3) with
                      | Some (ms, r') => Some ((k, v) :: ms, r')
                      | None => None
                      end
                  | None =>
                      match starts "}" (skip_ws r2) with
                      | Some r3 => Some ([(k, v)], r3)
                      | None => None
                      end
                  end
              | None => None
              end
          | None => None
          end
      | None => None
      end
  | None => None
  end.
Proof. reflexivity. Qed.

(** A successful parse consumes at least one character. *)
Lemma parsers_consume fuel :
  consumes (parse_value fuel) /\ consumes (parse_elements fuel)
  /\ consumes (parse_members fuel).
Proof.
  induction fuel as [|fuel (IHv & IHe & IHm)]; [repeat split; intros ? ? ?; discriminate|].
  split; [|split].
  - intros s v r. rewrite parse_value_S.
    destruct s as [|c s]; [discriminate|]. simpl String.length.
    pose proof (skip_ws_length s) as Hws.
    destruct (Ascii.eqb c "n"); [intros Hl; apply literal_length in Hl; lia|].
    destruct (Ascii.eqb c "t"); [intros Hl; apply literal_length in Hl; lia|].
    destruct (Ascii.eqb c "f"); [intros Hl; apply literal_length in Hl; lia|].
    destruct (Ascii.eqb c dquote).
    { destruct (parse_chars None s) as [[str r']|] eqn:E; [|discriminate].
      intros [= _ <-]. apply (parse_chars_length _ _ _ _ _ (le_n _)) in E. lia. }
    destruct (Ascii.eqb c "[").
    { destruct (starts "]" (skip_ws s)) as [r'|] eqn:E.
      - apply starts_length in E. intros [= _ <-]. lia.
      - destruct (parse_elements fuel (skip_ws s)) as [[vs r']|] eqn:El; [|discriminate].
        intros [= _ <-]. apply IHe in El. lia. }
    destruct (Ascii.eqb c "{").
    { destruct (starts "}" (skip_ws s)) as [r'|] eqn:E.
      - apply starts_length in E. intros [= _ <-]. lia.
      - destruct (parse_members fuel (skip_ws s)) as [[ms r']|] eqn:El; [|discriminate].
        intros [= _ <-]. apply IHm in El. lia. }
    intros Hn. apply parse_number_length in Hn. simpl in Hn. lia.
  - intros s vs r. rewrite parse_elements_S.
    destruct (parse_value fuel s) as [[v r1]|] eqn:Ev; [|discriminate].
    apply IHv in Ev. pose proof (skip_ws_length r1) as Hws.
    destruct (starts "," (skip_ws r1)) as [r2|] eqn:Ec.
    + apply starts_length in Ec. pose proof (skip_ws_length r2).
      destruct (parse_elements fuel (skip_ws r2)) as [[vs' r']|] eqn:El; [|discriminate].
      intros [= _ <-]. apply IHe in El. lia.
    + destruct (starts "]" (skip_ws r1)) as [r2|] eqn:Eb; [|discriminate].
      apply starts_length in Eb. intros [= _ <-]. lia.
  - intros s ms r. rewrite parse_members_S.
    destruct (starts dquote s) as [r0|] eqn:Eq; [|discriminate].
    apply starts_length in Eq.
    destruct (parse_chars None r0) as [[k r1]|] eqn:Ek; [|discriminate].
    apply (parse_chars_length _ _ _ _ _ (le_n _)) in Ek.
    pose proof (skip_ws_length r1).
    destruct (starts ":" (skip_ws r1)) as [r2|] eqn:Ec; [|discriminate].
    apply starts_length in Ec. pose proof (skip_ws_length r2).
    destruct (parse_value fuel (skip_ws r2)) as [[v r3]|] eqn:Ev; [|discriminate].
    apply IHv in Ev. pose proof (skip_ws_length r3).
    destruct (starts "," (skip_ws r3)) as [r4|] eqn:E4.
    + apply starts_length in E4. pose proof (skip_ws_length r4).
      destruct (parse_members fuel (skip_ws r4)) as [[ms' r']|] eqn:El; [|discriminate].
      intros [= _ <-]. apply IHm in El. lia.
    + destruct (starts "}" (skip_ws r3)) as [r4|] eqn:Eb; [|discriminate].
      apply starts_length in Eb. intros [= _ <-]. lia.
Qed.

(** Fuel in proportion to the text is enough: what some fuel parses, that
    fuel parses too. *)
Lemma enough_fuel fuel :
  (forall s x n, parse_value fuel s = Some x ->
                 (2 * String.length s + 1 <= n)%nat -> parse_value n s = Some x)
  /\ (forall s x n, parse_elements fuel s = Some x ->
                    (2 * String.length s + 2 <= n)%nat -> parse_elements n s = Some x)
  /\ (forall s x n, parse_members fuel s = Some x ->
                    (2 * String.length s + 2 <= n)%nat -> parse_members n s = Some x).
Proof.
  induction fuel as [|fuel (IHv & IHe & IHm)]; [repeat split; intros ? ? ?; discriminate|].
  destruct (parsers_consume fuel) as (Cv & Ce & Cm).
  split; [|split].
  - intros s x n Hp Hn. destruct n as [|n]; [lia|].
    rewrite parse_value_S in Hp. rewrite parse_value_S.
    destruct s as [|c s]; [discriminate|]. simpl String.length in Hn.
    pose proof (skip_ws_length s) as Hws.
    destruct (Ascii.eqb c "n"); [exact Hp|].
    destruct (Ascii.eqb c "t"); [exact Hp|].
    destruct (Ascii.eqb c "f"); [exact Hp|].
    destruct (Ascii.eqb c dquote); [exact Hp|].
    destruct (Ascii.eqb c "[").
    { destruct (starts "]" (skip_ws s)); [exact Hp|].
      destruct (parse_elements fuel (skip_ws s)) as [[vs r']|] eqn:El; [|discriminate].
      rewrite (IHe _ _ n El); [exact Hp|lia]. }
    destruct (Ascii.eqb c "{"); [|exact Hp].
    destruct (starts "}" (skip_ws s)); [exact Hp|].
    destruct (parse_members fuel (skip_ws s)) as [[ms r']|] eqn:El; [|discriminate].
    rewrite (IHm _ _ n El); [exact Hp|lia].
  - intros s x n Hp Hn. destruct n as [|n]; [lia|].
    rewrite parse_elements_S in Hp. rewrite parse_elements_S.
    destruct (parse_value fuel s) as [[v r1]|] eqn:Ev; [|discriminate].
    rewrite (IHv _ _ n Ev); [|lia]. apply Cv in Ev.
    pose proof (skip_ws_length r1) as Hws.
    destruct (starts "," (skip_ws r1)) as [r2|] eqn:Ec; [|exact Hp].
    apply starts_length in Ec. pose proof (skip_ws_length r2).
    destruct (parse_elements fuel (skip_ws r2)) as [[vs' r']|] eqn:El; [|discriminate].
    rewrite (IHe _ _ n El); [exact Hp|lia].
  - intros s x n Hp Hn. destruct n as [|n]; [lia|].
    rewrite parse_members_S in Hp. rewrite parse_members_S.
    destruct (starts dquote s) as [r0|] eqn:Eq; [|discriminate].
    apply starts_length in Eq.
    destruct (parse_chars None r0) as [[k r1]|] eqn:Ek; [|discriminate].
    apply (parse_chars_length _ _ _ _ _ (le_n _)) in Ek.
    pose proof (skip_ws_length r1).
    destruct (starts ":" (skip_ws r1)) as [r2|] eqn:Ec; [|discriminate].
    apply starts_length in Ec. pose proof (skip_ws_length r2).
    destruct (parse_value fuel (skip_ws r2)) as [[v r3]|] eqn:Ev; [|discriminate].
    rewrite (IHv _ _ n Ev); [|lia]. apply Cv in Ev.
    pose proof (skip_ws_length r3).
    destruct (starts "," (skip_ws r3)) as [r4|] eqn:E4; [|exact Hp].
    apply starts_length in E4. pose proof (skip_ws_length r4).
    destruct (parse_members fuel (skip_ws r4)) as [[ms' r']|] eqn:El; [|discriminate].
    rewrite (IHm _ _ n El); [exact Hp|lia].
Qed.

(** [JSON_parse] fails only on a text that no amount of fuel parses: its
    bound on the recursion never cuts a parse short. *)
Lemma JSON_parse_complete fuel s v r :
  parse_value fuel (skip_ws s) = Some (v, r) ->
  skip_ws r = "" ->
  JSON_parse s = Some v.
Proof.
  intros Hp Hr. unfold JSON_parse.
  destruct (enough_fuel fuel) as (Hv & _).
  rewrite (Hv _ _ (2 * String.length s + 2)%nat Hp).
  - rewrite Hr. reflexivity.
  - pose proof (skip_ws_length s). lia.
Qed.

End FuelFacts.

(* ===================================================================== *)
(** * Facts about sorting and the store *)
(* ===================================================================== *)

Module SortFacts.
Import Js Store.

Section Sort.
Context {A : Type} (cmp : A -> A -> Z).
Let le (a b : A) : Prop := cmp a b <= 0.

Lemma insert_sorted_perm x l : Permutation (insert_sorted cmp x l) (x :: l).
Proof.
  induction l as [|y l IH]; simpl; [reflexivity|].
  destruct (cmp x y <=? 0); [reflexivity|].
  rewrite IH. apply perm_swap.
Qed.

Lemma Array_sort_perm l : Permutation (Array_sort cmp l) l.
Proof.
  induction l as [|x l IH]; simpl; [reflexivity|].
  rewrite insert_sorted_perm, IH. reflexivity.
Qed.

Variable P : A -> Prop.
Hypothesis le_total : forall a b, P a -> P b -> le a b \/ le b a.
Hypothesis le_trans : forall a b c, P a -> P b -> P c -> le a b -> le b c -> le a c.

Lemma insert_sorted_sorted x l :
  P x -> Forall P l -> StronglySorted le l ->
  StronglySorted le (insert_sorted cmp x l).
Proof.
  intros Hx Hl Hs. induction Hs as [|y l Hs IH Hy]; simpl.
  - repeat constructor.
  - inversion Hl as [|? ? Py Pl]; subst.
    destruct (cmp x y <=? 0) eqn:E.
    + apply Z.leb_le in E. constructor; [constructor; assumption|].
      constructor; [exact E|].
      rewrite List.Forall_forall in *. intros z Hz.
      apply (le_trans x y z); auto.
    + apply Z.leb_gt in E. constructor; [apply IH, Pl|].
      rewrite List.Forall_forall. intros z Hz.
      apply (Permutation_in _ (insert_sorted_perm x l)) in Hz as [<-|Hz].
      * destruct (le_total x y Hx Py) as [Hle|Hle]; [unfold le in Hle; lia|exact Hle].
      * rewrite List.Forall_forall in Hy. apply Hy, Hz.
Qed.

Lemma Array_sort_sorted l : Forall P l -> StronglySorted le (Array_sort cmp l).
Proof.
  induction 1 as [|x l Hx Hl IH]; simpl; [constructor|].
  apply insert_sorted_sorted; [assumption| |assumption].
  rewrite List.Forall_forall in *. intros z Hz.
  apply Hl. apply (Permutation_in _ (Array_sort_perm l)), Hz.
Qed.

End Sort.

Section Consistent.
Context {A : Type} (cmp : A -> A -> Z) (S : A -> Prop).
Hypothesis Hc : consistent cmp S.

Lemma consistent_flip a b : S a -> S b -> cmp a b > 0 -> cmp b a < 0.
Proof.
  destruct Hc as (Hrefl & Hsym & _ & _ & Hgt). intros Ha Hb Hab.
  destruct (Z.lt_trichotomy (cmp b a) 0) as [Hlt|[Heq|Hpos]]; [exact Hlt| |].
  - apply Hsym in Heq; [lia|assumption..].
  - pose proof (Hgt a b a Ha Hb Ha Hab ltac:(lia)) as Haa.
    rewrite (Hrefl a Ha) in Haa. lia.
Qed.

(** Of two values one does not come after the other. *)
Lemma consistent_total a b : S a -> S b -> cmp a b <= 0 \/ cmp b a <= 0.
Proof.
  intros Ha Hb. destruct (Z_le_gt_dec (cmp a b) 0) as [Hle|Hgt]; [auto|].
  right. pose proof (consistent_flip a b Ha Hb Hgt). lia.
Qed.

Lemma consistent_trans a b c :
  S a -> S b -> S c -> cmp a b <= 0 -> cmp b c <= 0 -> cmp a c <= 0.
Proof.
  intros Ha Hb Hc' Hab Hbc.
  destruct (Z_le_gt_dec (cmp a c) 0) as [Hle|Hac]; [exact Hle|]. exfalso.
  pose proof (consistent_flip a c Ha Hc' Hac) as Hca.
  destruct Hc as (Hrefl & Hsym & Heq & Hlt & Hgt).
  destruct (Z.eq_dec (cmp a b) 0) as [Eab|Nab], (Z.eq_dec (cmp b c) 0) as [Ebc|Nbc].
  - pose proof (Heq a b c Ha Hb Hc' Eab Ebc). lia.
  - pose proof (Hlt b c a Hb Hc' Ha ltac:(lia) Hca) as Hba.
    pose proof (Hsym a b Ha Hb Eab). lia.
  - pose proof (Hlt c a b Hc' Ha Hb Hca ltac:(lia)) as Hcb.
    pose proof (Hsym b c Hb Hc' Ebc). lia.
  - pose proof (Hlt a b c Ha Hb Hc' ltac:(lia) ltac:(lia)). lia.
Qed.

End Consistent.

Lemma in_key_order_perm {A} (rows : list (string * A)) :
  Permutation (in_key_order rows) rows.
Proof.
  unfold in_key_order. induction rows as [|x rows IH]; simpl; [reflexivity|].
  rewrite insert_sorted_perm, IH. reflexivity.
Qed.

Lemma StronglySorted_on {A} (P : A -> Prop) (R R' : A -> A -> Prop) l :
  (forall a b, P a -> P b -> R a b -> R' a b) ->
  Forall P l -> StronglySorted R l -> StronglySorted R' l.
Proof.
  intros Himp Hl Hs. induction Hs as [|x l Hs IH Hx]; [constructor|].
  inversion Hl as [|? ? Px Pl]; subst. constructor; [apply IH, Pl|].
  rewrite List.Forall_forall in *. intros z Hz. apply Himp; auto.
Qed.

Section Captures.
Context `{Api}.

Lemma compareCaptures_rule a b : compareCaptures a b <= 0 <-> ordered_before a b.
Proof.
  unfold compareCaptures, ordered_before, key_of.
  destruct (Capture.sort_index a) as [ka|], (Capture.sort_index b) as [kb|]; simpl;
    try destruct (truthy ka); try destruct (truthy kb); simpl; lia.
Qed.

Lemma compareCaptures_cases a b :
  match key_of a, key_of b with
  | Some ka, Some kb => compareCaptures a b = compareSortIndex (Some ka) (Some kb)
  | Some _, None => compareCaptures a b = -1
  | None, Some _ => compareCaptures a b = 1
  | None, None => compareCaptures a b = Capture.created_at b - Capture.created_at a
  end.
Proof.
  unfold compareCaptures, key_of.
  destruct (Capture.sort_index a) as [ka|], (Capture.sort_index b) as [kb|]; simpl;
    try destruct (truthy ka); try destruct (truthy kb); reflexivity.
Qed.

(** The comparator of [sortCaptures] is consistent on a list of captures
    when [compareSortIndex] is on their sort keys. *)
Lemma compareCaptures_consistent captures :
  consistent_keys captures ->
  consistent compareCaptures (fun c => In c captures).
Proof.
  intros (Kr & Ks & Ke & Kl & Kg).
  assert (Hkey : forall c k, In c captures -> key_of c = Some k ->
                   exists c', In c' captures /\ key_of c' = Some k) by eauto.
  repeat split.
  - intros a Ha. pose proof (compareCaptures_cases a a) as Haa.
    destruct (key_of a) as [ka|] eqn:Ea; [|lia].
    rewrite Haa. apply Kr. eauto.
  - intros a b Ha Hb.
    pose proof (compareCaptures_cases a b) as Hab.
    pose proof (compareCaptures_cases b a) as Hba.
    destruct (key_of a) as [ka|] eqn:Ea, (key_of b) as [kb|] eqn:Eb; try lia.
    rewrite Hab, Hba. apply Ks; eauto.
  - intros a b c Ha Hb Hc.
    pose proof (compareCaptures_cases a b) as Hab.
    pose proof (compareCaptures_cases b c) as Hbc.
    pose proof (compareCaptures_cases a c) as Hac.
    destruct (key_of a) as [ka|] eqn:Ea, (key_of b) as [kb|] eqn:Eb,
             (key_of c) as [kc|] eqn:Ec; try lia.
    rewrite Hab, Hbc, Hac. apply Ke; eauto.
  - intros a b c Ha Hb Hc.
    pose proof (compareCaptures_cases a b) as Hab.
    pose proof (compareCaptures_cases b c) as Hbc.
    pose proof (compareCaptures_cases a c) as Hac.
    destruct (key_of a) as [ka|] eqn:Ea, (key_of b) as [kb|] eqn:Eb,
             (key_of c) as [kc|] eqn:Ec; try lia.
    rewrite Hab, Hbc, Hac. apply Kl; eauto.
  - intros a b c Ha Hb Hc.
    pose proof (compareCaptures_cases a b) as Hab.
    pose proof (compareCaptures_cases b c) as Hbc.
    pose proof (compareCaptures_cases a c) as Hac.
    destruct (key_of a) as [ka|] eqn:Ea, (key_of b) as [kb|] eqn:Eb,
             (key_of c) as [kc|] eqn:Ec; try lia.
    rewrite Hab, Hbc, Hac. apply Kg; eauto.
Qed.

Lemma sortCaptures_sorted captures :
  consistent_keys captures -> StronglySorted ordered_before (sortCaptures captures).
Proof.
  intros Hc. pose proof (compareCaptures_consistent captures Hc) as Hcc.
  unfold sortCaptures.
  apply (StronglySorted_on (fun c => In c captures)
                           (fun a b => compareCaptures a b <= 0)).
  - intros a b _ _. apply compareCaptures_rule.
  - apply List.Forall_forall. intros c Hin.
    apply (Permutation_in _ (Array_sort_perm compareCaptures captures)), Hin.
  - apply (Array_sort_sorted compareCaptures (fun c => In c captures)).
    + apply (consistent_total _ _ Hcc).
    + apply (consistent_trans _ _ Hcc).
    + apply List.Forall_forall. auto.
Qed.

Lemma sortCaptures_perm captures : Permutation (sortCaptures captures) captures.
Proof. apply Array_sort_perm. Qed.

Lemma sortCaptures_unkeyed captures :
  Forall (fun c => present (Capture.sort_index c) = false) captures ->
  StronglySorted (fun a b => Capture.created_at b <= Capture.created_at a)
                 (sortCaptures captures).
Proof.
  intros Hu. unfold sortCaptures.
  set (P := fun c => present (Capture.sort_index c) = false) in *.
  assert (Hcmp : forall a b, P a -> P b ->
            compareCaptures a b = Capture.created_at b - Capture.created_at a).
  { intros a b Ha Hb. unfold compareCaptures, P in *. rewrite Ha, Hb. reflexivity. }
  apply (StronglySorted_on P (fun a b => compareCaptures a b <= 0)).
  - intros a b Ha Hb. rewrite Hcmp by assumption. lia.
  - rewrite List.Forall_forall in *. intros c Hc.
    apply Hu, (Permutation_in _ (Array_sort_perm compareCaptures captures)), Hc.
  - apply (Array_sort_sorted compareCaptures P); [| |exact Hu].
    + intros a b Ha Hb. rewrite !Hcmp by assumption. lia.
    + intros a b c Ha Hb Hc. rewrite !Hcmp by assumption. lia.
Qed.

End Captures.
End SortFacts.

Module StoreFacts.
Import Js Store SortFacts.

Lemma In_toArray {A} (table : gmap string A) row :
  In row (toArray table) <-> exists k, table !! k = Some row.
Proof.
  unfold toArray. rewrite <- list_elem_of_In, in_key_order_perm, list_elem_of_fmap.
  split.
  - intros ([k r] & -> & Hin). exists k. apply elem_of_map_to_list, Hin.
  - intros (k & Hk). exists (k, row). split; [reflexivity|].
    apply elem_of_map_to_list, Hk.
Qed.

Lemma NoDup_map_filter {A B} (g : A -> B) (f : A -> bool) l :
  NoDup (map g l) -> NoDup (map g (List.filter f l)).
Proof.
  induction l as [|x l IH]; simpl; [auto|].
  intros Hnd. apply NoDup_cons in Hnd as [Hx Hnd].
  destruct (f x); simpl; [|auto].
  apply NoDup_cons. split; [|auto].
  intros Hin. apply Hx. apply list_elem_of_In in Hin. apply list_elem_of_In.
  apply in_map_iff in Hin as (y & Hy & Hin). apply in_map_iff.
  exists y. split; [assumption|]. apply filter_In in Hin. tauto.
Qed.

Lemma NoDup_keys_toArray {A} (key : A -> string) (table : gmap string A) :
  keyed_by key table -> NoDup (map key (toArray table)).
Proof.
  intros Hk. unfold toArray. rewrite in_key_order_perm.
  assert (Heq : map key ((map_to_list table).*2) = (map_to_list table).*1).
  { assert (Hall : Forall (fun kv => key (snd kv) = fst kv) (map_to_list table)).
    { apply List.Forall_forall. intros [k r] Hin. simpl.
      apply Hk. apply elem_of_map_to_list, list_elem_of_In, Hin. }
    induction Hall as [|[k r] l Hx Hl IH]; [reflexivity|].
    simpl in *. rewrite Hx. f_equal. exact IH. }
  rewrite Heq. apply NoDup_fst_map_to_list.
Qed.

(** [bulkPut]: the last row of a key stays. *)
Lemma bulkPut_snoc {A} (key : A -> string) rows row (table : gmap string A) :
  bulkPut key (rows ++ [row]) table = <[key row := row]> (bulkPut key rows table).
Proof. unfold bulkPut. rewrite foldl_app. reflexivity. Qed.

Lemma bulkPut_lookup {A} (key : A -> string) rows (table : gmap string A) k row :
  bulkPut key rows table !! k = Some row ->
  (In row rows /\ key row = k) \/ table !! k = Some row.
Proof.
  induction rows as [|r rows IH] using rev_ind; [auto|].
  rewrite bulkPut_snoc. destruct (decide (key r = k)) as [<-|Hne].
  - rewrite lookup_insert_eq. intros [= <-]. left. split; [|reflexivity].
    apply in_or_app. right. left. reflexivity.
  - rewrite lookup_insert_ne by assumption. intros Hl.
    destruct (IH Hl) as [[Hin Hk]|Ht]; [|auto].
    left. split; [apply in_or_app; auto|assumption].
Qed.

Lemma bulkPut_lookup_other {A} (key : A -> string) rows (table : gmap string A) k :
  (forall row, In row rows -> key row <> k) ->
  bulkPut key rows table !! k = table !! k.
Proof.
  induction rows as [|r rows IH] using rev_ind; [reflexivity|].
  intros Hne. rewrite bulkPut_snoc, lookup_insert_ne.
  - apply IH. intros row Hin. apply Hne, in_or_app. auto.
  - apply Hne, in_or_app. right. left. reflexivity.
Qed.

Lemma bulkPut_lookup_last {A} (key : A -> string) rows (table : gmap string A) i row :
  rows !! i = Some row ->
  (forall j row', rows !! j = Some row' -> (i < j)%nat -> key row' <> key row) ->
  bulkPut key rows table !! key row = Some row.
Proof.
  revert i. induction rows as [|r rows IH] using rev_ind; intros i Hi Hlater.
  - discriminate.
  - rewrite bulkPut_snoc.
    destruct (decide (i = length rows)) as [->|Hne].
    + rewrite list_lookup_middle in Hi by reflexivity. injection Hi as ->.
      apply lookup_insert_eq.
    + assert (Hlt : (i < length rows)%nat).
      { apply lookup_lt_Some in Hi. rewrite length_app in Hi. simpl in Hi. lia. }
      rewrite lookup_app_l in Hi by assumption.
      rewrite lookup_insert_ne.
      * apply (IH i Hi). intros j row' Hj Hij.
        apply (Hlater j); [|assumption]. rewrite lookup_app_l; [assumption|].
        apply lookup_lt_Some in Hj. assumption.
      * apply (Hlater (length rows)); [|assumption].
        apply list_lookup_middle. reflexivity.
Qed.

Lemma bulkPut_keyed {A} (key : A -> string) rows (table : gmap string A) :
  keyed_by key table -> keyed_by key (bulkPut key rows table).
Proof.
  intros Hk k row Hl. apply bulkPut_lookup in Hl as [[_ ?]|?]; auto.
Qed.

(** [new Map(rows.map(...))] over rows with distinct identifiers. *)
Lemma Map_by_rest_id_lookup rows id t :
  NoDup (map Tweet.rest_id rows) ->
  Map_by_rest_id rows !! id = Some t <-> In t rows /\ Tweet.rest_id t = id.
Proof.
  unfold Map_by_rest_id. change (foldl _ ∅ rows) with (bulkPut Tweet.rest_id rows ∅).
  intros Hnd. split.
  - intros Hl. apply bulkPut_lookup in Hl as [?|Hl]; [assumption|].
    rewrite lookup_empty in Hl. discriminate.
  - intros [Hin <-].
    apply list_elem_of_In, list_elem_of_lookup in Hin as (i & Hi).
    apply (bulkPut_lookup_last _ _ _ i); [assumption|].
    intros j row' Hj Hij Heq.
    assert (Hi' : map Tweet.rest_id rows !! i = Some (Tweet.rest_id t))
      by (rewrite list_lookup_fmap, Hi; reflexivity).
    assert (Hj' : map Tweet.rest_id rows !! j = Some (Tweet.rest_id t))
      by (rewrite list_lookup_fmap, Hj; simpl; congruence).
    pose proof (NoDup_lookup _ _ _ _ Hnd Hi' Hj'). lia.
Qed.

Section Resolve.
Context `{Api}.

Lemma In_anyOf_filtered db ids t :
  keyed_by Tweet.rest_id (tweets db) ->
  In t (anyOf_filtered db ids) <->
  tweets db !! Tweet.rest_id t = Some t /\ In (Tweet.rest_id t) ids
  /\ filterEmptyData t = true.
Proof.
  intros Hk. unfold anyOf_filtered. rewrite filter_In, In_toArray, andb_true_iff.
  rewrite bool_decide_eq_true, list_elem_of_In. split.
  - intros [(k & Hl) [Hin Hf]]. pose proof (Hk _ _ Hl) as Hid.
    rewrite <- Hid in Hl. auto.
  - intros (Hl & Hin & Hf). eauto.
Qed.

Lemma resolve_lookup db ids c :
  keyed_by Tweet.rest_id (tweets db) -> In (Capture.data_key c) ids ->
  Map_by_rest_id (anyOf_filtered db ids) !! Capture.data_key c = stored db c.
Proof.
  intros Hk Hin.
  assert (Hnd : NoDup (map Tweet.rest_id (anyOf_filtered db ids)))
    by (apply NoDup_map_filter, NoDup_keys_toArray, Hk).
  unfold stored.
  destruct (tweets db !! Capture.data_key c) as [t|] eqn:Ht.
  - pose proof (Hk _ _ Ht) as Hid. destruct (filterEmptyData t) eqn:Hf.
    + apply Map_by_rest_id_lookup; [assumption|]. split; [|assumption].
      apply In_anyOf_filtered; [assumption|]. rewrite Hid. auto.
    + destruct (Map_by_rest_id _ !! _) as [t'|] eqn:Hm; [|reflexivity].
      apply Map_by_rest_id_lookup in Hm as [Hin' Hid']; [|assumption].
      apply In_anyOf_filtered in Hin' as (Hl & _ & Hf'); [|assumption].
      rewrite Hid', Ht in Hl. congruence.
  - destruct (Map_by_rest_id _ !! _) as [t'|] eqn:Hm; [|reflexivity].
    apply Map_by_rest_id_lookup in Hm as [Hin' Hid']; [|assumption].
    apply In_anyOf_filtered in Hin' as (Hl & _ & Hf'); [|assumption].
    rewrite Hid', Ht in Hl. discriminate.
Qed.

Lemma omap_map_ext {X Y Z'} (f : Y -> option Z') (g : X -> Y) (h : X -> option Z') l :
  (forall x, In x l -> f (g x) = h x) -> omap f (map g l) = omap h l.
Proof.
  induction l as [|x l IH]; intros Hext; [reflexivity|].
  assert (IH' : omap f (map g l) = omap h l)
    by (apply IH; intros y Hy; apply Hext; right; exact Hy).
  change (omap f (map g (x :: l)))
    with (match f (g x) with Some z => z :: omap f (map g l) | None => omap f (map g l) end).
  change (omap h (x :: l))
    with (match h x with Some z => z :: omap h l | None => omap h l end).
  rewrite Hext by (left; reflexivity). rewrite IH'. reflexivity.
Qed.

Lemma resolve_spec db captures :
  keyed_by Tweet.rest_id (tweets db) ->
  resolve db captures = omap (stored db) (sortCaptures captures).
Proof.
  intros Hk. unfold resolve. apply omap_map_ext.
  intros c Hc. apply resolve_lookup; [assumption|]. apply in_map, Hc.
Qed.

(** C4. The records of a source come out in the order of its captures:
    in the order [compareSortIndex] gives their sort keys between two
    captures that have one, a capture with a sort key before one without,
    the most recent creation timestamp first otherwise. This holds when
    the comparator is consistent on the sort keys, which is when the
    language defines the order of the sort. The comparator modelled from
    the specification puts the keys in ascending order: with it, captures
    that the table holds with the sort keys 3, 1 and 2 give their records
    in the order 1, 2, 3, and captures without sort keys give theirs from
    the most recent to the oldest. *)
Theorem captured_records_follow_capture_order db extName :
  consistent_keys (extGetCaptures db extName) ->
  keyed_by Tweet.rest_id (tweets db) ->
  let sorted := sortCaptures (extGetCaptures db extName) in
  Permutation sorted (extGetCaptures db extName)
  /\ StronglySorted ordered_before sorted
  /\ extGetCapturedTweets db extName = omap (stored db) sorted
  /\ (Forall (fun c => present (Capture.sort_index c) = false)
             (extGetCaptures db extName) ->
      StronglySorted (fun a b => Capture.created_at b <= Capture.created_at a)
                     sorted)
  /\ (forall ka kb, truthy ka = true -> truthy kb = true ->
        Model.compareSortIndex_spec (Some ka) (Some kb) <= 0
        <-> Model.key_number (Some ka) <= Model.key_number (Some kb))
  /\ map Capture.sort_index (extGetCaptures Sample.keyed_captures Sample.home)
     = [Some "3"; Some "1"; Some "2"]
  /\ map Capture.sort_index
         (@sortCaptures Model.spec_api
            (extGetCaptures Sample.keyed_captures Sample.home))
     = [Some "1"; Some "2"; Some "3"]
  /\ map Tweet.rest_id
         (@extGetCapturedTweets Model.spec_api Sample.keyed_captures Sample.home)
     = ["b"; "c"; "a"]
  /\ map Tweet.rest_id
         (@extGetCapturedTweets Model.spec_api Sample.unkeyed_captures Sample.home)
     = ["latest"; "late"; "early"].
Proof.
  intros Hc Hk sorted. split; [apply sortCaptures_perm|].
  split; [apply sortCaptures_sorted, Hc|].
  split; [apply resolve_spec, Hk|].
  split; [apply sortCaptures_unkeyed|].
  split.
  { intros ka kb Ha Hb. unfold Model.compareSortIndex_spec. simpl.
    rewrite Ha, Hb. simpl. rewrite Z.sgn_nonpos. lia. }
  repeat split; vm_compute; reflexivity.
Qed.

End Resolve.

Lemma keyed_by_empty {A} (key : A -> string) : keyed_by key (∅ : gmap string A).
Proof. intros k row Hl. rewrite lookup_empty in Hl. discriminate. Qed.

Lemma extAddTweets_keyed `{Api} `{DateTime.Common} extName items now db :
  keyed_by Tweet.rest_id (tweets db) ->
  keyed_by Tweet.rest_id (tweets (extAddTweets extName items now db)).
Proof.
  intros Hk k row Hl. simpl in Hl.
  apply bulkPut_lookup in Hl as [[_ ?]|?]; auto.
Qed.

Lemma key_of_truthy c k : key_of c = Some k -> truthy k = true.
Proof.
  unfold key_of. destruct (Capture.sort_index c) as [s|]; simpl; [|discriminate].
  destruct (truthy s) eqn:E; [intros [= <-]; exact E|discriminate].
Qed.

Lemma compareSortIndex_spec_keys ka kb :
  truthy ka = true -> truthy kb = true ->
  Model.compareSortIndex_spec (Some ka) (Some kb)
  = Z.sgn (Model.key_number (Some ka) - Model.key_number (Some kb)).
Proof.
  intros Ha Hb. unfold Model.compareSortIndex_spec. simpl. rewrite Ha, Hb.
  reflexivity.
Qed.

(** The comparator modelled from the specification is consistent on the
    sort keys of any captures. *)
Lemma spec_keys_consistent captures : @consistent_keys Model.spec_api captures.
Proof.
  unfold consistent_keys, consistent. simpl compareSortIndex.
  repeat split; intros;
    repeat match goal with
           | Hk : exists _, _ /\ key_of _ = Some _ |- _ =>
               destruct Hk as (? & _ & ?%key_of_truthy)
           end;
    rewrite ?compareSortIndex_spec_keys in * by assumption;
    repeat match goal with
           | Hs : context [Z.sgn ?x] |- _ =>
               let E := fresh "E" in
               destruct (Z.sgn_spec x) as [[? E]|[[? E]|[? E]]];
               rewrite E in *; clear E
           | |- context [Z.sgn ?x] =>
               let E := fresh "E" in
               destruct (Z.sgn_spec x) as [[? E]|[[? E]|[? E]]];
               rewrite E in *; clear E
           end;
    lia.
Qed.

Lemma captured_records_follow_capture_order_witness :
  StronglySorted (@ordered_before Model.spec_api)
    (@sortCaptures Model.spec_api
       (extGetCaptures Sample.keyed_captures Sample.home))
  /\ @extGetCapturedTweets Model.spec_api Sample.keyed_captures Sample.home
     = omap (stored Sample.keyed_captures)
            (@sortCaptures Model.spec_api
               (extGetCaptures Sample.keyed_captures Sample.home)).
Proof.
  pose proof (@captured_records_follow_capture_order Model.spec_api
                Sample.keyed_captures Sample.home
                (spec_keys_consistent _)
                (@extAddTweets_keyed Model.spec_api Model.spec_common
                   Sample.home _ _ empty_db (keyed_by_empty Tweet.rest_id)))
    as Hw.
  cbv zeta in Hw. destruct Hw as (_ & Hsorted & Hrecords & _).
  split; assumption.
Defined.

End StoreFacts.

Module CaptureFacts.
Import Js DateTime Store SortFacts StoreFacts.

Lemma capture_id_inj ext r1 r2 : capture_id ext r1 = capture_id ext r2 -> r1 = r2.
Proof.
  unfold capture_id. intros Heq. apply String.app_inj in Heq.
  apply (String.app_inj "-") in Heq. exact Heq.
Qed.

Lemma bulkPut_lookup_in {A} (key : A -> string) rows (table : gmap string A) row :
  In row rows ->
  exists row', In row' rows /\ key row' = key row
               /\ bulkPut key rows table !! key row = Some row'.
Proof.
  induction rows as [|r rows IH] using rev_ind; [intros []|].
  intros Hin. rewrite bulkPut_snoc.
  destruct (decide (key r = key row)) as [Heq|Hne].
  - exists r. rewrite <- Heq, lookup_insert_eq.
    repeat split; auto. apply in_or_app. right. left. reflexivity.
  - apply in_app_or in Hin as [Hin|[->|[]]]; [|congruence].
    destruct (IH Hin) as (row' & Hin' & Hk & Hl).
    exists row'. rewrite lookup_insert_ne by assumption.
    repeat split; auto. apply in_or_app. auto.
Qed.

Lemma bulkPut_lookup_cases {A} (key : A -> string) rows (table : gmap string A) k :
  bulkPut key rows table !! k = table !! k
  \/ exists row, In row rows /\ key row = k
                 /\ bulkPut key rows table !! k = Some row.
Proof.
  induction rows as [|r rows IH] using rev_ind; [auto|].
  rewrite bulkPut_snoc. destruct (decide (key r = k)) as [<-|Hne].
  - right. exists r. rewrite lookup_insert_eq.
    repeat split; auto. apply in_or_app. right. left. reflexivity.
  - rewrite lookup_insert_ne by assumption.
    destruct IH as [?|(row & Hin & Hk & Hl)]; [auto|].
    right. exists row. repeat split; auto. apply in_or_app. auto.
Qed.

Lemma In_extGetCaptures db ext c :
  In c (extGetCaptures db ext) <->
  (exists k, captures db !! k = Some c) /\ Capture.extension c = ext.
Proof.
  unfold extGetCaptures. rewrite filter_In, In_toArray, String.eqb_eq. tauto.
Qed.

Lemma well_formed_keyed db : well_formed db -> keyed_by Capture.id (captures db).
Proof. intros Hwf k c Hl. apply (Hwf k c Hl). Qed.

(** At most one capture per source and record. *)
Lemma captures_of_source_distinct db ext :
  well_formed db -> NoDup (map Capture.data_key (extGetCaptures db ext)).
Proof.
  intros Hwf.
  assert (Hnd : NoDup (map Capture.id (extGetCaptures db ext)))
    by (apply NoDup_map_filter, NoDup_keys_toArray, well_formed_keyed, Hwf).
  assert (Heq : map Capture.id (extGetCaptures db ext)
                = map (capture_id ext) (map Capture.data_key (extGetCaptures db ext))).
  { rewrite map_map. apply map_ext_in. intros c Hc.
    apply In_extGetCaptures in Hc as [(k & Hl) <-]. apply (Hwf k c Hl). }
  rewrite Heq in Hnd. eapply NoDup_fmap_1, Hnd.
Qed.

Lemma data_key_of_source db ext r :
  well_formed db ->
  In r (map Capture.data_key (extGetCaptures db ext)) <->
  exists c, captures db !! capture_id ext r = Some c
            /\ Capture.extension c = ext /\ Capture.data_key c = r.
Proof.
  intros Hwf. rewrite in_map_iff. split.
  - intros (c & <- & Hc). apply In_extGetCaptures in Hc as [(k & Hl) <-].
    exists c. destruct (Hwf k c Hl) as [Hid Hfmt]. rewrite <- Hfmt, Hid. auto.
  - intros (c & Hl & He & Hr). exists c. split; [assumption|].
    apply In_extGetCaptures. eauto.
Qed.

Section Batches.
Context `{Api} `{Common}.

Lemma captures_extAddTweets ext items now db :
  captures (extAddTweets ext items now db)
  = bulkPut Capture.id (imap (capture_of ext now) (sortItems items)) (captures db).
Proof. reflexivity. Qed.

Lemma sortItems_perm {T} (items : list (WithSortIndex.t T)) :
  Permutation (sortItems items) items.
Proof. apply Array_sort_perm. Qed.

Lemma In_rows ext now (sorted : list (WithSortIndex.t Tweet.t)) row :
  In row (imap (capture_of ext now) sorted) <->
  exists i item, sorted !! i = Some item /\ row = capture_of ext now i item.
Proof.
  rewrite <- list_elem_of_In, list_elem_of_lookup. split.
  - intros (i & Hi). rewrite list_lookup_imap in Hi.
    destruct (sorted !! i) as [item|] eqn:E; [|discriminate].
    injection Hi as <-. eauto.
  - intros (i & item & Hi & ->). exists i. rewrite list_lookup_imap, Hi. reflexivity.
Qed.

Lemma extAddTweets_well_formed ext items now db :
  well_formed db -> well_formed (extAddTweets ext items now db).
Proof.
  intros Hwf k c. rewrite captures_extAddTweets. intros Hl.
  apply bulkPut_lookup in Hl as [[Hin Hk]|Hl]; [|apply Hwf, Hl].
  apply In_rows in Hin as (i & item & _ & ->). split; [assumption|reflexivity].
Qed.

Lemma rest_id_submitted (items : list (WithSortIndex.t Tweet.t)) r :
  In r (map (fun item => Tweet.rest_id (WithSortIndex.data item)) items) <->
  exists i item, sortItems items !! i = Some item
                 /\ Tweet.rest_id (WithSortIndex.data item) = r.
Proof.
  rewrite in_map_iff. split.
  - intros (item & Hr & Hin).
    apply (Permutation_in _ (Permutation_sym (sortItems_perm items))) in Hin.
    apply list_elem_of_In, list_elem_of_lookup in Hin as (i & Hi). eauto.
  - intros (i & item & Hi & Hr). exists item. split; [assumption|].
    apply (Permutation_in _ (sortItems_perm items)), list_elem_of_In.
    apply list_elem_of_lookup. eauto.
Qed.

(** The records a source has captures of, after one more batch. *)
Lemma extAddTweets_records ext items now db r :
  well_formed db ->
  In r (map Capture.data_key (extGetCaptures (extAddTweets ext items now db) ext)) <->
  In r (map Capture.data_key (extGetCaptures db ext))
  \/ In r (map (fun item => Tweet.rest_id (WithSortIndex.data item)) items).
Proof.
  intros Hwf. pose proof (extAddTweets_well_formed ext items now db Hwf) as Hwf'.
  rewrite !data_key_of_source by assumption. rewrite captures_extAddTweets.
  set (rows := imap (capture_of ext now) (sortItems items)).
  split.
  - intros (c & Hl & He & Hr).
    apply bulkPut_lookup in Hl as [[Hin Hk]|Hl]; [|left; eauto].
    right. apply In_rows in Hin as (i & item & Hi & ->). simpl in Hr.
    apply rest_id_submitted. eauto.
  - intros [(c & Hl & He & Hr)|Hin].
    + destruct (bulkPut_lookup_cases Capture.id rows (captures db) (capture_id ext r))
        as [Hsame|(row' & Hin' & Hk & Hl')].
      * exists c. rewrite Hsame. auto.
      * exists row'. split; [assumption|].
        apply In_rows in Hin' as (i & item & Hi & ->). simpl in *.
        apply capture_id_inj in Hk. auto.
    + apply rest_id_submitted in Hin as (i & item & Hi & Hr).
      assert (Hrow : In (capture_of ext now i item) rows)
        by (apply In_rows; eauto).
      destruct (bulkPut_lookup_in Capture.id rows (captures db) _ Hrow)
        as (row' & Hin' & Hk & Hl').
      simpl in Hk, Hl'. rewrite Hr in Hk, Hl'. exists row'. split; [assumption|].
      apply In_rows in Hin' as (j & item' & Hj & ->). simpl in *.
      apply capture_id_inj in Hk. auto.
Qed.

(** Of the entries of one batch for a record, the last one in the order
    the batch is sorted to is the one that stays. *)
Lemma extAddTweets_last ext items now db i item :
  sortItems items !! i = Some item ->
  (forall j item', sortItems items !! j = Some item' -> (i < j)%nat ->
     Tweet.rest_id (WithSortIndex.data item')
     <> Tweet.rest_id (WithSortIndex.data item)) ->
  captures (extAddTweets ext items now db)
    !! capture_id ext (Tweet.rest_id (WithSortIndex.data item))
  = Some (capture_of ext now i item).
Proof.
  intros Hi Hlater. rewrite captures_extAddTweets.
  apply (bulkPut_lookup_last Capture.id _ _ i (capture_of ext now i item)).
  - rewrite list_lookup_imap, Hi. reflexivity.
  - intros j row' Hj Hij. rewrite list_lookup_imap in Hj.
    destruct (sortItems items !! j) as [item'|] eqn:E; [|discriminate].
    injection Hj as <-. simpl. intros Heq. apply capture_id_inj in Heq.
    apply (Hlater j item' E Hij Heq).
Qed.

Lemma extAddTweets_all_facts ext batches : forall db,
  well_formed db ->
  well_formed (extAddTweets_all ext batches db)
  /\ (forall r,
        In r (map Capture.data_key
                  (extGetCaptures (extAddTweets_all ext batches db) ext)) <->
        In r (map Capture.data_key (extGetCaptures db ext))
        \/ exists batch, In batch batches
             /\ In r (map (fun item => Tweet.rest_id (WithSortIndex.data item))
                          (fst batch))).
Proof.
  unfold extAddTweets_all.
  induction batches as [|[items now] batches IH]; intros db Hwf; cbn [fold_left].
  - split; [assumption|]. intros r. split; [auto|]. intros [?|(? & [] & _)]. assumption.
  - pose proof (extAddTweets_well_formed ext items now db Hwf) as Hwf'.
    destruct (IH _ Hwf') as (Hwf2 & Hrec). split; [assumption|].
    intros r. cbn [fst snd]. rewrite Hrec, extAddTweets_records by assumption. split.
    + intros [[?|Hin]|(b & Hb & Hin)]; [auto| |].
      * right. exists (items, now). split; [left; reflexivity|assumption].
      * right. exists b. split; [right; assumption|assumption].
    + intros [?|(b & [<-|Hb] & Hin)]; [auto|auto|]. right. eauto.
Qed.

(** C9 (amended). After any sequence of batches for a source, the store
    holds at most one capture per source and record, and the source has a
    capture for exactly the records it had one for or a batch named. When
    a batch names a record more than once, the entry that stays is the
    last one in the order the batch is sorted to before it is written. *)
Theorem one_capture_per_record extName batches db :
  well_formed db ->
  let db' := extAddTweets_all extName batches db in
  well_formed db'
  /\ (forall source, NoDup (map Capture.data_key (extGetCaptures db' source)))
  /\ (forall r,
        In r (map Capture.data_key (extGetCaptures db' extName)) <->
        In r (map Capture.data_key (extGetCaptures db extName))
        \/ exists batch, In batch batches
             /\ In r (map (fun item => Tweet.rest_id (WithSortIndex.data item))
                          (fst batch)))
  /\ (forall items now db0 i item,
        sortItems items !! i = Some item ->
        (forall j item', sortItems items !! j = Some item' -> (i < j)%nat ->
           Tweet.rest_id (WithSortIndex.data item')
           <> Tweet.rest_id (WithSortIndex.data item)) ->
        captures (extAddTweets extName items now db0)
          !! capture_id extName (Tweet.rest_id (WithSortIndex.data item))
        = Some (capture_of extName now i item)).
Proof.
  intros Hwf db'.
  destruct (extAddTweets_all_facts extName batches db Hwf) as (Hwf' & Hrec).
  split; [exact Hwf'|].
  split; [intros source; apply captures_of_source_distinct, Hwf'|].
  split; [exact Hrec|].
  intros items now db0 i item. apply extAddTweets_last.
Qed.

End Batches.

Lemma well_formed_empty : well_formed empty_db.
Proof. intros k c Hl. simpl in Hl. rewrite lookup_empty in Hl. discriminate. Qed.

Lemma one_capture_per_record_witness :
  NoDup (map Capture.data_key
           (extGetCaptures
              (@extAddTweets_all Model.spec_api Model.spec_common Sample.home
                 [(Sample.repeated_batch, fun _ => 10)] empty_db)
              Sample.home)).
Proof.
  pose proof (@one_capture_per_record Model.spec_api Model.spec_common
                Sample.home [(Sample.repeated_batch, fun _ => 10)] empty_db
                well_formed_empty) as Hw.
  cbv zeta in Hw. destruct Hw as (_ & Hdistinct & _).
  exact (Hdistinct Sample.home).
Defined.

(** The claim as stated fails: of the two entries of the batch for the
    post [A], the first one submitted is the one that stays. *)
Lemma last_submitted_entry_does_not_stay :
  map Capture.sort_index
      (extGetCaptures
         (@extAddTweets Model.spec_api Model.spec_common Sample.home
            Sample.repeated_batch (fun _ => 10) empty_db)
         Sample.home)
  = [Some "5"]
  /\ map WithSortIndex.sortIndex Sample.repeated_batch = [Some "5"; Some "3"].
Proof. split; vm_compute; reflexivity. Qed.

End CaptureFacts.

(* ===================================================================== *)
(** * Facts about the sync engine *)
(* ===================================================================== *)

Module SyncFacts.
Import Js Json JsFacts JsonFacts Store Sync Sample.

Lemma str1_app c X : str1 c +:+ X = String c X.
Proof. reflexivity. Qed.


Lemma last_char_app_LF s : last_char (s +:+ str1 LF) = Some LF.
Proof.
  induction s as [|a s IH]; [reflexivity|]. simpl. rewrite IH.
  destruct (s +:+ str1 LF) eqn:E; [destruct s; discriminate|reflexivity].
Qed.

Lemma endsWith_app_LF s : endsWith (s +:+ str1 LF) LF = true.
Proof. unfold endsWith. rewrite last_char_app_LF. reflexivity. Qed.

(** The separating newline: none after an empty content or a content that
    ends with one, one otherwise. *)
Lemma combined_rule existing newLines :
  (existing = "" -> combined_of existing newLines = newLines)
  /\ (endsWith existing LF = true ->
      combined_of existing newLines = existing +:+ newLines)
  /\ (existing <> "" -> endsWith existing LF = false ->
      combined_of existing newLines = existing +:+ str1 LF +:+ newLines).
Proof.
  unfold combined_of. repeat split.
  - intros ->. reflexivity.
  - intros ->. rewrite andb_false_r. reflexivity.
  - intros Hne ->. destruct existing; [congruence|]. reflexivity.
Qed.

Section Ids.
Context `{NumberPrinter}.

(** A serialised document gives its identifier back. *)
Lemma id_of_line_stringify item :
  id_of_line (JSON_stringify item) = Some (ObsidianTweet.id item).
Proof.
  unfold id_of_line, JSON_stringify, toData.
  rewrite trim_object, JSON_parse_stringify. reflexivity.
Qed.


Lemma elem_of_ids_fold lines (acc : gset string) i :
  i ∈ foldl (fun ids line =>
               match id_of_line line with
               | Some i0 => ids ∪ {[ i0 ]}
               | None => ids
               end) acc lines <->
  i ∈ acc \/ exists line, In line lines /\ id_of_line line = Some i.
Proof.
  revert acc. induction lines as [|l lines IH]; intros acc; simpl.
  - split; [auto|]. intros [?|(? & [] & _)]; assumption.
  - rewrite IH. split.
    + intros [Hacc|(line & Hin & Hid)]; [|eauto].
      destruct (id_of_line l) eqn:E; [|auto].
      apply elem_of_union in Hacc as [?|Hs]; [auto|].
      apply elem_of_singleton in Hs; subst. right. exists l. auto.
    + intros [Hacc|(line & [->|Hin] & Hid)]; [| |eauto].
      * left. destruct (id_of_line l); [apply elem_of_union|]; auto.
      * left. rewrite Hid. apply elem_of_union. right.
        apply elem_of_singleton. reflexivity.
Qed.

Lemma elem_of_extractExistingIds content i :
  i ∈ extractExistingIds content <->
  exists line, In line (split LF content) /\ id_of_line line = Some i.
Proof.
  unfold extractExistingIds. rewrite elem_of_ids_fold. split; [|eauto].
  intros [Hin|?]; [|assumption]. apply not_elem_of_empty in Hin. destruct Hin.
Qed.




(** The loop body over a vault that keeps files, when no fault hits the
    path of the bucket. *)
Lemma syncBucket_files folder s (w : Files) key items :
  let path := path_of folder key in
  faults w GET path = None -> faults w PUT path = None ->
  syncBucket folder (s, w) (key, items) =
  let existing := default "" (content w !! path) in
  let newItems := newItems_of existing items in
  let s1 := add_skipped (length items - length newItems) s in
  match newItems with
  | [] => (s1, w)
  | _ :: _ =>
      (add_synced (length newItems) s1,
       mkFiles (<[path := combined_of existing (newLines_of newItems)]> (content w))
               (faults w))
  end.
Proof.
  intros path Hg Hp. unfold syncBucket. fold path. simpl getVaultFile. rewrite Hg.
  destruct (content w !! path) as [text|]; simpl;
    (destruct (newItems_of _ items); [reflexivity|]);
    rewrite Hp; reflexivity.
Qed.



End Ids.

Import Model.



End SyncFacts.

(* ===================================================================== *)
(** * Two runs of the sync engine *)
(* ===================================================================== *)

Module IdempotenceFacts.
Import Js Json JsFacts JsonFacts DateTime Store Sync SyncFacts.

Lemma endsWith_inv s : endsWith s LF = true -> exists s', s = s' +:+ str1 LF.
Proof.
  unfold endsWith. induction s as [|a s IH]; [discriminate|].
  destruct s as [|b s].
  - simpl. intros Ha. apply Ascii.eqb_eq in Ha as ->. exists "". reflexivity.
  - intros Hl. destruct (IH Hl) as (s' & Hs'). exists (String a s').
    simpl. rewrite <- Hs'. reflexivity.
Qed.

Lemma app_inv_tail (a b t : string) : a +:+ t = b +:+ t -> a = b.
Proof.
  intros Heq. apply (f_equal rev) in Heq. rewrite !rev_app in Heq.
  apply String.app_inj in Heq. apply (f_equal rev) in Heq.
  rewrite !rev_involutive in Heq. exact Heq.
Qed.

Lemma path_of_inj folder k1 k2 : path_of folder k1 = path_of folder k2 -> k1 = k2.
Proof.
  unfold path_of. intros Heq. apply String.app_inj in Heq.
  simpl in Heq. injection Heq as Heq. eapply app_inv_tail, Heq.
Qed.

Section Engine.
Context `{NumberPrinter}.

Lemma In_newLines d items :
  In d items -> In (JSON_stringify d) (split LF (newLines_of items)).
Proof.
  unfold newLines_of. induction items as [|x items IH]; [intros []|].
  assert (Hx : split LF (JSON_stringify x) = [JSON_stringify x])
    by (apply split_free, stringify_no_LF).
  destruct items as [|y items].
  - intros [->|[]]. simpl join. unfold str1. rewrite split_app, Hx. left. reflexivity.
  - intros Hin.
    change (join (str1 LF) (map JSON_stringify (x :: y :: items)))
      with (JSON_stringify x +:+ str1 LF +:+ join (str1 LF) (map JSON_stringify (y :: items))).
    rewrite !append_assoc, str1_app, split_app, Hx.
    destruct Hin as [->|Hin]; [left; reflexivity|]. right. apply IH, Hin.
Qed.

Lemma lines_of_combined existing newLines line :
  (In line (split LF newLines) -> In line (split LF (combined_of existing newLines)))
  /\ (In line (split LF existing) -> line <> "" ->
      In line (split LF (combined_of existing newLines))).
Proof.
  destruct (combined_rule existing newLines) as (H0 & H1 & H2).
  destruct (decide (existing = "")) as [->|Hne].
  { rewrite H0 by reflexivity. split; [auto|]. simpl. intros [<-|[]] Hl. congruence. }
  destruct (endsWith existing LF) eqn:He.
  - rewrite H1 by reflexivity. destruct (endsWith_inv existing He) as (e' & ->).
    rewrite append_assoc, str1_app, split_app. unfold str1. rewrite split_app. simpl.
    split; intros Hin; [apply in_or_app; auto|]. intros Hl.
    apply in_app_or in Hin as [Hin|[<-|[]]]; [|congruence].
    apply in_or_app; auto.
  - rewrite H2 by auto. rewrite str1_app, split_app.
    split; intros Hin; [|intros _]; apply in_or_app; auto.
Qed.

Lemma ids_of_combined existing items i :
  i ∈ extractExistingIds existing \/ In i (map ObsidianTweet.id items) ->
  i ∈ extractExistingIds (combined_of existing (newLines_of items)).
Proof.
  rewrite !elem_of_extractExistingIds.
  intros [(line & Hin & Hid)|Hin].
  - exists line. split; [|assumption].
    apply (proj2 (lines_of_combined _ _ _)); [assumption|]. intros ->. discriminate.
  - apply in_map_iff in Hin as (d & <- & Hd).
    exists (JSON_stringify d). split; [|apply id_of_line_stringify].
    apply (proj1 (lines_of_combined _ _ _)), In_newLines, Hd.
Qed.

Lemma newItems_nil existing items :
  newItems_of existing items = [] <-> covers items existing.
Proof.
  unfold newItems_of, covers. induction items as [|x items IH]; simpl.
  - split; [intros _ d []|reflexivity].
  - destruct (bool_decide (ObsidianTweet.id x ∈ extractExistingIds existing)) eqn:E; simpl.
    + apply bool_decide_eq_true in E. rewrite IH. split.
      * intros Hc d [<-|Hd]; auto.
      * intros Hc d Hd. apply Hc. auto.
    + apply bool_decide_eq_false in E. split; [discriminate|].
      intros Hc. exfalso. apply E, Hc. auto.
Qed.

Lemma newItems_In existing items d :
  In d items ->
  ObsidianTweet.id d ∈ extractExistingIds existing \/ In d (newItems_of existing items).
Proof.
  intros Hd. unfold newItems_of.
  destruct (decide (ObsidianTweet.id d ∈ extractExistingIds existing)) as [Hi|Hi]; [auto|].
  right. apply filter_In. split; [assumption|].
  rewrite bool_decide_false by assumption. reflexivity.
Qed.

Lemma newItems_length existing items :
  (length (newItems_of existing items) <= length items)%nat.
Proof. unfold newItems_of. apply filter_length_le. Qed.


Lemma errors_add_error m s : SyncSummary.errors (add_error m s) <> SyncSummary.errors s.
Proof.
  simpl. intros Heq. apply (f_equal (@length string)) in Heq.
  rewrite length_app in Heq. simpl in Heq. lia.
Qed.

(** A bucket of the first run that records no error. *)
Lemma step_without_error folder s (w : Files) key items :
  let path := path_of folder key in
  let r := syncBucket folder (s, w) (key, items) in
  honest (faults w) ->
  SyncSummary.errors (fst r) = SyncSummary.errors s ->
  faults (snd r) = faults w
  /\ (SyncSummary.synced (fst r) + SyncSummary.skipped (fst r)
      = SyncSummary.synced s + SyncSummary.skipped s + length items)%nat
  /\ SyncSummary.total (fst r) = SyncSummary.total s
  /\ covers items (default "" (content (snd r) !! path))
  /\ (forall p, p <> path -> content (snd r) !! p = content w !! p).
Proof.
  intros path r Hh. subst r. unfold syncBucket. fold path. simpl getVaultFile.
  destruct (faults w GET path) as [reply|] eqn:Fg.
  { destruct (proj1 (Hh path reply) Fg) as (m & ->). simpl.
    intros Herr. exfalso. eapply errors_add_error, Herr. }
  assert (Hread : forall text, readExisting path (Response 200 text) = inl text)
    by reflexivity.
  assert (Hstep : forall existing,
    default "" (content w !! path) = existing ->
    let r := match newItems_of existing items with
             | [] => (add_skipped (length items - length (newItems_of existing items)) s, w)
             | _ :: _ =>
               let '(reply2, w2) :=
                 putVaultFile path (combined_of existing
                                      (newLines_of (newItems_of existing items))) w in
               match writeFailure path reply2 with
               | None => (add_synced (length (newItems_of existing items))
                            (add_skipped (length items - length (newItems_of existing items)) s), w2)
               | Some message =>
                   (add_error message
                      (add_skipped (length items - length (newItems_of existing items)) s), w2)
               end
             end in
    SyncSummary.errors (fst r) = SyncSummary.errors s ->
    faults (snd r) = faults w
    /\ (SyncSummary.synced (fst r) + SyncSummary.skipped (fst r)
        = SyncSummary.synced s + SyncSummary.skipped s + length items)%nat
    /\ SyncSummary.total (fst r) = SyncSummary.total s
    /\ covers items (default "" (content (snd r) !! path))
    /\ (forall p, p <> path -> content (snd r) !! p = content w !! p)).
  { intros existing Hex. pose proof (newItems_length existing items) as Hlen.
    destruct (newItems_of existing items) as [|d new] eqn:Hnew.
    - simpl. intros _. repeat split; try lia.
      rewrite Hex. apply newItems_nil, Hnew.
    - simpl putVaultFile. destruct (faults w PUT path) as [reply|] eqn:Fp.
      + destruct (proj2 (Hh path reply) Fp) as (m & ->). simpl.
        intros Herr. exfalso.
        apply (errors_add_error m (add_skipped (length items - S (length new)) s)), Herr.
      + simpl. intros _. repeat split; try (simpl in Hlen; lia).
        * rewrite lookup_insert_eq. simpl. rewrite <- Hnew.
          intros x Hx. apply ids_of_combined.
          destruct (newItems_In existing items x Hx) as [?|Hin]; [auto|].
          right. apply in_map, Hin.
        * intros p Hp. apply lookup_insert_ne. congruence. }
  destruct (content w !! path) as [text|] eqn:Hc.
  - rewrite Hread. apply (Hstep text eq_refl).
  - apply (Hstep "" eq_refl).
Qed.

(** A bucket whose documents are all in the file already. *)
Lemma step_all_known folder s (w : Files) key items :
  let path := path_of folder key in
  faults w GET path = None ->
  covers items (default "" (content w !! path)) ->
  syncBucket folder (s, w) (key, items) = (add_skipped (length items) s, w).
Proof.
  intros path Fg Hc. unfold syncBucket. fold path. simpl getVaultFile. rewrite Fg.
  apply newItems_nil in Hc.
  destruct (content w !! path) as [text|]; simpl in *; rewrite Hc; simpl;
    rewrite Nat.sub_0_r; reflexivity.
Qed.

Lemma step_errors_grow folder s (w : Files) b :
  exists more,
    SyncSummary.errors (fst (syncBucket folder (s, w) b))
    = SyncSummary.errors s ++ more.
Proof.
  destruct b as [key items]. unfold syncBucket.
  destruct (getVaultFile (path_of folder key) w) as [reply w1].
  destruct (readExisting (path_of folder key) reply) as [existing|m].
  - destruct (newItems_of existing items) as [|d new].
    + exists []. simpl. rewrite app_nil_r. reflexivity.
    + destruct (putVaultFile _ _ w1) as [reply2 w2].
      destruct (writeFailure _ reply2).
      * eexists. reflexivity.
      * exists []. simpl. rewrite app_nil_r. reflexivity.
  - eexists. reflexivity.
Qed.

Lemma fold_errors_grow folder bs s (w : Files) :
  exists more,
    SyncSummary.errors (fst (fold_left (syncBucket folder) bs (s, w)))
    = SyncSummary.errors s ++ more.
Proof.
  revert s w. induction bs as [|b bs IH]; intros s w; cbn [fold_left].
  - exists []. simpl. rewrite app_nil_r. reflexivity.
  - destruct (syncBucket folder (s, w) b) as [s' w'] eqn:E.
    destruct (IH s' w') as (m2 & Hm2). rewrite Hm2.
    destruct (step_errors_grow folder s w b) as (m1 & Hm1). rewrite E in Hm1.
    simpl in Hm1. rewrite Hm1. exists (m1 ++ m2). rewrite app_assoc. reflexivity.
Qed.


Lemma first_run folder bs : forall s (w : Files),
  NoDup (map fst bs) -> honest (faults w) ->
  let r := fold_left (syncBucket folder) bs (s, w) in
  SyncSummary.errors (fst r) = SyncSummary.errors s ->
  faults (snd r) = faults w
  /\ (SyncSummary.synced (fst r) + SyncSummary.skipped (fst r)
      = SyncSummary.synced s + SyncSummary.skipped s + documents bs)%nat
  /\ SyncSummary.total (fst r) = SyncSummary.total s
  /\ (forall key items, In (key, items) bs ->
        covers items (default "" (content (snd r) !! path_of folder key)))
  /\ (forall p, (forall key, In key (map fst bs) -> p <> path_of folder key) ->
        content (snd r) !! p = content w !! p).
Proof.
  induction bs as [|[key items] bs IH]; intros s w Hnd Hh; cbv zeta; cbn [fold_left].
  - simpl. intros _. repeat split; try lia; try (intros ? ? []); auto.
  - intros Herr.
    destruct (syncBucket folder (s, w) (key, items)) as [s' w'] eqn:E.
    destruct (fold_errors_grow folder bs s' w') as (m2 & Hm2).
    destruct (step_errors_grow folder s w (key, items)) as (m1 & Hm1).
    rewrite E in Hm1. simpl in Hm1.
    assert (Hs' : SyncSummary.errors s' = SyncSummary.errors s).
    { rewrite Herr, Hm1 in Hm2. rewrite <- app_assoc in Hm2.
      rewrite <- (app_nil_r (SyncSummary.errors s)) in Hm2 at 1.
      apply app_inv_head in Hm2. symmetry in Hm2.
      apply app_eq_nil in Hm2 as [-> _]. rewrite Hm1, app_nil_r. reflexivity. }
    pose proof (step_without_error folder s w key items Hh) as Hstep.
    cbv zeta in Hstep. rewrite E in Hstep. simpl in Hstep.
    destruct (Hstep Hs') as (Hf & Hsum & Htot & Hcov & Hoth).
    inversion Hnd as [|? ? Hnotin Hnd']; subst.
    assert (Hh' : honest (faults w')) by (rewrite Hf; exact Hh).
    specialize (IH s' w' Hnd' Hh'). cbv zeta in IH.
    rewrite Herr, <- Hs' in IH.
    destruct (IH eq_refl) as (Hf2 & Hsum2 & Htot2 & Hcov2 & Hoth2).
    repeat split.
    + congruence.
    + simpl documents. lia.
    + congruence.
    + intros k its [Heq|Hin]; [|eauto].
      injection Heq as <- <-. rewrite Hoth2; [exact Hcov|].
      intros k Hk Hp. apply path_of_inj in Hp as <-.
      apply Hnotin, list_elem_of_In, Hk.
    + intros p Hp. rewrite Hoth2, Hoth; [reflexivity|..].
      * apply Hp. left. reflexivity.
      * intros k Hk. apply Hp. right. exact Hk.
Qed.

Lemma second_run folder bs : forall s (w : Files),
  (forall p, faults w GET p = None) ->
  (forall key items, In (key, items) bs ->
     covers items (default "" (content w !! path_of folder key))) ->
  fold_left (syncBucket folder) bs (s, w) = (add_skipped (documents bs) s, w).
Proof.
  induction bs as [|[key items] bs IH]; intros s w Hg Hcov; cbn [fold_left].
  - destruct s. unfold add_skipped. simpl. rewrite Nat.add_0_r. reflexivity.
  - rewrite step_all_known; [|apply Hg|apply Hcov; left; reflexivity].
    rewrite IH; [|assumption|intros; apply Hcov; right; assumption].
    destruct s. unfold add_skipped. simpl. do 2 f_equal. lia.
Qed.

Lemma bucket_push_facts key item bs :
  NoDup (map fst bs) ->
  NoDup (map fst (bucket_push key item bs))
  /\ documents (bucket_push key item bs) = S (documents bs)
  /\ (forall k, In k (map fst (bucket_push key item bs)) -> k = key \/ In k (map fst bs)).
Proof.
  induction bs as [|[k items] bs IH]; intros Hnd.
  - simpl. split; [apply NoDup_singleton|]. split; [reflexivity|].
    intros k [<-|[]]; auto.
  - inversion Hnd as [|? ? Hnotin Hnd']; subst. simpl.
    destruct (String.eqb_spec k key) as [->|Hne]; simpl.
    + split; [exact Hnd|]. split; [rewrite length_app; simpl; lia|]. auto.
    + destruct (IH Hnd') as (Hnd2 & Hdoc & Hkeys).
      split; [|split].
      * constructor; [|exact Hnd2]. intros Hin%list_elem_of_In.
        destruct (Hkeys k Hin) as [?|?]; [congruence|].
        apply Hnotin, list_elem_of_In. assumption.
      * lia.
      * intros k' [<-|Hin]; [auto|]. destruct (Hkeys k' Hin); auto.
Qed.

Section Helpers.
Context `{Api} `{Common}.

Lemma fillBuckets_facts tweets : forall bs bs',
  fillBuckets tweets bs = Returned bs' -> NoDup (map fst bs) ->
  NoDup (map fst bs') /\ documents bs' = (documents bs + length tweets)%nat.
Proof.
  induction tweets as [|t tweets IH]; intros bs bs' Hfill Hnd; simpl in Hfill.
  - injection Hfill as <-. simpl. auto.
  - destruct (dateKey t) as [key|]; [|discriminate].
    destruct (toObsidianTweet t) as [item|]; [|discriminate].
    destruct (bucket_push_facts key item bs Hnd) as (Hnd2 & Hdoc & _).
    destruct (IH _ _ Hfill Hnd2) as (Hnd3 & Hdoc3).
    split; [exact Hnd3|]. rewrite Hdoc3, Hdoc. simpl. lia.
Qed.

(** C5 (amended). A run that records no error, followed by a second run
    over the same store and the files the first run left, whose reads all
    succeed: the second run writes nothing ([synced] and [files] are 0)
    and skips every document, so that its [skipped] is the sum of the
    [synced] and the [skipped] of the first run - the number the first run
    synced when that run skipped nothing. *)
Theorem second_run_skips_everything folder db (w w1 : Files) s1
    (reads : Method -> string -> option Reply) :
  honest (faults w) ->
  syncHomeTimelineToObsidian folder db w = (Returned s1, w1) ->
  SyncSummary.errors s1 = [] ->
  (forall p, reads GET p = None) ->
  let w2 := mkFiles (content w1) reads in
  exists s2,
    syncHomeTimelineToObsidian folder db w2 = (Returned s2, w2)
    /\ SyncSummary.synced s2 = 0%nat
    /\ SyncSummary.files s2 = 0%nat
    /\ SyncSummary.errors s2 = []
    /\ SyncSummary.skipped s2
       = (SyncSummary.synced s1 + SyncSummary.skipped s1)%nat
    /\ SyncSummary.skipped s2 = SyncSummary.total s1
    /\ (SyncSummary.skipped s1 = 0%nat ->
        SyncSummary.skipped s2 = SyncSummary.synced s1).
Proof.
  intros Hh Hrun Herr Hreads w2. unfold syncHomeTimelineToObsidian in *.
  destruct (fetched db) as [|t tweets] eqn:Ht.
  { injection Hrun as <- <-. eexists. split; [reflexivity|]. simpl. auto 10. }
  destruct (fillBuckets (t :: tweets) []) as [bs|] eqn:Hfill; [|discriminate].
  destruct (fillBuckets_facts _ _ _ Hfill (NoDup_nil_2)) as (Hnd & Hdoc).
  simpl documents in Hdoc.
  set (s0 := SyncSummary.mk (length (t :: tweets)) 0 0 0 []) in *.
  pose proof (first_run folder bs s0 w Hnd Hh) as Hfirst. cbv zeta in Hfirst.
  destruct (fold_left (syncBucket folder) bs (s0, w)) as [s1' w1'] eqn:E1.
  injection Hrun as <- <-. simpl in Hfirst.
  destruct (Hfirst Herr) as (Hf & Hsum & Htot & Hcov & _).
  rewrite (second_run folder bs s0 w2 Hreads Hcov).
  eexists. split; [reflexivity|]. simpl. simpl in Htot.
  simpl in Hdoc. repeat split; try reflexivity; lia.
Qed.

End Helpers.
End Engine.

Import Model Sample.

Lemma honest_no_faults : honest no_faults.
Proof. intros path reply. split; discriminate. Qed.

Lemma first_run_of_sample :
  syncHomeTimelineToObsidian "Tweets" same_day_posts vault_with_line
  = (Returned (SyncSummary.mk 2 1 1 1 []), vault_after_first_run).
Proof. vm_compute. reflexivity. Qed.

Lemma second_run_skips_everything_witness :
  exists s2,
    syncHomeTimelineToObsidian "Tweets" same_day_posts vault_after_first_run
    = (Returned s2, vault_after_first_run)
    /\ SyncSummary.synced s2 = 0%nat
    /\ SyncSummary.skipped s2 = 2%nat.
Proof.
  destruct (second_run_skips_everything "Tweets" same_day_posts vault_with_line
              vault_after_first_run (SyncSummary.mk 2 1 1 1 []) no_faults
              honest_no_faults first_run_of_sample eq_refl
              (fun p => eq_refl))
    as (s2 & Hrun & Hsynced & _ & _ & Hskipped & _).
  exists s2. split; [exact Hrun|]. split; [exact Hsynced|exact Hskipped].
Defined.

(** The claim as stated fails: the first run syncs one document and skips
    one, and the second run skips two. *)
Lemma second_run_skips_more_than_was_synced :
  let first :=
    syncHomeTimelineToObsidian "Tweets" same_day_posts vault_with_line in
  let second :=
    syncHomeTimelineToObsidian "Tweets" same_day_posts (snd first) in
  fst first = Returned (SyncSummary.mk 2 1 1 1 [])
  /\ fst second = Returned (SyncSummary.mk 2 0 2 0 [])
  /\ snd second = snd first.
Proof. repeat split; vm_compute; reflexivity. Qed.

End IdempotenceFacts.

(* ===================================================================== *)
(** * Reading the file of a bucket *)
(* ===================================================================== *)

Module ReadFacts.
Import Js Json JsFacts JsonFacts Store Sync SyncFacts IdempotenceFacts.




Section Engine.
Context `{NumberPrinter}.





End Engine.

Import Model Sample.


End ReadFacts.

(* ===================================================================== *)
(** * Facts about the export projection *)
(* ===================================================================== *)

Module ProjectionFacts.
Import Js DateTime Store Sync Model Sample.

Section Projection.
Context `{Api} `{Common}.

(** What the projection and the bucket key are computed from. *)
Lemma created_at_and_key tweet legacy core :
  Tweet.legacy tweet = Some legacy -> Tweet.core tweet = Some core ->
  exists item,
    toObsidianTweet tweet = Returned item
    /\ ObsidianTweet.id item = Tweet.rest_id tweet
    /\ ObsidianTweet.created_at item
       = toISOString (default 0 (parseTwitterDateTime (Legacy.created_at legacy)))
    /\ dateKey tweet
       = Returned (formatDateTime (parseTwitterDateTime (Legacy.created_at legacy))
                                  "YYYY-MM-DD").
Proof.
  intros Hl Hc. unfold toObsidianTweet, dateKey. rewrite Hl, Hc.
  eexists. split; [reflexivity|]. simpl.
  destruct (parseTwitterDateTime (Legacy.created_at legacy)); auto.
Qed.

(** With a formatter that writes the UTC date of a valid date, the key of a
    record with a timestamp that parses is the UTC date of that
    timestamp. *)
Lemma key_of_parsed_timestamp tweet legacy core ms :
  (forall t, formatDateTime (Some t) "YYYY-MM-DD" = utc_date t) ->
  Tweet.legacy tweet = Some legacy -> Tweet.core tweet = Some core ->
  parseTwitterDateTime (Legacy.created_at legacy) = Some ms ->
  exists item,
    toObsidianTweet tweet = Returned item
    /\ ObsidianTweet.created_at item = toISOString ms
    /\ dateKey tweet = Returned (utc_date ms).
Proof.
  intros Hfmt Hl Hc Hp.
  destruct (created_at_and_key tweet legacy core Hl Hc) as (item & Hi & _ & Hcr & Hk).
  exists item. rewrite Hp in Hcr, Hk. rewrite Hfmt in Hk. auto.
Qed.

End Projection.

(** A record whose timestamp does not parse: the document gets the epoch
    zero as its [created_at], and the bucket key is what the formatter
    gives for the date that is not valid - the formatter is not given the
    epoch zero. The key is the date of the document, 1970-01-01, exactly
    when that is what the formatter writes for a date that is not valid. *)
Lemma fallback_is_not_formatted `{Api} `{Common} tweet legacy core :
  Tweet.legacy tweet = Some legacy -> Tweet.core tweet = Some core ->
  parseTwitterDateTime (Legacy.created_at legacy) = None ->
  exists item,
    toObsidianTweet tweet = Returned item
    /\ ObsidianTweet.created_at item = toISOString 0
    /\ dateKey tweet = Returned (formatDateTime None "YYYY-MM-DD")
    /\ (dateKey tweet = Returned (utc_date 0) <->
        formatDateTime None "YYYY-MM-DD" = utc_date 0).
Proof.
  intros Hl Hc Hp.
  destruct (created_at_and_key tweet legacy core Hl Hc) as (item & Hi & _ & Hcr & Hk).
  exists item. rewrite Hp in Hcr, Hk. rewrite Hk.
  repeat split; try assumption; congruence.
Qed.

End ProjectionFacts.

(* ===================================================================== *)
(** * Facts about the scheduler *)
(* ===================================================================== *)

Module SchedulerFacts.
Import Js Store Sync Scheduler Model Sample.

(** The [finally] block clears the flag whatever the sync came to. *)
Lemma settle_clears_flag result now s : inFlight (tick_settle result now s) = false.
Proof. reflexivity. Qed.

(** Without a recorded offset the flag is set before the first [await]. *)
Lemma enter_without_offset host s :
  inFlight s = false -> visible host = true -> onLine host = true ->
  homeTimelineLastSyncAt s = None ->
  tick_enter host s = (begin_run s, AtSync None).
Proof. intros Hf Hv Ho Hl. unfold tick_enter. rewrite Hf, Hv, Ho, Hl. reflexivity. Qed.

(** With a recorded offset the tick is suspended at the capture query with
    the flag as it found it. *)
Lemma enter_with_offset host s lastSyncAt :
  inFlight s = false -> visible host = true -> onLine host = true ->
  homeTimelineLastSyncAt s = Some lastSyncAt ->
  tick_enter host s = (s, AtCaptures lastSyncAt).
Proof. intros Hf Hv Ho Hl. unfold tick_enter. rewrite Hf, Hv, Ho, Hl. reflexivity. Qed.

(** A tick that finds the flag set does nothing. *)
Lemma enter_in_flight host s : inFlight s = true -> tick_enter host s = (s, Finished).
Proof. intros Hf. unfold tick_enter. rewrite Hf. reflexivity. Qed.

(** C2. Two ticks that start while the offset is recorded and a new capture
    exists: both pass the flag test before either sets the flag, and both
    go on to run the sync. *)
Theorem overlapping_ticks_run_two_syncs :
  let start := mkSystem (mkState false 0 (Some 15)) [] in
  let fired := run start [Fire host_ready; Fire host_ready] in
  let resumed :=
    run fired [CapturesReady 0 two_captures; CapturesReady 1 two_captures] in
  fired = mkSystem (mkState false 0 (Some 15)) [AtCaptures 15; AtCaptures 15]
  /\ resumed = mkSystem (mkState true 2 (Some 15))
                        [AtSync (Some 15); AtSync (Some 15)]
  /\ syncs_in_flight resumed = 2%nat.
Proof. repeat split; vm_compute; reflexivity. Qed.

Section Tick.
Context `{Api} `{DateTime.Common} `{NumberPrinter} {W : Type} `{Vault W}.

(** The second argument of the call does not reach the engine. *)
Lemma invoke_sync_any_offset lastSyncAt lastSyncAt' db (w : W) :
  invoke_sync lastSyncAt db w = invoke_sync lastSyncAt' db w.
Proof. reflexivity. Qed.

(** A tick that passes its guards. *)
Lemma tick_that_runs host now db (w : W) s :
  inFlight s = false -> visible host = true -> onLine host = true ->
  (forall lastSyncAt,
     homeTimelineLastSyncAt s = Some lastSyncAt ->
     extGetCapturesSince db "HomeTimelineModule" lastSyncAt <> []) ->
  tick host now db w s =
  (tick_settle (fst (invoke_sync (homeTimelineLastSyncAt s) db w)) now
               (begin_run s),
   snd (invoke_sync (homeTimelineLastSyncAt s) db w)).
Proof.
  intros Hf Hv Ho Hnew. unfold tick, tick_enter. rewrite Hf, Hv, Ho. simpl.
  destruct (homeTimelineLastSyncAt s) as [lastSyncAt|] eqn:Hl.
  - specialize (Hnew lastSyncAt eq_refl). unfold tick_captures.
    destruct (extGetCapturesSince db "HomeTimelineModule" lastSyncAt);
      [congruence|].
    destruct (invoke_sync (Some lastSyncAt) db w). reflexivity.
  - destruct (invoke_sync None db w). reflexivity.
Qed.

(** C3 (amended). A tick that invokes the engine: when the call returns
    its summary, the recorded offset becomes the current time, whatever the
    summary says - also when it lists requests that failed; when the call
    throws, the recorded offset stays as it was. Either way the flag is
    given back. *)
Theorem offset_advances_when_sync_returns host now db (w : W) s :
  inFlight s = false -> visible host = true -> onLine host = true ->
  (forall lastSyncAt,
     homeTimelineLastSyncAt s = Some lastSyncAt ->
     extGetCapturesSince db "HomeTimelineModule" lastSyncAt <> []) ->
  let result := fst (invoke_sync (homeTimelineLastSyncAt s) db w) in
  let s' := fst (tick host now db w s) in
  (forall summary, result = Returned summary ->
                   homeTimelineLastSyncAt s' = Some now)
  /\ (forall message, result = Thrown message ->
                      homeTimelineLastSyncAt s' = homeTimelineLastSyncAt s)
  /\ inFlight s' = false.
Proof.
  intros Hf Hv Ho Hnew result s'. unfold s'.
  rewrite tick_that_runs by assumption. fold result. simpl.
  repeat split.
  - intros summary ->. reflexivity.
  - intros message ->. reflexivity.
Qed.

End Tick.

Lemma offset_advances_when_sync_returns_witness :
  homeTimelineLastSyncAt
    (fst (tick host_ready 99 two_captures empty_vault (mkState false 0 (Some 15))))
  = Some 99
  /\ homeTimelineLastSyncAt
       (fst (tick host_ready 99 broken_capture empty_vault
                  (mkState false 0 (Some 5))))
     = Some 5.
Proof.
  split.
  - refine (proj1 (offset_advances_when_sync_returns host_ready 99 two_captures
                     empty_vault (mkState false 0 (Some 15))
                     eq_refl eq_refl eq_refl _) _ _).
    + intros lastSyncAt [= <-]. vm_compute. discriminate.
    + vm_compute. reflexivity.
  - refine (proj1 (proj2 (offset_advances_when_sync_returns host_ready 99
                            broken_capture empty_vault (mkState false 0 (Some 5))
                            eq_refl eq_refl eq_refl _)) _ _).
    + intros lastSyncAt [= <-]. vm_compute. discriminate.
    + vm_compute. reflexivity.
Defined.

(** The claim as stated fails: a run whose every request is answered with
    the status 500 exports nothing and lists the failed read in its
    summary, and the tick that invoked it moves the offset from 15 to the
    current time all the same. *)
Lemma failed_sync_advances_offset :
  invoke_sync (Some 15) two_captures failing_vault
  = (Returned (SyncSummary.mk 2 0 0 0
                 ["GET Tweets/2023-09-28.jsonl failed (500)"]),
     failing_vault)
  /\ fst (tick host_ready 99 two_captures failing_vault
               (mkState false 0 (Some 15)))
     = mkState false 2 (Some 99).
Proof. split; vm_compute; reflexivity. Qed.

(** C1. A store with a post captured at epoch 10 and one captured at epoch
    20, and a tick whose recorded offset is 15: one post was captured after
    the offset, and the run exports both. *)
Theorem sync_exports_captures_before_offset :
  map Tweet.rest_id (extGetCapturedTweetsSince two_captures home 15) = ["B"]
  /\ map Tweet.rest_id (fetched two_captures) = ["B"; "A"]
  /\ fst (invoke_sync (Some 15) two_captures empty_vault)
     = Returned (SyncSummary.mk 2 2 0 1 [])
  /\ fst (tick host_ready 99 two_captures empty_vault (mkState false 0 (Some 15)))
     = mkState false 2 (Some 99).
Proof. repeat split; vm_compute; reflexivity. Qed.

End SchedulerFacts.

(* ===================================================================== *)
(** * Facts about lists *)
(* ===================================================================== *)

Module ListFacts.

Lemma filter_nil_iff {A} (f : A -> bool) l :
  List.filter f l = [] <-> forall x, In x l -> f x = false.
Proof.
  induction l as [|x l IH]; simpl; [tauto|].
  destruct (f x) eqn:E.
  - split; [discriminate|]. intros Hall. specialize (Hall x (or_introl eq_refl)).
    congruence.
  - rewrite IH. split; [intros Hall y [<-|Hy]; auto|auto].
Qed.

Lemma filter_all {A} (f : A -> bool) l :
  (forall x, In x l -> f x = true) -> List.filter f l = l.
Proof.
  induction l as [|x l IH]; intros Hall; [reflexivity|]. simpl.
  rewrite (Hall x (or_introl eq_refl)), IH; [reflexivity|].
  intros y Hy. apply Hall. right. exact Hy.
Qed.

Lemma filter_comm {A} (f g : A -> bool) l :
  List.filter f (List.filter g l) = List.filter g (List.filter f l).
Proof.
  induction l as [|x l IH]; [reflexivity|]. simpl.
  destruct (f x) eqn:Ef, (g x) eqn:Eg; simpl; rewrite ?Ef, ?Eg, IH; reflexivity.
Qed.

Lemma filter_insert {A} (f : A -> bool) (l : list A) i old new :
  l !! i = Some old ->
  (length (List.filter f (<[i := new]> l)) + (if f old then 1 else 0)
   = length (List.filter f l) + (if f new then 1 else 0))%nat.
Proof.
  revert i. induction l as [|x l IH]; intros [|i]; simpl; try discriminate.
  - intros [= ->]. destruct (f old), (f new); simpl; lia.
  - intros Hl. specialize (IH i Hl). destruct (f x); simpl; lia.
Qed.

Lemma existsb_filter {A} (f : A -> bool) l :
  existsb f l = false -> List.filter f l = [].
Proof.
  induction l as [|x l IH]; simpl; [reflexivity|].
  destruct (f x); [discriminate|]. exact IH.
Qed.

Lemma map_imap_key {X Y K} (f : nat -> X -> Y) (g : Y -> K) (h : X -> K) l :
  (forall i x, g (f i x) = h x) -> map g (imap f l) = map h l.
Proof.
  revert f. induction l as [|x l IH]; intros f Hf; [reflexivity|].
  simpl. rewrite Hf. f_equal. apply IH. intros i y. apply Hf.
Qed.

Lemma map_omap_key {X Y K} (f : X -> option Y) (g : Y -> K) (h : X -> K) l :
  (forall x, In x l -> exists y, f x = Some y /\ g y = h x) ->
  map g (omap f l) = map h l.
Proof.
  induction l as [|x l IH]; intros Hf; [reflexivity|].
  destruct (Hf x (or_introl eq_refl)) as (y & Hy & Hg).
  change (omap f (x :: l)) with (match f x with
                                 | Some y => y :: omap f l
                                 | None => omap f l
                                 end).
  rewrite Hy. simpl. rewrite Hg. f_equal. apply IH.
  intros z Hz. apply Hf. right. exact Hz.
Qed.

Lemma StronglySorted_snoc {A} (R : A -> A -> Prop) l x :
  StronglySorted R l -> Forall (fun a => R a x) l -> StronglySorted R (l ++ [x]).
Proof.
  induction 1 as [|y l Hs IH Hy]; intros Hall; simpl.
  - repeat constructor.
  - inversion Hall as [|? ? Hyx Hl]; subst. constructor; [apply IH, Hl|].
    apply Forall_app. split; [exact Hy|]. constructor; [exact Hyx|constructor].
Qed.

Lemma StronglySorted_rev {A} (R : A -> A -> Prop) l :
  StronglySorted R l -> StronglySorted (fun a b => R b a) (List.rev l).
Proof.
  induction 1 as [|x l Hs IH Hx]; simpl; [constructor|].
  apply StronglySorted_snoc; [exact IH|].
  apply List.Forall_forall. intros a Ha. apply in_rev in Ha.
  rewrite List.Forall_forall in Hx. apply Hx, Ha.
Qed.

(** A list has one arrangement that an order without ties sorts. *)
Lemma sorted_unique {A} (R : A -> A -> Prop) l1 : forall l2,
  StronglySorted R l1 -> StronglySorted R l2 -> Permutation l1 l2 ->
  (forall a b, In a l1 -> In b l1 -> R a b -> R b a -> a = b) ->
  l1 = l2.
Proof.
  induction l1 as [|a l1 IH]; intros l2 Hs1 Hs2 Hp Hanti.
  - apply Permutation_nil in Hp. congruence.
  - destruct l2 as [|b l2]; [apply Permutation_sym, Permutation_nil in Hp; discriminate|].
    inversion Hs1 as [|? ? Hs1' Ha]; subst. inversion Hs2 as [|? ? Hs2' Hb]; subst.
    rewrite List.Forall_forall in Ha, Hb.
    assert (Hab : a = b).
    { assert (Hina : In a (b :: l2)) by (apply (Permutation_in _ Hp); left; reflexivity).
      assert (Hinb : In b (a :: l1))
        by (apply (Permutation_in _ (Permutation_sym Hp)); left; reflexivity).
      destruct Hina as [->|Hina]; [reflexivity|].
      destruct Hinb as [->|Hinb]; [reflexivity|].
      apply Hanti; [left; reflexivity|right; exact Hinb|apply Ha, Hinb|apply Hb, Hina]. }
    subst b. f_equal. apply IH; [assumption..| |].
    + apply Permutation_cons_inv in Hp. exact Hp.
    + intros x y Hx Hy. apply Hanti; right; assumption.
Qed.

Lemma StronglySorted_lookup {A} (R : A -> A -> Prop) (l : list A) :
  (forall i j a b, (i < j)%nat -> l !! i = Some a -> l !! j = Some b -> R a b) ->
  StronglySorted R l.
Proof.
  induction l as [|x l IH]; intros Hall; constructor.
  - apply IH. intros i j a b Hij Hi Hj. apply (Hall (S i) (S j)); [lia|exact Hi|exact Hj].
  - apply List.Forall_forall. intros b Hb.
    apply list_elem_of_In, list_elem_of_lookup in Hb as (j & Hj).
    apply (Hall 0%nat (S j)); [lia|reflexivity|exact Hj].
Qed.

Lemma same_key_same_row {A} (key : A -> string) rows a b :
  NoDup (map key rows) -> In a rows -> In b rows -> key a = key b -> a = b.
Proof.
  induction rows as [|x rows IH]; intros Hnd Ha Hb Hk; [destruct Ha|].
  simpl in Hnd. apply NoDup_cons in Hnd as [Hx Hnd].
  destruct Ha as [->|Ha], Hb as [->|Hb]; auto.
  - exfalso. apply Hx. rewrite Hk. apply list_elem_of_In, in_map, Hb.
  - exfalso. apply Hx. rewrite <- Hk. apply list_elem_of_In, in_map, Ha.
Qed.

End ListFacts.

(* ===================================================================== *)
(** * Facts about the sync engine: summaries, buckets and files *)
(* ===================================================================== *)

Module EngineFacts.
Import Js Json JsFacts JsonFacts DateTime Store Sync SyncFacts IdempotenceFacts.
Import StoreFacts Grouping.

(** ** The lines of a write *)

Section Lines.
Context `{NumberPrinter}.

Lemma split_newLines x items :
  split LF (newLines_of (x :: items)) = map JSON_stringify (x :: items) ++ [""].
Proof.
  unfold newLines_of. revert x. induction items as [|y items IH]; intros x.
  - simpl join. unfold str1. rewrite split_app.
    rewrite split_free by apply stringify_no_LF. reflexivity.
  - change (join (str1 LF) (map JSON_stringify (x :: y :: items)))
      with (JSON_stringify x +:+ str1 LF
            +:+ join (str1 LF) (map JSON_stringify (y :: items))).
    rewrite !append_assoc, str1_app, split_app.
    rewrite split_free by apply stringify_no_LF.
    rewrite IH. reflexivity.
Qed.

Lemma lines_of_newLines items line :
  In line (split LF (newLines_of items)) ->
  line = "" \/ exists d, In d items /\ line = JSON_stringify d.
Proof.
  destruct items as [|x items].
  - simpl. intros [<-|[<-|[]]]; auto.
  - rewrite split_newLines. intros Hin. apply in_app_or in Hin as [Hin|[<-|[]]]; [|auto].
    apply in_map_iff in Hin as (d & <- & Hd). right. eauto.
Qed.

Lemma lines_of_combined_inv existing newLines line :
  In line (split LF (combined_of existing newLines)) ->
  In line (split LF existing) \/ In line (split LF newLines).
Proof.
  destruct (combined_rule existing newLines) as (H0 & H1 & H2).
  destruct (decide (existing = "")) as [->|Hne].
  { rewrite H0 by reflexivity. auto. }
  destruct (endsWith existing LF) eqn:He.
  - rewrite H1 by reflexivity. destruct (endsWith_inv existing He) as (e' & ->).
    rewrite append_assoc, str1_app, split_app. unfold str1. rewrite split_app.
    intros Hin. apply in_app_or in Hin as [Hin|Hin]; [left|right; assumption].
    apply in_or_app. auto.
  - rewrite H2 by auto. rewrite str1_app, split_app.
    intros Hin. apply in_app_or in Hin. exact Hin.
Qed.

(** X29. A line the engine writes is read back as the document it was
    written for: the serialised document has no line feed in it, it is
    parsed as JSON to the value of the document, and [extractExistingIds]
    finds in it the identifier of the document. *)
Theorem written_line_is_read_back (item : ObsidianTweet.t) :
  has_char LF (JSON_stringify item) = false
  /\ JSON_parse (JSON_stringify item) = Some (embed (toData item))
  /\ id_of_line (JSON_stringify item) = Some (ObsidianTweet.id item).
Proof.
  split; [apply stringify_no_LF|]. split; [apply JSON_parse_stringify|].
  apply id_of_line_stringify.
Qed.

(** X4. A write of the engine holds one document per line: the text the
    engine appends for a list of documents that is not empty splits at the
    line feeds into the serialised documents, in their order, and one empty
    piece after the last line feed. *)
Theorem one_document_per_line (items : list ObsidianTweet.t) :
  items <> [] ->
  split LF (newLines_of items) = map JSON_stringify items ++ [""].
Proof.
  destruct items as [|x items]; [congruence|]. intros _. apply split_newLines.
Qed.

(** X5. The identifiers of a file after a write are those it had and those
    of the documents written, no more and no fewer: this is what
    [extractExistingIds] reads from the content [combined] that the engine
    builds from the existing content and the new documents. *)
Theorem identifiers_after_write existing (items : list ObsidianTweet.t) :
  extractExistingIds (combined_of existing (newLines_of items))
  = extractExistingIds existing ∪ list_to_set (map ObsidianTweet.id items).
Proof.
  apply set_eq. intros i. rewrite elem_of_union, elem_of_list_to_set.
  rewrite list_elem_of_In. split.
  - rewrite !elem_of_extractExistingIds. intros (line & Hin & Hid).
    apply lines_of_combined_inv in Hin as [Hin|Hin]; [left; eauto|].
    apply lines_of_newLines in Hin as [->|(d & Hd & ->)]; [discriminate|].
    rewrite id_of_line_stringify in Hid. injection Hid as <-.
    right. apply in_map, Hd.
  - apply ids_of_combined.
Qed.

End Lines.

(** ** The summary of a run over any transport *)

Section Accounting.
Context `{NumberPrinter} {W : Type} `{Vault W}.

Lemma syncBucket_counts folder s (w : W) b :
  let r := fst (syncBucket folder (s, w) b) in
  SyncSummary.total r = SyncSummary.total s
  /\ (SyncSummary.synced r + SyncSummary.skipped r
      <= SyncSummary.synced s + SyncSummary.skipped s + length (snd b))%nat
  /\ (length (SyncSummary.errors s) <= length (SyncSummary.errors r))%nat
  /\ (length (SyncSummary.errors r) = length (SyncSummary.errors s) ->
      SyncSummary.synced r + SyncSummary.skipped r
      = SyncSummary.synced s + SyncSummary.skipped s + length (snd b))%nat
  /\ (SyncSummary.synced s <= SyncSummary.synced r)%nat
  /\ (SyncSummary.files r + SyncSummary.synced s
      <= SyncSummary.files s + SyncSummary.synced r)%nat
  /\ (SyncSummary.files r + length (SyncSummary.errors r)
      <= SyncSummary.files s + length (SyncSummary.errors s) + 1)%nat.
Proof.
  destruct b as [key items]. unfold syncBucket.
  destruct (getVaultFile (path_of folder key) w) as [reply w1].
  destruct (readExisting (path_of folder key) reply) as [existing|m].
  - pose proof (newItems_length existing items) as Hlen.
    destruct (newItems_of existing items) as [|d new].
    + simpl in *. repeat split; lia.
    + destruct (putVaultFile _ _ w1) as [reply2 w2].
      destruct (writeFailure _ reply2); simpl in *; rewrite ?length_app; simpl;
        repeat split; lia.
  - simpl. rewrite length_app. simpl. repeat split; lia.
Qed.

Lemma fold_counts folder bs : forall s (w : W),
  let r := fst (fold_left (syncBucket folder) bs (s, w)) in
  SyncSummary.total r = SyncSummary.total s
  /\ (SyncSummary.synced r + SyncSummary.skipped r
      <= SyncSummary.synced s + SyncSummary.skipped s + documents bs)%nat
  /\ (length (SyncSummary.errors s) <= length (SyncSummary.errors r))%nat
  /\ (length (SyncSummary.errors r) = length (SyncSummary.errors s) ->
      SyncSummary.synced r + SyncSummary.skipped r
      = SyncSummary.synced s + SyncSummary.skipped s + documents bs)%nat
  /\ (SyncSummary.synced s <= SyncSummary.synced r)%nat
  /\ (SyncSummary.files r + SyncSummary.synced s
      <= SyncSummary.files s + SyncSummary.synced r)%nat
  /\ (SyncSummary.files r + length (SyncSummary.errors r)
      <= SyncSummary.files s + length (SyncSummary.errors s) + length bs)%nat.
Proof.
  induction bs as [|b bs IH]; intros s w; cbv zeta; cbn [fold_left].
  - simpl. repeat split; lia.
  - pose proof (syncBucket_counts folder s w b) as Hb. cbv zeta in Hb.
    destruct (syncBucket folder (s, w) b) as [s' w'].
    specialize (IH s' w'). cbv zeta in IH. simpl fst in Hb.
    destruct Hb as (B1 & B2 & B3 & B4 & B5 & B6 & B7).
    destruct IH as (I1 & I2 & I3 & I4 & I5 & I6 & I7).
    simpl documents. simpl length.
    repeat split; lia.
Qed.

End Accounting.

(** ** The loop that fills the buckets *)

Lemma bucket_items_push key k item bs :
  bucket_items key (bucket_push k item bs)
  = if String.eqb k key then bucket_items key bs ++ [item] else bucket_items key bs.
Proof.
  unfold bucket_items. induction bs as [|[k0 items0] bs IH]; simpl.
  - destruct (String.eqb k key); reflexivity.
  - destruct (String.eqb_spec k0 k) as [->|Hne]; simpl.
    + destruct (String.eqb k key); reflexivity.
    + destruct (String.eqb_spec k0 key) as [->|Hne2]; simpl.
      * destruct (String.eqb_spec k key) as [->|_]; [congruence|reflexivity].
      * exact IH.
Qed.

Lemma keys_push k item bs :
  map fst (bucket_push k item bs)
  = if bool_decide (k ∈ map fst bs) then map fst bs else map fst bs ++ [k].
Proof.
  induction bs as [|[k0 items0] bs IH]; cbn [bucket_push map fst].
  - rewrite bool_decide_false by apply not_elem_of_nil. reflexivity.
  - destruct (String.eqb_spec k0 k) as [->|Hne]; cbn [map fst].
    + rewrite bool_decide_true by (apply elem_of_cons; left; reflexivity). reflexivity.
    + rewrite IH. destruct (decide (k ∈ map fst bs)) as [Hin|Hin].
      * rewrite !bool_decide_true; auto. apply elem_of_cons; right; exact Hin.
      * rewrite !bool_decide_false; auto.
        intros [?|?]%elem_of_cons; congruence.
Qed.

Lemma nonempty_push k item bs :
  Forall (fun b => snd b <> []) bs ->
  Forall (fun b => snd b <> []) (bucket_push k item bs).
Proof.
  induction 1 as [|[k0 items0] bs Hb Hbs IH]; simpl.
  - constructor; [discriminate|constructor].
  - destruct (String.eqb k0 k); constructor; auto.
    simpl. destruct items0; discriminate.
Qed.

Lemma first_occurrences_In keys k : In k (first_occurrences keys) <-> In k keys.
Proof.
  induction keys as [|k0 keys IH]; simpl; [tauto|].
  rewrite filter_In, IH. destruct (String.eqb_spec k k0) as [->|Hne]; simpl.
  - tauto.
  - split; [intros [?|[? _]]; auto|intros [?|?]; [congruence|auto]].
Qed.

Lemma first_occurrences_snoc keys k :
  first_occurrences (keys ++ [k])
  = if bool_decide (k ∈ keys) then first_occurrences keys
    else first_occurrences keys ++ [k].
Proof.
  induction keys as [|k0 keys IH]; cbn [first_occurrences app].
  - rewrite bool_decide_false by apply not_elem_of_nil. reflexivity.
  - rewrite IH. destruct (decide (k ∈ keys)) as [Hin|Hin].
    + rewrite bool_decide_true by assumption.
      rewrite bool_decide_true by (apply elem_of_cons; right; exact Hin). reflexivity.
    + rewrite bool_decide_false by assumption.
      destruct (String.eqb_spec k k0) as [->|Hne].
      * rewrite bool_decide_true by (apply elem_of_cons; left; reflexivity).
        rewrite List.filter_app. cbn [List.filter]. rewrite String.eqb_refl. cbn [negb].
        rewrite app_nil_r. reflexivity.
      * rewrite bool_decide_false by (intros [?|?]%elem_of_cons; congruence).
        rewrite List.filter_app. cbn [List.filter].
        destruct (String.eqb_spec k k0); [congruence|]. reflexivity.
Qed.

Section Filling.
Context `{Api} `{Common}.

(** The buckets after the loop, from the buckets before it. *)
Lemma fillBuckets_spec tweets : forall bs bs',
  fillBuckets tweets bs = Returned bs' ->
  let pairs := omap projected tweets in
  length pairs = length tweets
  /\ (forall key, bucket_items key bs' = bucket_items key bs ++ of_key key pairs)
  /\ (forall keys0, map fst bs = first_occurrences keys0 ->
        map fst bs' = first_occurrences (keys0 ++ map fst pairs))
  /\ (Forall (fun b => snd b <> []) bs -> Forall (fun b => snd b <> []) bs').
Proof.
  induction tweets as [|t tweets IH]; intros bs bs' Hfill; cbv zeta; simpl in Hfill.
  - injection Hfill as <-. simpl. repeat split; auto.
    + intros key. unfold of_key. simpl. rewrite app_nil_r. reflexivity.
    + intros keys0 ->. rewrite app_nil_r. reflexivity.
  - assert (Hp : forall k item, dateKey t = Returned k ->
                   toObsidianTweet t = Returned item ->
                   omap projected (t :: tweets) = (k, item) :: omap projected tweets).
    { intros k item Hk Hi.
      change (omap projected (t :: tweets))
        with (match projected t with
              | Some y => y :: omap projected tweets
              | None => omap projected tweets
              end).
      unfold projected at 1. rewrite Hk, Hi. reflexivity. }
    destruct (dateKey t) as [k|]; [|discriminate].
    destruct (toObsidianTweet t) as [item|]; [|discriminate].
    rewrite (Hp k item eq_refl eq_refl). clear Hp.
    destruct (IH _ _ Hfill) as (Hlen & Hitems & Hkeys & Hne). cbv zeta in *.
    split; [simpl; congruence|]. split; [|split].
    + intros key. rewrite Hitems, bucket_items_push. unfold of_key. simpl.
      destruct (String.eqb k key); simpl; rewrite <- ?app_assoc; reflexivity.
    + intros keys0 Hk0. simpl.
      rewrite (Hkeys (keys0 ++ [k])).
      * rewrite <- app_assoc. reflexivity.
      * rewrite keys_push, first_occurrences_snoc, Hk0.
        destruct (decide (k ∈ keys0)) as [Hin|Hin].
        -- rewrite !bool_decide_true; auto.
           apply list_elem_of_In, first_occurrences_In, list_elem_of_In, Hin.
        -- rewrite !bool_decide_false; auto.
           rewrite list_elem_of_In, first_occurrences_In, <- list_elem_of_In. exact Hin.
    + intros Hb. apply Hne, nonempty_push, Hb.
Qed.

(** X6. The loop over the fetched records groups the documents by their
    date key and loses none: when it ends without an exception, every
    record has given a document; the bucket of a key holds the documents of
    that key in the order the records were fetched; the buckets stand in the
    order in which their keys first occur; no key has two buckets and no
    bucket is empty. *)
Theorem buckets_group_by_date_key (tweets : list Tweet.t) bs :
  fillBuckets tweets [] = Returned bs ->
  let pairs := omap projected tweets in
  length pairs = length tweets
  /\ (forall key, bucket_items key bs = of_key key pairs)
  /\ map fst bs = first_occurrences (map fst pairs)
  /\ NoDup (map fst bs)
  /\ Forall (fun b => snd b <> []) bs.
Proof.
  intros Hfill pairs.
  destruct (fillBuckets_spec tweets [] bs Hfill) as (Hlen & Hitems & Hkeys & Hne).
  destruct (fillBuckets_facts tweets [] bs Hfill (NoDup_nil_2)) as (Hnd & _).
  repeat split.
  - exact Hlen.
  - intros key. apply Hitems.
  - apply (Hkeys []). reflexivity.
  - exact Hnd.
  - apply Hne. constructor.
Qed.

Lemma In_bucket key item bs :
  In item (bucket_items key bs) -> exists items, In (key, items) bs /\ In item items.
Proof.
  unfold bucket_items. destruct (List.find _ bs) as [[k items]|] eqn:E; [|intros []].
  apply find_some in E as [Hin Hk]. simpl in *. apply String.eqb_eq in Hk as ->.
  eauto.
Qed.

Lemma buckets_le_documents (bs : list (string * list ObsidianTweet.t)) :
  Forall (fun b => snd b <> []) bs -> (length bs <= documents bs)%nat.
Proof.
  induction 1 as [|[k items] bs Hb _ IH]; simpl; [lia|].
  simpl in Hb. destruct items; [congruence|]. simpl. lia.
Qed.

Lemma fetched_has_payload db t : In t (fetched db) -> filterEmptyData t = true.
Proof.
  unfold fetched, extGetCapturedTweets, resolve. intros Hin.
  apply list_elem_of_In, list_elem_of_omap in Hin as (id & _ & Hl).
  apply (bulkPut_lookup Tweet.rest_id) in Hl as [[Hin _]|Hl]; [|discriminate].
  unfold anyOf_filtered in Hin. apply filter_In in Hin as [_ Hf].
  apply andb_true_iff in Hf as [_ Hf]. exact Hf.
Qed.

Lemma fillBuckets_returns tweets : forall bs,
  (forall t, In t tweets -> filterEmptyData t = true /\ Tweet.core t <> None) ->
  exists bs', fillBuckets tweets bs = Returned bs'.
Proof.
  induction tweets as [|t tweets IH]; intros bs Hall; simpl; [eauto|].
  destruct (Hall t (or_introl eq_refl)) as [Hl Hc].
  unfold dateKey, toObsidianTweet, filterEmptyData in *.
  destruct (Tweet.legacy t); [|discriminate].
  destruct (Tweet.core t); [|congruence].
  apply IH. intros t' Ht'. apply Hall. right. exact Ht'.
Qed.

Lemma fillBuckets_throws tweets : forall bs t,
  In t tweets -> Tweet.core t = None ->
  exists m, fillBuckets tweets bs = Thrown m.
Proof.
  induction tweets as [|t0 tweets IH]; intros bs t [].
  - subst t0. intros Hc. simpl. unfold dateKey, toObsidianTweet.
    destruct (Tweet.legacy t); [rewrite Hc|]; eauto.
  - intros Hc. simpl.
    destruct (dateKey t0); [|eauto].
    destruct (toObsidianTweet t0); [|eauto].
    eapply IH; eauto.
Qed.

Lemma fillBuckets_thrown tweets : forall bs m,
  (forall t, In t tweets -> filterEmptyData t = true) ->
  fillBuckets tweets bs = Thrown m ->
  exists t, In t tweets /\ Tweet.core t = None.
Proof.
  induction tweets as [|t tweets IH]; intros bs m Hall; [discriminate|].
  simpl. pose proof (Hall t (or_introl eq_refl)) as Hl.
  unfold dateKey, toObsidianTweet, filterEmptyData in *.
  destruct (Tweet.legacy t); [|discriminate].
  destruct (Tweet.core t) eqn:Hc.
  - intros Hf. destruct (IH _ _ (fun t' Ht' => Hall t' (or_intror Ht')) Hf)
      as (t' & Hin & Hc').
    exists t'. split; [right; exact Hin|exact Hc'].
  - intros _. exists t. split; [left; reflexivity|exact Hc].
Qed.

Section Run.
Context `{NumberPrinter} {W : Type} `{Vault W}.

(** X1. The summary of a run that returns accounts for the records it
    fetched, whatever the transport answers: [total] is the number of
    fetched records; [synced] and [skipped] together never exceed it, and
    they add up to it when no error is recorded; every file written counts
    at least one synced document; the files written and the errors recorded
    are together no more than the records. *)
Theorem summary_accounts_for_every_record folder db (w w' : W) s :
  syncHomeTimelineToObsidian folder db w = (Returned s, w') ->
  SyncSummary.total s = length (fetched db)
  /\ (SyncSummary.synced s + SyncSummary.skipped s <= SyncSummary.total s)%nat
  /\ (SyncSummary.errors s = [] ->
      (SyncSummary.synced s + SyncSummary.skipped s)%nat = SyncSummary.total s)
  /\ (SyncSummary.files s <= SyncSummary.synced s)%nat
  /\ (SyncSummary.files s + length (SyncSummary.errors s)
      <= SyncSummary.total s)%nat.
Proof.
  unfold syncHomeTimelineToObsidian.
  destruct (fetched db) as [|t tweets] eqn:Ht.
  { intros [= <- _]. simpl. repeat split; lia. }
  destruct (fillBuckets (t :: tweets) []) as [bs|] eqn:Hfill; [|discriminate].
  destruct (fillBuckets_facts _ _ _ Hfill (NoDup_nil_2)) as (_ & Hdoc).
  destruct (fillBuckets_spec _ _ _ Hfill) as (_ & _ & _ & Hne).
  pose proof (buckets_le_documents bs (Hne (List.Forall_nil _))) as Hle.
  set (s0 := SyncSummary.mk (length (t :: tweets)) 0 0 0 []).
  pose proof (fold_counts folder bs s0 w) as Hc. cbv zeta in Hc.
  destruct (fold_left (syncBucket folder) bs (s0, w)) as [s1 w1].
  intros [= <- _]. simpl in Hc. simpl documents in Hdoc.
  destruct Hc as (C1 & C2 & C3 & C4 & C5 & C6 & C7).
  simpl length in *. repeat split; try lia.
  intros He. rewrite He in C4. specialize (C4 eq_refl). lia.
Qed.

(** X2. A record without its author block stops the run before any
    request: the run throws exactly when one of the fetched records has no
    [core], and then the state of the transport is the one the run started
    from. *)
Theorem sync_throws_on_missing_author folder db (w : W) :
  ((exists t, In t (fetched db) /\ Tweet.core t = None) <->
   (exists m, fst (syncHomeTimelineToObsidian folder db w) = Thrown m))
  /\ (forall m, fst (syncHomeTimelineToObsidian folder db w) = Thrown m ->
                snd (syncHomeTimelineToObsidian folder db w) = w).
Proof.
  unfold syncHomeTimelineToObsidian.
  pose proof (fetched_has_payload db) as Hpay.
  destruct (fetched db) as [|t tweets] eqn:Ht.
  { split; [split|]; [intros (t & [] & _)|intros (m & Hm); discriminate|reflexivity]. }
  split; [split|].
  - intros (t' & Hin & Hc).
    destruct (fillBuckets_throws (t :: tweets) [] t' Hin Hc) as (m & ->).
    eauto.
  - intros (m & Hm).
    destruct (fillBuckets (t :: tweets) []) as [bs|m'] eqn:Hfill.
    + destruct (fold_left (syncBucket folder) bs _). discriminate.
    + eapply fillBuckets_thrown; eauto.
  - intros m. destruct (fillBuckets (t :: tweets) []) as [bs|]; [|reflexivity].
    destruct (fold_left (syncBucket folder) bs _). discriminate.
Qed.

End Run.

(** ** Runs over a vault that keeps files *)

Section OverFiles.
Context `{NumberPrinter}.

Lemma step_appends folder s (w : Files) key items :
  let path := path_of folder key in
  let r := syncBucket folder (s, w) (key, items) in
  honest (faults w) ->
  faults (snd r) = faults w
  /\ (forall p, p <> path -> content (snd r) !! p = content w !! p)
  /\ (forall text, content w !! path = Some text ->
        exists more, content (snd r) !! path = Some (text +:+ more)).
Proof.
  intros path r Hh. subst r. unfold syncBucket. fold path. simpl getVaultFile.
  destruct (faults w GET path) as [reply|] eqn:Fg.
  { destruct (proj1 (Hh path reply) Fg) as (m & ->). simpl.
    repeat split; auto. intros text ->. exists "". rewrite append_nil_r. reflexivity. }
  assert (Hstep : forall existing,
    (forall text, content w !! path = Some text -> text = existing) ->
    let r := match newItems_of existing items with
             | [] => (add_skipped (length items - length (newItems_of existing items)) s, w)
             | _ :: _ =>
               let '(reply2, w2) :=
                 putVaultFile path (combined_of existing
                                      (newLines_of (newItems_of existing items))) w in
               match writeFailure path reply2 with
               | None => (add_synced (length (newItems_of existing items))
                            (add_skipped (length items - length (newItems_of existing items)) s), w2)
               | Some message =>
                   (add_error message
                      (add_skipped (length items - length (newItems_of existing items)) s), w2)
               end
             end in
    faults (snd r) = faults w
    /\ (forall p, p <> path -> content (snd r) !! p = content w !! p)
    /\ (forall text, content w !! path = Some text ->
          exists more, content (snd r) !! path = Some (text +:+ more))).
  { intros existing Hex.
    assert (Hsame : forall text, content w !! path = Some text ->
                      exists more, content w !! path = Some (text +:+ more)).
    { intros text ->. exists "". rewrite append_nil_r. reflexivity. }
    destruct (newItems_of existing items) as [|d new] eqn:Hnew.
    - simpl. auto.
    - simpl putVaultFile. destruct (faults w PUT path) as [reply|] eqn:Fp.
      + destruct (writeFailure path reply); simpl; auto.
      + simpl. repeat split.
        * intros p Hp. apply lookup_insert_ne. congruence.
        * intros text Ht. rewrite lookup_insert_eq. rewrite (Hex text Ht).
          unfold combined_of. eexists. reflexivity. }
  destruct (content w !! path) as [text|] eqn:Hc.
  - change (readExisting path (Response 200 text)) with (@inl string string text).
    apply (Hstep text). intros text' [= ->]. reflexivity.
  - apply (Hstep ""). discriminate.
Qed.

Lemma fold_appends folder bs : forall s (w : Files),
  let r := fold_left (syncBucket folder) bs (s, w) in
  honest (faults w) ->
  faults (snd r) = faults w
  /\ (forall p, (forall key, In key (map fst bs) -> p <> path_of folder key) ->
        content (snd r) !! p = content w !! p)
  /\ (forall p text, content w !! p = Some text ->
        exists more, content (snd r) !! p = Some (text +:+ more)).
Proof.
  induction bs as [|[key items] bs IH]; intros s w; cbv zeta; cbn [fold_left]; intros Hh.
  - simpl. repeat split; auto. intros p text ->. exists "".
    rewrite append_nil_r. reflexivity.
  - pose proof (step_appends folder s w key items) as Hstep. cbv zeta in Hstep.
    destruct (syncBucket folder (s, w) (key, items)) as [s' w'].
    simpl in Hstep. destruct (Hstep Hh) as (Hf & Hoth & Hpre).
    assert (Hh' : honest (faults w')) by (rewrite Hf; exact Hh).
    specialize (IH s' w'). cbv zeta in IH.
    destruct (IH Hh') as (Hf2 & Hoth2 & Hpre2).
    repeat split.
    + congruence.
    + intros p Hp. rewrite Hoth2, Hoth; [reflexivity|..].
      * apply Hp. left. reflexivity.
      * intros k Hk. apply Hp. right. exact Hk.
    + intros p text Ht.
      assert (Hmid : exists more, content w' !! p = Some (text +:+ more)).
      { destruct (decide (p = path_of folder key)) as [->|Hne].
        - apply Hpre, Ht.
        - rewrite (Hoth p Hne). exists "". rewrite append_nil_r. exact Ht. }
      destruct Hmid as (m1 & Hm1). destruct (Hpre2 p _ Hm1) as (m2 & Hm2).
      exists (m1 +:+ m2). rewrite Hm2, append_assoc. reflexivity.
Qed.

Lemma keys_of_buckets tweets bs key :
  fillBuckets tweets [] = Returned bs -> In key (map fst bs) ->
  exists t, In t tweets /\ dateKey t = Returned key.
Proof.
  intros Hfill Hin.
  destruct (fillBuckets_spec tweets [] bs Hfill) as (_ & _ & Hkeys & _).
  rewrite (Hkeys [] eq_refl) in Hin. simpl in Hin.
  apply first_occurrences_In, in_map_iff in Hin as ([k item] & <- & Hin).
  apply list_elem_of_In, list_elem_of_omap in Hin as (t & Ht & Hp).
  exists t. split; [apply list_elem_of_In, Ht|].
  unfold projected in Hp. destruct (dateKey t); [|discriminate].
  destruct (toObsidianTweet t); [|discriminate]. injection Hp as -> _. reflexivity.
Qed.

(** X3. Over a vault that keeps files and whose failures are reported as
    failures, a run only appends: a file that existed keeps its content as
    a prefix of its new content; a file whose content has changed is the
    file of the date key of a fetched record; and the run returns in every
    other respect the vault it was given. *)
Theorem sync_only_appends folder db (w w' : Files) result :
  honest (faults w) ->
  syncHomeTimelineToObsidian folder db w = (result, w') ->
  faults w' = faults w
  /\ (forall path text, content w !! path = Some text ->
        exists more, content w' !! path = Some (text +:+ more))
  /\ (forall path, content w' !! path <> content w !! path ->
        exists t key, In t (fetched db) /\ dateKey t = Returned key
                      /\ path = path_of folder key).
Proof.
  intros Hh. unfold syncHomeTimelineToObsidian.
  assert (Hsame : forall path text, content w !! path = Some text ->
                    exists more, content w !! path = Some (text +:+ more)).
  { intros path text ->. exists "". rewrite append_nil_r. reflexivity. }
  destruct (fetched db) as [|t tweets] eqn:Ht.
  { intros [= _ <-]. repeat split; auto. intros path Hp. congruence. }
  destruct (fillBuckets (t :: tweets) []) as [bs|] eqn:Hfill.
  2:{ intros [= _ <-]. repeat split; auto. intros path Hp. congruence. }
  set (s0 := SyncSummary.mk (length (t :: tweets)) 0 0 0 []).
  pose proof (fold_appends folder bs s0 w) as Hfold. cbv zeta in Hfold.
  destruct (fold_left (syncBucket folder) bs (s0, w)) as [s1 w1].
  intros [= _ <-].
  simpl in Hfold |- *. destruct (Hfold Hh) as (Hf & Hoth & Hpre).
  repeat split; auto.
  intros path Hp.
  destruct (decide (Exists (fun key => path = path_of folder key) (map fst bs)))
    as [Hex|Hno].
  - apply Exists_exists in Hex as (key & Hin & ->).
    apply list_elem_of_In in Hin.
    destruct (keys_of_buckets _ _ _ Hfill Hin) as (t' & Ht' & Hk). eauto.
  - exfalso. apply Hp, Hoth. intros key Hin ->. apply Hno.
    apply Exists_exists. exists key. split; [apply list_elem_of_In, Hin|reflexivity].
Qed.

Lemma step_no_faults folder s (w : Files) b :
  (forall m p, faults w m p = None) ->
  SyncSummary.errors (fst (syncBucket folder (s, w) b)) = SyncSummary.errors s
  /\ faults (snd (syncBucket folder (s, w) b)) = faults w.
Proof.
  intros Hn. destruct b as [key items].
  rewrite syncBucket_files by apply Hn. cbv zeta.
  destruct (newItems_of _ items); simpl; auto.
Qed.

Lemma fold_no_faults folder bs : forall s (w : Files),
  (forall m p, faults w m p = None) ->
  SyncSummary.errors (fst (fold_left (syncBucket folder) bs (s, w)))
  = SyncSummary.errors s.
Proof.
  induction bs as [|b bs IH]; intros s w Hn; cbn [fold_left]; [reflexivity|].
  destruct (step_no_faults folder s w b Hn) as [He Hf].
  destruct (syncBucket folder (s, w) b) as [s' w']. simpl in *.
  rewrite IH; [exact He|]. intros m p. rewrite Hf. apply Hn.
Qed.

Lemma In_of_key key item pairs : In (key, item) pairs -> In item (of_key key pairs).
Proof.
  intros Hin. unfold of_key. apply in_map_iff. exists (key, item).
  split; [reflexivity|]. apply filter_In. split; [exact Hin|]. simpl.
  apply String.eqb_refl.
Qed.

(** X7. Over a vault that keeps files and never fails, a run on records
    that all have their author block returns a summary without errors, in
    which [synced] and [skipped] add up to the number of fetched records;
    after it the identifier of every fetched record is among the
    identifiers of the file of its date key. *)
Theorem run_without_failures_exports_everything folder db (w : Files) :
  (forall m p, faults w m p = None) ->
  (forall t, In t (fetched db) -> Tweet.core t <> None) ->
  exists s w',
    syncHomeTimelineToObsidian folder db w = (Returned s, w')
    /\ SyncSummary.errors s = []
    /\ (SyncSummary.synced s + SyncSummary.skipped s)%nat = length (fetched db)
    /\ (forall t key, In t (fetched db) -> dateKey t = Returned key ->
          Tweet.rest_id t
          ∈ extractExistingIds (default "" (content w' !! path_of folder key))).
Proof.
  intros Hn Hcore. unfold syncHomeTimelineToObsidian.
  pose proof (fetched_has_payload db) as Hpay.
  destruct (fetched db) as [|t0 tweets] eqn:Ht.
  { eexists _, _. split; [reflexivity|]. simpl. repeat split. intros t key []. }
  destruct (fillBuckets_returns (t0 :: tweets) []) as (bs & Hfill).
  { intros t Hin. split; [apply Hpay, Hin|apply Hcore, Hin]. }
  rewrite Hfill.
  destruct (fillBuckets_facts _ _ _ Hfill (NoDup_nil_2)) as (Hnd & Hdoc).
  destruct (fillBuckets_spec _ _ _ Hfill) as (_ & Hitems & _ & _).
  set (s0 := SyncSummary.mk (length (t0 :: tweets)) 0 0 0 []).
  assert (Hh : honest (faults w)).
  { intros p reply. rewrite !Hn. split; discriminate. }
  pose proof (first_run folder bs s0 w Hnd Hh) as Hfirst. cbv zeta in Hfirst.
  pose proof (fold_no_faults folder bs s0 w Hn) as Herr.
  destruct (fold_left (syncBucket folder) bs (s0, w)) as [s1 w1].
  simpl in Herr, Hfirst.
  destruct (Hfirst Herr) as (_ & Hsum & _ & Hcov & _).
  exists s1, w1. split; [reflexivity|]. split; [exact Herr|].
  split; [simpl in Hdoc; simpl; lia|].
  intros t key Hin Hk.
  assert (Hitem : exists item, toObsidianTweet t = Returned item
                               /\ ObsidianTweet.id item = Tweet.rest_id t).
  { pose proof (Hpay t Hin) as Hl. pose proof (Hcore t Hin) as Hc.
    unfold toObsidianTweet, filterEmptyData in *.
    destruct (Tweet.legacy t); [|discriminate].
    destruct (Tweet.core t); [|congruence]. eexists. split; reflexivity. }
  destruct Hitem as (item & Hitem & <-).
  assert (Hp : projected t = Some (key, item)).
  { unfold projected. rewrite Hk, Hitem. reflexivity. }
  assert (Hb : In item (bucket_items key bs)).
  { rewrite Hitems. apply in_or_app. right. apply In_of_key.
    apply list_elem_of_In, list_elem_of_omap. exists t.
    split; [apply list_elem_of_In, Hin|exact Hp]. }
  apply In_bucket in Hb as (items & Hbs & Hi).
  apply (Hcov key items Hbs item Hi).
Qed.

End OverFiles.
End Filling.

Import Model Sample.

Lemma one_document_per_line_witness :
  split LF (newLines_of [document "1"]) = [JSON_stringify (document "1"); ""].
Proof.
  apply (one_document_per_line [document "1"]). discriminate.
Defined.

Lemma buckets_of_sample :
  fillBuckets [tweet "1" posted; tweet "2" posted] []
  = Returned [("2023-09-28", [exported "1"; exported "2"])].
Proof. vm_compute. reflexivity. Qed.

Lemma buckets_group_by_date_key_witness :
  bucket_items "2023-09-28" [("2023-09-28", [exported "1"; exported "2"])]
  = of_key "2023-09-28" (omap projected [tweet "1" posted; tweet "2" posted]).
Proof.
  destruct (buckets_group_by_date_key [tweet "1" posted; tweet "2" posted]
              [("2023-09-28", [exported "1"; exported "2"])] buckets_of_sample)
    as (_ & Hitems & _).
  apply Hitems.
Defined.

Lemma summary_accounts_for_every_record_witness :
  let s := SyncSummary.mk 2 1 1 1 [] in
  (SyncSummary.synced s + SyncSummary.skipped s)%nat = SyncSummary.total s
  /\ (SyncSummary.files s <= SyncSummary.synced s)%nat.
Proof.
  destruct (summary_accounts_for_every_record "Tweets" same_day_posts
              vault_with_line vault_after_first_run (SyncSummary.mk 2 1 1 1 [])
              first_run_of_sample) as (_ & _ & Hsum & Hfiles & _).
  split; [apply Hsum; reflexivity|exact Hfiles].
Defined.

Lemma sync_only_appends_witness :
  exists more,
    content vault_after_first_run !! "Tweets/2023-09-28.jsonl"
    = Some ((line_id_text +:+ str1 LF) +:+ more).
Proof.
  destruct (sync_only_appends "Tweets" same_day_posts vault_with_line
              vault_after_first_run _ honest_no_faults first_run_of_sample)
    as (_ & Hpre & _).
  apply Hpre. reflexivity.
Defined.

Lemma fetched_same_day_posts :
  fetched same_day_posts
  = [annotate 10 (tweet "2" posted); annotate 10 (tweet "1" posted)].
Proof. vm_compute. reflexivity. Qed.

Lemma run_without_failures_exports_everything_witness :
  exists s w',
    syncHomeTimelineToObsidian "Tweets" same_day_posts vault_with_line
    = (Returned s, w')
    /\ SyncSummary.errors s = [].
Proof.
  destruct (run_without_failures_exports_everything "Tweets" same_day_posts
              vault_with_line (fun _ _ => eq_refl)) as (s & w' & Hrun & Herr & _).
  - rewrite fetched_same_day_posts. intros t [<-|[<-|[]]]; discriminate.
  - exists s, w'. split; [exact Hrun|exact Herr].
Defined.


End EngineFacts.

(* ===================================================================== *)
(** * Facts about the store: batches, counts and clearing *)
(* ===================================================================== *)

Module UpkeepFacts.
Import Js Json JsFacts JsonFacts DateTime Store SortFacts StoreFacts CaptureFacts Upkeep.
Import ListFacts.

Lemma bulkDelete_lookup {A} keys (table : gmap string A) k :
  bulkDelete keys table !! k = if bool_decide (k ∈ keys) then None else table !! k.
Proof.
  unfold bulkDelete. revert table.
  induction keys as [|k0 keys IH]; intros table; cbn [foldl].
  - rewrite bool_decide_false by apply not_elem_of_nil. reflexivity.
  - rewrite IH. destruct (decide (k ∈ keys)) as [Hin|Hin].
    + rewrite !bool_decide_true; auto. apply elem_of_cons. auto.
    + rewrite (bool_decide_false _ Hin).
      destruct (decide (k = k0)) as [->|Hne].
      * rewrite bool_decide_true by (apply elem_of_cons; auto).
        apply lookup_delete_eq.
      * rewrite bool_decide_false by (intros [?|?]%elem_of_cons; congruence).
        apply lookup_delete_ne. congruence.
Qed.

(** X30. Accounts get databases of their own when the option asks for it:
    with [dedicatedDbForAccounts] two accounts open the same database only
    when they have the same identifier (an account without one counts as
    [unknown]); without the option every account opens the database named
    [DB_NAME]. *)
Theorem accounts_have_their_own_database DB_NAME u1 u2 :
  (database_name DB_NAME true u1 = database_name DB_NAME true u2 <->
   default "unknown" u1 = default "unknown" u2)
  /\ database_name DB_NAME false u1 = DB_NAME.
Proof.
  unfold database_name. split; [split|apply append_nil_r].
  - intros Heq. apply String.app_inj in Heq. simpl in Heq. congruence.
  - intros ->. reflexivity.
Qed.

(** X8. Clearing the captures of a source removes every capture of that
    source and nothing else: the source has no capture and no captured
    record afterwards, the captures of the other sources are those they
    were, and the table of records is the one it was. *)
Theorem clearing_a_source `{Api} db extName :
  keyed_by Capture.id (captures db) ->
  let db' := extClearCaptures db extName in
  extGetCaptures db' extName = []
  /\ extGetCaptureCount db' extName = 0%nat
  /\ extGetCapturedTweets db' extName = []
  /\ (forall other c, other <> extName ->
        In c (extGetCaptures db' other) <-> In c (extGetCaptures db other))
  /\ tweets db' = tweets db.
Proof.
  intros Hk db'.
  assert (Hlook : forall k c, captures db' !! k = Some c <->
                    captures db !! k = Some c /\ Capture.extension c <> extName).
  { intros k c. unfold db', extClearCaptures. simpl. rewrite bulkDelete_lookup.
    destruct (decide (k ∈ map Capture.id (extGetCaptures db extName))) as [Hin|Hin].
    - rewrite bool_decide_true by assumption. split; [discriminate|].
      intros [Hl Hne]. exfalso. apply Hne.
      apply list_elem_of_In, in_map_iff in Hin as (c' & Hid & Hc').
      apply In_extGetCaptures in Hc' as [(k' & Hl') Hext].
      rewrite (Hk _ _ Hl') in Hid. subst k'. congruence.
    - rewrite bool_decide_false by assumption. split.
      + intros Hl. split; [exact Hl|]. intros Hext. apply Hin.
        apply list_elem_of_In, in_map_iff. exists c. split; [apply Hk, Hl|].
        apply In_extGetCaptures. eauto.
      + intros [Hl _]. exact Hl. }
  assert (Hnone : extGetCaptures db' extName = []).
  { unfold extGetCaptures. apply filter_nil_iff. intros c Hin.
    apply In_toArray in Hin as (k & Hl). apply Hlook in Hl as [_ Hne].
    apply String.eqb_neq, Hne. }
  split; [exact Hnone|]. split; [|split; [|split]].
  - unfold extGetCaptureCount. fold (extGetCaptures db' extName).
    rewrite Hnone. reflexivity.
  - unfold extGetCapturedTweets. rewrite Hnone. reflexivity.
  - intros other c Hne. rewrite !In_extGetCaptures. split.
    + intros [(k & Hl) Hext]. apply Hlook in Hl as [Hl _]. eauto.
    + intros [(k & Hl) Hext]. split; [|exact Hext]. exists k. apply Hlook.
      split; [exact Hl|congruence].
  - reflexivity.
Qed.

Section Batches.
Context `{Api} `{Common}.

Lemma count_is_captured db ext : extGetCaptureCount db ext = length (captured db ext).
Proof. unfold captured, extGetCaptureCount. rewrite length_map. reflexivity. Qed.

(** X9. A batch changes the number of captures of its source by the number
    of its records that the source had not captured: the count does not go
    down and goes up by no more than the size of the batch; it stays when
    every record of the batch was captured already, and it goes up by the
    size of the batch when the records of the batch are different from each
    other and none was captured. *)
Theorem capture_count_after_batch extName items now db :
  well_formed db ->
  let db' := extAddTweets extName items now db in
  (extGetCaptureCount db extName <= extGetCaptureCount db' extName)%nat
  /\ (extGetCaptureCount db' extName
      <= extGetCaptureCount db extName + length items)%nat
  /\ ((forall r, In r (submitted items) -> In r (captured db extName)) ->
      extGetCaptureCount db' extName = extGetCaptureCount db extName)
  /\ (NoDup (submitted items) ->
      (forall r, In r (submitted items) -> ~ In r (captured db extName)) ->
      extGetCaptureCount db' extName
      = (extGetCaptureCount db extName + length items)%nat).
Proof.
  intros Hwf db'. rewrite !count_is_captured.
  pose proof (captures_of_source_distinct db extName Hwf) as Hnd.
  pose proof (captures_of_source_distinct db' extName
                (extAddTweets_well_formed extName items now db Hwf)) as Hnd'.
  pose proof (fun r => extAddTweets_records extName items now db r Hwf) as Hrec.
  fold db' in Hrec. fold (captured db' extName) in Hrec, Hnd'.
  fold (captured db extName) in Hrec, Hnd. fold (submitted items) in Hrec.
  assert (Hlen : length (submitted items) = length items)
    by (unfold submitted; apply length_map).
  repeat split.
  - apply submseteq_length, NoDup_submseteq; [exact Hnd|].
    intros r Hr%list_elem_of_In. apply list_elem_of_In, Hrec. auto.
  - rewrite <- Hlen, <- length_app.
    apply submseteq_length, NoDup_submseteq; [exact Hnd'|].
    intros r Hr%list_elem_of_In. apply Hrec in Hr.
    apply elem_of_app. rewrite !list_elem_of_In. exact Hr.
  - intros Hall. apply Permutation_length, NoDup_Permutation; [exact Hnd'|exact Hnd|].
    intros r. rewrite !list_elem_of_In, Hrec. split; [intros [?|?]; auto|auto].
  - intros Hnew Hfresh. rewrite <- Hlen, <- length_app.
    apply Permutation_length, NoDup_Permutation; [exact Hnd'| |].
    + apply NoDup_app. split; [exact Hnd|]. split; [|exact Hnew].
      intros r Hr%list_elem_of_In Hs%list_elem_of_In. exact (Hfresh r Hs Hr).
    + intros r. rewrite elem_of_app, !list_elem_of_In. apply Hrec.
Qed.

Lemma In_resolve db cs t :
  keyed_by Tweet.rest_id (tweets db) ->
  In t (resolve db cs) <-> exists c, In c cs /\ stored db c = Some t.
Proof.
  intros Hk. rewrite resolve_spec by assumption.
  rewrite <- list_elem_of_In, list_elem_of_omap. split.
  - intros (c & Hc%list_elem_of_In & Hs). exists c. split; [|exact Hs].
    eapply Permutation_in; [apply sortCaptures_perm|exact Hc].
  - intros (c & Hc & Hs). exists c. split; [|exact Hs]. apply list_elem_of_In.
    eapply Permutation_in; [apply Permutation_sym, sortCaptures_perm|exact Hc].
Qed.

(** The record a batch stores for an identifier it names. *)
Lemma stored_row_of_batch extName items now db r :
  In r (submitted items) ->
  exists t,
    Tweet.rest_id t = r
    /\ tweets (extAddTweets extName items now db) !! r = Some t
    /\ exists item i, In item items
         /\ t = annotate (now i) (WithSortIndex.data item).
Proof.
  intros Hr.
  set (rows := imap (fun i t => annotate (now i) t)
                    (map WithSortIndex.data (sortItems items))).
  assert (Hrow : exists row, In row rows /\ Tweet.rest_id row = r).
  { apply in_map_iff in Hr as (item & <- & Hitem).
    apply (Permutation_in _ (Permutation_sym (sortItems_perm items))) in Hitem.
    apply list_elem_of_In, list_elem_of_lookup in Hitem as (i & Hi).
    exists (annotate (now i) (WithSortIndex.data item)). split; [|reflexivity].
    apply list_elem_of_In, list_elem_of_lookup. exists i. unfold rows.
    rewrite list_lookup_imap, list_lookup_fmap, Hi. reflexivity. }
  destruct Hrow as (row & Hrow & Hid).
  destruct (bulkPut_lookup_in Tweet.rest_id rows (tweets db) row Hrow)
    as (t & Ht & Hkey & Hl).
  rewrite Hid in Hkey, Hl.
  exists t. split; [exact Hkey|]. split; [exact Hl|].
  apply list_elem_of_In, list_elem_of_lookup in Ht as (i & Hi). unfold rows in Hi.
  rewrite list_lookup_imap, list_lookup_fmap in Hi.
  destruct (sortItems items !! i) as [item|] eqn:Hitem; [|discriminate].
  simpl in Hi. injection Hi as <-. exists item, i. split; [|reflexivity].
  apply (Permutation_in _ (sortItems_perm items)).
  apply list_elem_of_In, list_elem_of_lookup. eauto.
Qed.

(** X10. What a batch adds comes back: after a batch whose records all have
    their payload, every record of the batch is among the captured records
    of the source, in the state the batch stored it in, which is a record
    of the batch with its private fields filled in. *)
Theorem added_records_are_returned extName items now db r :
  well_formed db -> keyed_by Tweet.rest_id (tweets db) ->
  (forall item, In item items ->
     filterEmptyData (WithSortIndex.data item) = true) ->
  In r (submitted items) ->
  let db' := extAddTweets extName items now db in
  exists t,
    In t (extGetCapturedTweets db' extName)
    /\ Tweet.rest_id t = r
    /\ tweets db' !! r = Some t
    /\ exists item i, In item items
         /\ t = annotate (now i) (WithSortIndex.data item).
Proof.
  intros Hwf Hk Hpay Hr db'.
  pose proof (extAddTweets_keyed extName items now db Hk) as Hk'. fold db' in Hk'.
  assert (Hc : exists c, In c (extGetCaptures db' extName) /\ Capture.data_key c = r).
  { pose proof (proj2 (extAddTweets_records extName items now db r Hwf)
                  (or_intror Hr)) as Hin.
    apply in_map_iff in Hin as (c & Hd & Hc). eauto. }
  destruct Hc as (c & Hc & Hd).
  destruct (stored_row_of_batch extName items now db r Hr)
    as (t & Hid & Hl & Horigin).
  fold db' in Hl.
  exists t. split; [|split; [exact Hid|split; [exact Hl|exact Horigin]]].
  apply In_resolve; [exact Hk'|]. exists c. split; [exact Hc|].
  unfold stored. rewrite Hd, Hl.
  destruct Horigin as (item & i & Hitem & ->).
  change (filterEmptyData (annotate (now i) (WithSortIndex.data item)))
    with (filterEmptyData (WithSortIndex.data item)).
  rewrite (Hpay item Hitem). reflexivity.
Qed.

(** X27. A batch touches its own records only: the record and the capture
    of an identifier that the batch does not name are after the batch what
    they were before it. *)
Theorem batch_touches_only_its_records extName items now db r :
  ~ In r (submitted items) ->
  let db' := extAddTweets extName items now db in
  tweets db' !! r = tweets db !! r
  /\ captures db' !! capture_id extName r = captures db !! capture_id extName r.
Proof.
  intros Hr db'. split.
  - apply bulkPut_lookup_other. intros row Hin Hk. apply Hr.
    apply list_elem_of_In, list_elem_of_lookup in Hin as (i & Hi).
    rewrite list_lookup_imap, list_lookup_fmap in Hi.
    destruct (sortItems items !! i) as [item|] eqn:Hitem; [|discriminate].
    simpl in Hi. injection Hi as <-. simpl in Hk. subst r.
    apply in_map_iff. exists item. split; [reflexivity|].
    apply (Permutation_in _ (sortItems_perm items)).
    apply list_elem_of_In, list_elem_of_lookup. eauto.
  - unfold db'. rewrite captures_extAddTweets.
    apply bulkPut_lookup_other. intros row Hin Hk. apply Hr.
    apply In_rows in Hin as (i & item & Hitem & ->). simpl in Hk.
    apply capture_id_inj in Hk. subst r.
    apply in_map_iff. exists item. split; [reflexivity|].
    apply (Permutation_in _ (sortItems_perm items)).
    apply list_elem_of_In, list_elem_of_lookup. eauto.
Qed.

(** ** The order of a batch without sort keys *)

Lemma Array_sort_kept {A} (cmp : A -> A -> Z) l :
  (forall a b, In a l -> In b l -> cmp a b <= 0) -> Array_sort cmp l = l.
Proof.
  induction l as [|x l IH]; intros Hall; [reflexivity|]. simpl.
  rewrite IH by (intros a b Ha Hb; apply Hall; right; assumption).
  destruct l as [|y l]; [reflexivity|]. simpl.
  destruct (Z.leb_spec (cmp x y) 0) as [_|Hgt]; [reflexivity|].
  specialize (Hall x y (or_introl eq_refl) (or_intror (or_introl eq_refl))). lia.
Qed.

Lemma toArray_bulkPut {A} (key : A -> string) rows :
  NoDup (map key rows) -> Permutation (toArray (bulkPut key rows ∅)) rows.
Proof.
  intros Hnd.
  assert (Hkeyed : keyed_by key (bulkPut key rows (∅ : gmap string A)))
    by apply bulkPut_keyed, keyed_by_empty.
  apply NoDup_Permutation.
  - apply (NoDup_fmap_1 key). apply (NoDup_keys_toArray key _ Hkeyed).
  - apply (NoDup_fmap_1 key). exact Hnd.
  - intros row. rewrite !list_elem_of_In, In_toArray. split.
    + intros (k & Hl). apply bulkPut_lookup in Hl as [[Hin _]|Hl]; [exact Hin|].
      rewrite lookup_empty in Hl. discriminate.
    + intros Hin. destruct (bulkPut_lookup_in key rows ∅ row Hin) as (row' & Hin' & Hk & Hl).
      rewrite (same_key_same_row key rows row row' Hnd Hin Hin' (eq_sym Hk)).
      eauto.
Qed.

(** X28. A batch without sort keys comes back most recent first, which is
    the reverse of the order it was added in: when the comparison of two
    missing sort keys answers zero (the comparator is then consistent on
    the batch, and the sort keeps its order), the clock does not go back,
    the records of the batch have their payload and are different from each
    other, and the store was empty, the captured records of the source are
    the records of the batch in reverse. *)
Theorem batch_without_keys_comes_back_reversed extName items now :
  compareSortIndex None None = 0 ->
  (forall i j, (i <= j)%nat -> now i <= now j) ->
  Forall (fun item => WithSortIndex.sortIndex item = None
                      /\ filterEmptyData (WithSortIndex.data item) = true) items ->
  NoDup (submitted items) ->
  map Tweet.rest_id
      (extGetCapturedTweets (extAddTweets extName items now empty_db) extName)
  = List.rev (submitted items).
Proof.
  intros Hcmp Hclock Hall Hnd. rewrite List.Forall_forall in Hall.
  set (db' := extAddTweets extName items now empty_db).
  assert (Hsorted : sortItems items = items).
  { apply Array_sort_kept. intros a b Ha Hb.
    rewrite (proj1 (Hall a Ha)), (proj1 (Hall b Hb)), Hcmp. lia. }
  set (rows := imap (capture_of extName now) items).
  assert (Hkeys : map Capture.data_key rows = submitted items).
  { apply map_imap_key. reflexivity. }
  assert (Hids : NoDup (map Capture.id rows)).
  { replace (map Capture.id rows)
      with (map (capture_id extName) (map Capture.data_key rows)).
    - rewrite Hkeys. apply NoDup_fmap_2_strong; [|exact Hnd].
      intros a b _ _. apply capture_id_inj.
    - rewrite map_map. unfold rows.
      transitivity (map (fun item => capture_id extName
                                       (Tweet.rest_id (WithSortIndex.data item))) items);
        [|symmetry]; apply map_imap_key; reflexivity. }
  assert (Hcaps : captures db' = bulkPut Capture.id rows ∅).
  { unfold db'. rewrite captures_extAddTweets, Hsorted. reflexivity. }
  assert (Hrow : forall c, In c rows ->
            exists i item, items !! i = Some item /\ c = capture_of extName now i item).
  { intros c Hc. apply In_rows in Hc. exact Hc. }
  assert (Hperm : Permutation (extGetCaptures db' extName) rows).
  { unfold extGetCaptures. rewrite Hcaps.
    rewrite filter_all; [apply toArray_bulkPut, Hids|].
    intros c Hc. apply (Permutation_in _ (toArray_bulkPut Capture.id rows Hids)) in Hc.
    destruct (Hrow c Hc) as (i & item & _ & ->). simpl. apply String.eqb_refl. }
  assert (Hunkeyed : Forall (fun c => present (Capture.sort_index c) = false)
                            (extGetCaptures db' extName)).
  { apply List.Forall_forall. intros c Hc. apply (Permutation_in _ Hperm) in Hc.
    destruct (Hrow c Hc) as (i & item & Hi & ->). simpl.
    apply list_elem_of_lookup_2, list_elem_of_In in Hi.
    rewrite (proj1 (Hall item Hi)). reflexivity. }
  assert (Horder : sortCaptures (extGetCaptures db' extName) = List.rev rows).
  { apply (sorted_unique (fun a b => Capture.created_at b <= Capture.created_at a)).
    - apply sortCaptures_unkeyed, Hunkeyed.
    - apply (StronglySorted_rev (fun a b => Capture.created_at a <= Capture.created_at b)).
      apply StronglySorted_lookup. intros i j a b Hij Hi Hj. unfold rows in Hi, Hj.
      rewrite list_lookup_imap in Hi, Hj.
      destruct (items !! i) as [x|]; [|discriminate].
      destruct (items !! j) as [y|]; [|discriminate].
      simpl in Hi, Hj. injection Hi as <-. injection Hj as <-. simpl.
      specialize (Hclock i j ltac:(lia)). lia.
    - rewrite sortCaptures_perm, Hperm. apply Permutation_rev.
    - intros a b Ha Hb Hab Hba.
      apply (Permutation_in _ (sortCaptures_perm _)), (Permutation_in _ Hperm) in Ha, Hb.
      apply list_elem_of_In, list_elem_of_lookup in Ha as (i & Hi).
      apply list_elem_of_In, list_elem_of_lookup in Hb as (j & Hj).
      pose proof Hi as Hi'. pose proof Hj as Hj'. unfold rows in Hi', Hj'.
      rewrite list_lookup_imap in Hi', Hj'.
      destruct (items !! i) as [x|]; [|discriminate].
      destruct (items !! j) as [y|]; [|discriminate].
      simpl in Hi', Hj'. injection Hi' as <-. injection Hj' as <-. simpl in Hab, Hba.
      assert (i = j).
      { destruct (Nat.lt_trichotomy i j) as [Hlt|[Heq|Hgt]]; [|exact Heq|].
        - specialize (Hclock i j ltac:(lia)). lia.
        - specialize (Hclock j i ltac:(lia)). lia. }
      subst j. congruence. }
  assert (Hk' : keyed_by Tweet.rest_id (tweets db'))
    by apply extAddTweets_keyed, keyed_by_empty.
  unfold extGetCapturedTweets. rewrite resolve_spec by exact Hk'.
  rewrite Horder, <- Hkeys, <- map_rev.
  apply map_omap_key. intros c Hc. apply in_rev in Hc.
  destruct (Hrow c Hc) as (i & item & Hi & ->).
  apply list_elem_of_lookup_2, list_elem_of_In in Hi.
  destruct (stored_row_of_batch extName items now empty_db
              (Tweet.rest_id (WithSortIndex.data item)))
    as (t & Hid & Hl & item' & i' & Hitem' & ->).
  { apply in_map_iff. exists item. split; [reflexivity|exact Hi]. }
  exists (annotate (now i') (WithSortIndex.data item')). split; [|exact Hid].
  unfold stored.
  change (Capture.data_key (capture_of extName now i item))
    with (Tweet.rest_id (WithSortIndex.data item)).
  unfold db'. rewrite Hl.
  change (filterEmptyData (annotate (now i') (WithSortIndex.data item')))
    with (filterEmptyData (WithSortIndex.data item')).
  rewrite (proj2 (Hall item' Hitem')). reflexivity.
Qed.

Lemma capture_id_source e1 r1 e2 r2 :
  has_char "-" e1 = false -> has_char "-" e2 = false ->
  capture_id e1 r1 = capture_id e2 r2 -> e1 = e2.
Proof.
  unfold capture_id. revert e2. induction e1 as [|a e1 IH]; intros [|b e2]; simpl.
  - reflexivity.
  - intros _ Hb [= <- _]. discriminate.
  - intros Ha _ [= -> _]. discriminate.
  - intros Ha Hb [= <- Heq]. apply orb_false_iff in Ha as [_ Ha].
    apply orb_false_iff in Hb as [_ Hb]. f_equal. apply IH; assumption.
Qed.

(** X11. Two sources whose names have no hyphen do not interfere: a batch
    added for the one leaves the captures of the other as they were. (The
    identifier of a capture is the name of its source, a hyphen and the
    identifier of its record.) *)
Theorem sources_do_not_interfere extName other items now db c :
  well_formed db ->
  has_char "-" extName = false -> has_char "-" other = false ->
  other <> extName ->
  In c (extGetCaptures (extAddTweets extName items now db) other)
  <-> In c (extGetCaptures db other).
Proof.
  intros Hwf He Ho Hne. rewrite !In_extGetCaptures, captures_extAddTweets.
  split; intros [(k & Hl) Hext]; (split; [|exact Hext]).
  - apply bulkPut_lookup in Hl as [[Hin _]|Hl]; [|eauto].
    apply In_rows in Hin as (i & item & _ & ->). simpl in Hext. congruence.
  - exists k. rewrite bulkPut_lookup_other; [exact Hl|].
    intros row Hin Hk. apply In_rows in Hin as (i & item & _ & ->). simpl in Hk.
    destruct (Hwf k c Hl) as [Hid Hshape]. rewrite <- Hid, Hshape, Hext in Hk.
    apply Hne. symmetry. eapply capture_id_source; eauto.
Qed.

(** X12. The records captured since an instant are the stored records of
    the captures of the source that are later than the instant; they are
    all among the captured records of the source, and there is none when no
    capture is later than the instant. *)
Theorem records_captured_since db extName since :
  keyed_by Tweet.rest_id (tweets db) ->
  (forall t, In t (extGetCapturedTweetsSince db extName since) <->
     exists c, In c (extGetCaptures db extName)
               /\ since < Capture.created_at c /\ stored db c = Some t)
  /\ (forall t, In t (extGetCapturedTweetsSince db extName since) ->
                In t (extGetCapturedTweets db extName))
  /\ ((forall c, In c (extGetCaptures db extName) -> Capture.created_at c <= since) ->
      extGetCapturedTweetsSince db extName since = []).
Proof.
  intros Hk.
  assert (Hsince : forall c, In c (extGetCapturesSince db extName since) <->
                     In c (extGetCaptures db extName) /\ since < Capture.created_at c).
  { intros c. unfold extGetCapturesSince, extGetCaptures. rewrite !filter_In.
    rewrite andb_true_iff, Z.ltb_lt. tauto. }
  assert (Hres : extGetCapturedTweetsSince db extName since
                 = resolve db (extGetCapturesSince db extName since)).
  { unfold extGetCapturedTweetsSince.
    destruct (extGetCapturesSince db extName since); reflexivity. }
  assert (Hchar : forall t, In t (extGetCapturedTweetsSince db extName since) <->
     exists c, In c (extGetCaptures db extName)
               /\ since < Capture.created_at c /\ stored db c = Some t).
  { intros t. rewrite Hres, In_resolve by assumption. split.
    - intros (c & Hc & Hs). apply Hsince in Hc as [Hc Hlt]. eauto.
    - intros (c & Hc & Hlt & Hs). exists c. split; [apply Hsince; auto|exact Hs]. }
  split; [exact Hchar|]. split.
  - intros t Ht. apply Hchar in Ht as (c & Hc & _ & Hs).
    unfold extGetCapturedTweets. apply In_resolve; eauto.
  - intros Hall. unfold extGetCapturedTweetsSince.
    assert (Hnil : extGetCapturesSince db extName since = []).
    { apply filter_nil_iff. intros c Hin.
      destruct (String.eqb_spec (Capture.extension c) extName) as [Hext|]; [|reflexivity].
      simpl. apply Z.ltb_ge, Hall. apply In_extGetCaptures.
      apply In_toArray in Hin. auto. }
    rewrite Hnil. reflexivity.
Qed.

End Batches.

Import Model Sample.

Lemma two_captures_well_formed : well_formed two_captures.
Proof. repeat apply extAddTweets_well_formed. apply well_formed_empty. Qed.

Lemma two_captures_keyed : keyed_by Tweet.rest_id (tweets two_captures).
Proof. repeat apply extAddTweets_keyed. apply keyed_by_empty. Qed.

Lemma clearing_a_source_witness :
  extGetCaptures (extClearCaptures two_captures home) home = []
  /\ tweets (extClearCaptures two_captures home) = tweets two_captures.
Proof.
  destruct (clearing_a_source two_captures home
              (well_formed_keyed _ two_captures_well_formed))
    as (Hnone & _ & _ & _ & Htweets).
  split; [exact Hnone|exact Htweets].
Defined.

Lemma capture_count_after_batch_witness :
  extGetCaptureCount same_day_posts home = 2%nat.
Proof.
  destruct (capture_count_after_batch home [item "1" None; item "2" None]
              (fun _ => 10) empty_db well_formed_empty) as (_ & _ & _ & Hnew).
  apply Hnew.
  - apply (bool_decide_unpack _). vm_compute. exact I.
  - intros r _ [].
Defined.

Lemma added_records_are_returned_witness :
  exists t,
    In t (extGetCapturedTweets same_day_posts home) /\ Tweet.rest_id t = "2".
Proof.
  destruct (added_records_are_returned home [item "1" None; item "2" None]
              (fun _ => 10) empty_db "2" well_formed_empty
              (keyed_by_empty _)) as (t & Hin & Hid & _).
  - intros it [<-|[<-|[]]]; reflexivity.
  - right. left. reflexivity.
  - exists t. split; [exact Hin|exact Hid].
Defined.

Lemma with_bookmark_well_formed : well_formed with_bookmark.
Proof. apply extAddTweets_well_formed, two_captures_well_formed. Qed.

Lemma sources_do_not_interfere_witness :
  let c := Capture.mk "BookmarksModule-7" "BookmarksModule" Capture.TWEET "7" 5 None in
  extGetCaptures with_bookmark "BookmarksModule" = [c]
  /\ In c (extGetCaptures
             (extAddTweets home [item "7" None] (fun _ => 30) with_bookmark)
             "BookmarksModule").
Proof.
  intros c.
  assert (Hbefore : extGetCaptures with_bookmark "BookmarksModule" = [c])
    by (vm_compute; reflexivity).
  split; [exact Hbefore|].
  apply (sources_do_not_interfere home "BookmarksModule" [item "7" None]
           (fun _ => 30) with_bookmark c with_bookmark_well_formed);
    [reflexivity|reflexivity|discriminate|].
  rewrite Hbefore. left. reflexivity.
Defined.

Lemma records_captured_since_witness :
  extGetCapturedTweetsSince two_captures home 20 = [].
Proof.
  destruct (records_captured_since two_captures home 20 two_captures_keyed)
    as (_ & _ & Hnone).
  apply Hnone. intros c Hc.
  assert (Hall : Forall (fun c => Capture.created_at c <= 20)
                        (extGetCaptures two_captures home)).
  { apply (bool_decide_unpack _). vm_compute. exact I. }
  rewrite List.Forall_forall in Hall. apply Hall, Hc.
Defined.

Lemma batch_touches_only_its_records_witness :
  tweets (extAddTweets home [item "7" None] (fun _ => 30) two_captures) !! "A"
  = tweets two_captures !! "A".
Proof.
  apply (batch_touches_only_its_records home [item "7" None] (fun _ => 30)
           two_captures "A").
  intros [Heq|[]]. discriminate.
Defined.

Lemma batch_without_keys_comes_back_reversed_witness :
  map Tweet.rest_id (extGetCapturedTweets same_day_posts home) = ["2"; "1"].
Proof.
  apply (batch_without_keys_comes_back_reversed home
           [item "1" None; item "2" None] (fun _ => 10)).
  - reflexivity.
  - intros i j _. apply Z.le_refl.
  - repeat constructor.
  - apply (bool_decide_unpack _). vm_compute. exact I.
Defined.

(** Without the condition on the names the captures of two sources can
    share an identifier: the record [c] of the source [a-b] takes the place
    of the record [b-c] of the source [a]. *)
Lemma hyphenated_sources_collide :
  let first := extAddTweets "a" [item "b-c" None] (fun _ => 10) empty_db in
  let second := extAddTweets "a-b" [item "c" None] (fun _ => 20) first in
  map Capture.data_key (extGetCaptures first "a") = ["b-c"]
  /\ extGetCaptures second "a" = [].
Proof. split; vm_compute; reflexivity. Qed.

End UpkeepFacts.

(* ===================================================================== *)
(** * Facts about the transport *)
(* ===================================================================== *)

Module TransportFacts.
Import Js Json JsFacts JsonFacts DateTime Store Sync SyncFacts IdempotenceFacts.
Import Obsidian Grouping EngineFacts.

(** ** Paths *)

Lemma all_chars_app p a b : all_chars p (a +:+ b) = all_chars p a && all_chars p b.
Proof. induction a as [|c a IH]; simpl; [reflexivity|]. rewrite IH, andb_assoc. reflexivity. Qed.

Lemma encode_char_safe c : all_chars path_char (encode_char c) = true.
Proof. each_ascii c; reflexivity. Qed.

Lemma encode_char_no_slash c : has_char "/" (encode_char c) = false.
Proof. each_ascii c; reflexivity. Qed.

Lemma encode_char_head c e : starts "/" (encode_char c +:+ e) = None.
Proof. each_ascii c; reflexivity. Qed.

Lemma unreserved_not_lead c r : unreserved c = true -> lone_surrogate c r = false.
Proof.
  intros Hu. destruct r as [|b r]; [reflexivity|]. unfold lone_surrogate.
  replace (N_of_ascii c =? 237)%N with false; [reflexivity|].
  revert Hu. each_ascii c; vm_compute; intros; congruence.
Qed.

Lemma encodeURIComponent_safe s e :
  encodeURIComponent s = Some e ->
  all_chars path_char e = true /\ has_char "/" e = false.
Proof.
  revert e. induction s as [|c s IH]; intros e; simpl.
  - intros [= <-]. auto.
  - destruct (lone_surrogate c s); [discriminate|].
    destruct (encodeURIComponent s) as [e'|]; [|discriminate]. intros [= <-].
    destruct (IH e' eq_refl) as [Ha Hs].
    rewrite all_chars_app, has_char_app, encode_char_safe, encode_char_no_slash, Ha, Hs.
    auto.
Qed.

Lemma encodeURIComponent_head c s e :
  encodeURIComponent (String c s) = Some e -> starts "/" e = None.
Proof.
  simpl. destruct (lone_surrogate c s); [discriminate|].
  destruct (encodeURIComponent s) as [e'|]; [|discriminate]. intros [= <-].
  apply encode_char_head.
Qed.

Lemma encodeURIComponent_kept s :
  all_chars unreserved s = true -> encodeURIComponent s = Some s.
Proof.
  induction s as [|c s IH]; simpl; [reflexivity|].
  intros [Hc Hs]%andb_true_iff. rewrite (unreserved_not_lead c s Hc), (IH Hs).
  unfold encode_char. rewrite Hc. reflexivity.
Qed.

Lemma join_cons sep p q rest :
  join sep (p :: q :: rest) = p +:+ sep +:+ join sep (q :: rest).
Proof. reflexivity. Qed.

Lemma join_split c s : join (str1 c) (split c s) = s.
Proof.
  induction s as [|a s IH]; [reflexivity|]. simpl.
  destruct (Ascii.eqb_spec a c) as [->|Hne].
  - destruct (split c s) as [|p ps] eqn:E; [exfalso; eapply split_nonempty, E|].
    rewrite join_cons, IH. reflexivity.
  - destruct (split c s) as [|p ps] eqn:E; [exfalso; eapply split_nonempty, E|].
    destruct ps as [|q ps]; simpl in *; rewrite <- IH; reflexivity.
Qed.

Lemma all_chars_join p sep segments :
  all_chars p sep = true ->
  Forall (fun s => all_chars p s = true) segments ->
  all_chars p (join sep segments) = true.
Proof.
  intros Hsep. induction 1 as [|s segs Hs Hsegs IH]; [reflexivity|].
  destruct segs as [|q segs]; [exact Hs|].
  rewrite join_cons, !all_chars_app, Hs, Hsep, IH. reflexivity.
Qed.

Lemma encode_segments_safe segments es :
  encode_segments segments = Some es ->
  Forall (fun e => all_chars path_char e = true) es
  /\ Forall (fun e => has_char "/" e = false) es
  /\ length es = length segments.
Proof.
  revert es. induction segments as [|s segs IH]; intros es; simpl.
  - intros [= <-]. auto.
  - destruct (encodeURIComponent s) as [e|] eqn:Ee; [|discriminate].
    destruct (encode_segments segs) as [es'|]; [|discriminate]. intros [= <-].
    destruct (encodeURIComponent_safe s e Ee) as [Ha Hs].
    destruct (IH es' eq_refl) as (IHa & IHs & IHl).
    repeat split; [constructor; assumption..|simpl; congruence].
Qed.

Lemma strip_leading_slashes_head path :
  starts "/" (strip_leading_slashes path) = None.
Proof.
  induction path as [|c path IH]; [reflexivity|]. simpl.
  destruct (Ascii.eqb c "/") eqn:E; [exact IH|].
  simpl. rewrite E. reflexivity.
Qed.

Lemma split_head c a s :
  a <> c -> exists p ps, split c (String a s) = String a p :: ps.
Proof.
  intros Hne. simpl. destruct (Ascii.eqb_spec a c); [congruence|].
  destruct (split c s) as [|p ps] eqn:E; [exfalso; eapply split_nonempty, E|].
  eauto.
Qed.

Lemma prefix_join_head c e es :
  starts "/" (String c e) = None ->
  starts "/" (join "/" (String c e :: es)) = None.
Proof.
  intros Hp. destruct es as [|q es]; [exact Hp|].
  rewrite join_cons. simpl in *. destruct (Ascii.eqb c "/"); [discriminate|reflexivity].
Qed.

(** X13. An encoded vault path is safe to put behind [/vault/]: it is made
    of the characters [encodeURIComponent] keeps, of [%] and of [/] only (no
    space, [?] or [#] can end the path early), and it does not begin with a
    slash. *)
Theorem encoded_path_is_safe path encoded :
  encodeVaultPath path = Some encoded ->
  all_chars path_char encoded = true /\ starts "/" encoded = None.
Proof.
  unfold encodeVaultPath.
  destruct (encode_segments (split "/" (strip_leading_slashes path))) as [es|] eqn:E;
    [|discriminate].
  intros [= <-].
  destruct (encode_segments_safe _ _ E) as (Ha & _ & _).
  split; [apply all_chars_join; [reflexivity|exact Ha]|].
  pose proof (strip_leading_slashes_head path) as Hh.
  destruct (strip_leading_slashes path) as [|a s]; [injection E as <-; reflexivity|].
  assert (Hne : a <> "/"%char).
  { intros ->. simpl in Hh. discriminate. }
  destruct (split_head "/" a s Hne) as (p & ps & Hsplit). rewrite Hsplit in E.
  cbn [encode_segments] in E.
  destruct (encodeURIComponent (String a p)) as [e|] eqn:Ee; [|discriminate].
  destruct (encode_segments ps) as [es'|]; [|discriminate]. injection E as <-.
  pose proof (encodeURIComponent_head a p e Ee) as Hp.
  destruct e as [|c e]; [simpl in Ee; destruct (lone_surrogate a p); [discriminate|];
                         destruct (encodeURIComponent p); [|discriminate];
                         injection Ee as Ee; revert Ee; unfold encode_char;
                         destruct (unreserved a); discriminate|].
  apply prefix_join_head, Hp.
Qed.

Lemma encode_segments_kept segments :
  Forall (fun s => all_chars unreserved s = true) segments ->
  encode_segments segments = Some segments.
Proof.
  induction 1 as [|s segs Hs _ IH]; [reflexivity|]. simpl.
  rewrite (encodeURIComponent_kept s Hs), IH. reflexivity.
Qed.

Lemma split_unreserved s :
  all_chars (fun c => unreserved c || Ascii.eqb c "/") s = true ->
  Forall (fun seg => all_chars unreserved seg = true) (split "/" s).
Proof.
  induction s as [|a s IH]; simpl.
  - intros _. repeat constructor.
  - intros [Ha Hs]%andb_true_iff. specialize (IH Hs).
    destruct (Ascii.eqb_spec a "/") as [->|Hne].
    + constructor; [reflexivity|exact IH].
    + rewrite orb_false_r in Ha.
      destruct (split "/" s) as [|p ps]; inversion IH; subst;
        constructor; simpl; try rewrite Ha; auto.
Qed.

Lemma strip_leading_slashes_id path :
  starts "/" path = None -> strip_leading_slashes path = path.
Proof.
  destruct path as [|c path]; [reflexivity|]. simpl.
  destruct (Ascii.eqb c "/"); [discriminate|reflexivity].
Qed.

(** X14. A path that needs no encoding is sent as it is: when the path
    holds only characters that [encodeURIComponent] keeps and slashes, and
    does not begin with a slash, [encodeVaultPath] returns it unchanged. *)
Theorem plain_path_unchanged path :
  all_chars (fun c => unreserved c || Ascii.eqb c "/") path = true ->
  starts "/" path = None ->
  encodeVaultPath path = Some path.
Proof.
  intros Hsafe Hhead. unfold encodeVaultPath.
  rewrite (strip_leading_slashes_id path Hhead).
  rewrite (encode_segments_kept _ (split_unreserved path Hsafe)).
  change "/" with (str1 "/"). rewrite join_split. reflexivity.
Qed.

(** ** Encodings are read back *)

Lemma decode_encode_char c e : decode (encode_char c +:+ e) = String c (decode e).
Proof. each_ascii c; reflexivity. Qed.

Lemma decode_encodeURIComponent s e : encodeURIComponent s = Some e -> decode e = s.
Proof.
  revert e. induction s as [|c s IH]; intros e; simpl.
  - intros [= <-]. reflexivity.
  - destruct (lone_surrogate c s); [discriminate|].
    destruct (encodeURIComponent s) as [e'|]; [|discriminate]. intros [= <-].
    rewrite decode_encode_char, (IH e' eq_refl). reflexivity.
Qed.

Lemma decode_segments segments es :
  encode_segments segments = Some es -> map decode es = segments.
Proof.
  revert es. induction segments as [|s segs IH]; intros es; simpl.
  - intros [= <-]. reflexivity.
  - destruct (encodeURIComponent s) as [e|] eqn:Ee; [|discriminate].
    destruct (encode_segments segs) as [es'|]; [|discriminate]. intros [= <-].
    simpl. rewrite (decode_encodeURIComponent s e Ee), (IH es' eq_refl). reflexivity.
Qed.

Lemma split_join c segments :
  segments <> [] -> Forall (fun s => has_char c s = false) segments ->
  split c (join (str1 c) segments) = segments.
Proof.
  intros Hne Hall. induction Hall as [|s segs Hs Hsegs IH]; [congruence|].
  destruct segs as [|q segs]; [apply split_free, Hs|].
  rewrite join_cons, str1_app, split_app, (split_free _ _ Hs).
  rewrite IH by discriminate. reflexivity.
Qed.

Lemma encodeVaultPath_segments path encoded :
  encodeVaultPath path = Some encoded ->
  map decode (split "/" encoded) = split "/" (strip_leading_slashes path).
Proof.
  unfold encodeVaultPath.
  destruct (encode_segments (split "/" (strip_leading_slashes path))) as [es|] eqn:E;
    [|discriminate].
  intros [= <-]. destruct (encode_segments_safe _ _ E) as (_ & Hs & Hl).
  change "/" with (str1 "/") at 1. rewrite split_join; [apply decode_segments, E| |exact Hs].
  intros ->. simpl in Hl. symmetry in Hl. apply length_zero_iff_nil in Hl.
  eapply split_nonempty, Hl.
Qed.

(** X15. The encoding keeps paths apart: two paths that are encoded to the
    same text are the same path, leading slashes aside. *)
Theorem encoding_keeps_paths_apart p q encoded :
  encodeVaultPath p = Some encoded -> encodeVaultPath q = Some encoded ->
  strip_leading_slashes p = strip_leading_slashes q.
Proof.
  intros Hp%encodeVaultPath_segments Hq%encodeVaultPath_segments.
  rewrite <- (join_split "/" (strip_leading_slashes p)).
  rewrite <- (join_split "/" (strip_leading_slashes q)). congruence.
Qed.

Lemma strip_leading_slashes_app folder rest :
  strip_leading_slashes folder <> "" ->
  strip_leading_slashes (folder +:+ rest) = strip_leading_slashes folder +:+ rest.
Proof.
  induction folder as [|c folder IH]; simpl; [congruence|].
  destruct (Ascii.eqb c "/"); [exact IH|reflexivity].
Qed.

(** X16. The buckets of two date keys are sent to two addresses: under a
    folder whose name has a character other than the slash, the files of
    two different keys are encoded to two different paths. *)
Theorem buckets_have_their_own_path folder k1 k2 e1 e2 :
  strip_leading_slashes folder <> "" ->
  k1 <> k2 ->
  encodeVaultPath (path_of folder k1) = Some e1 ->
  encodeVaultPath (path_of folder k2) = Some e2 ->
  e1 <> e2.
Proof.
  intros Hf Hne Hp%encodeVaultPath_segments Hq%encodeVaultPath_segments Heq.
  subst e2. apply Hne.
  assert (Hs : strip_leading_slashes (path_of folder k1)
               = strip_leading_slashes (path_of folder k2)).
  { rewrite <- (join_split "/" (strip_leading_slashes (path_of folder k1))).
    rewrite <- (join_split "/" (strip_leading_slashes (path_of folder k2))).
    congruence. }
  unfold path_of in Hs. rewrite !strip_leading_slashes_app in Hs by assumption.
  apply String.app_inj in Hs. simpl in Hs. injection Hs as Hs.
  eapply app_inv_tail, Hs.
Qed.

(** ** Requests *)

Lemma endsWith_truthy s : endsWith s LF = true -> truthy s = true.
Proof. destruct s; [discriminate|reflexivity]. Qed.

Lemma combined_ends_with_LF `{NumberPrinter} existing items :
  endsWith (combined_of existing (newLines_of items)) LF = true.
Proof.
  unfold combined_of, newLines_of. rewrite <- !append_assoc.
  apply endsWith_app_LF.
Qed.

Lemma encodeVaultPath_chars path encoded :
  encodeVaultPath path = Some encoded -> all_chars path_char encoded = true.
Proof.
  unfold encodeVaultPath.
  destruct (encode_segments (split "/" (strip_leading_slashes path))) as [es|] eqn:E;
    [|discriminate].
  intros [= <-]. destruct (encode_segments_safe _ _ E) as (Ha & _ & _).
  apply all_chars_join; [reflexivity|exact Ha].
Qed.

Section WithoutToken.
Context `{NumberPrinter} `{Api} `{Common} {W : Type} `{Http W} (o : Options).

Lemma request_without_token method path data (w : W) :
  truthy (getObsidianApiToken o) = false ->
  request o method path data w = (Rejected MISSING_TOKEN, w).
Proof. intros Ht. unfold request. rewrite Ht. reflexivity. Qed.

Lemma step_without_token folder s (w : W) key items :
  truthy (getObsidianApiToken o) = false ->
  exists m, (m = MISSING_TOKEN \/ m = URI_MALFORMED)
            /\ @syncBucket _ _ (vault_of o) folder (s, w) (key, items) = (add_error m s, w).
Proof.
  intros Ht. unfold syncBucket. simpl getVaultFile. unfold getVaultFile_of.
  destruct (encodeVaultPath (path_of folder key)).
  - rewrite request_without_token by assumption. simpl. eauto.
  - simpl. eauto.
Qed.

Lemma fold_without_token folder bs : forall s (w : W),
  truthy (getObsidianApiToken o) = false ->
  exists more,
    Forall (fun m => m = MISSING_TOKEN \/ m = URI_MALFORMED) more
    /\ length more = length bs
    /\ fold_left (@syncBucket _ _ (vault_of o) folder) bs (s, w)
       = (SyncSummary.mk (SyncSummary.total s) (SyncSummary.synced s)
            (SyncSummary.skipped s) (SyncSummary.files s)
            (SyncSummary.errors s ++ more), w).
Proof.
  induction bs as [|[key items] bs IH]; intros s w Ht; cbn [fold_left].
  - exists []. rewrite app_nil_r. destruct s. auto.
  - destruct (step_without_token folder s w key items Ht) as (m & Hm & ->).
    destruct (IH (add_error m s) w Ht) as (more & Hall & Hlen & ->).
    exists (m :: more). split; [constructor; assumption|].
    split; [simpl; congruence|]. simpl. rewrite <- app_assoc. reflexivity.
Qed.

(** X17. Without a token nothing is sent: when the options and the build
    give no token, a run whose records all give a document returns a summary
    that counts no document as synced or skipped and no file as written,
    with one error for each bucket, the message of the missing token (or of
    the path that cannot be encoded); the state of the host is the one the
    run started from, so that [GM_xmlhttpRequest] was not called. *)
Theorem sync_without_token folder db (w : W) bs :
  truthy (getObsidianApiToken o) = false ->
  fillBuckets (fetched db) [] = Returned bs ->
  exists s,
    @syncHomeTimelineToObsidian _ _ (vault_of o) _ _ folder db w = (Returned s, w)
    /\ SyncSummary.total s = length (fetched db)
    /\ SyncSummary.synced s = 0%nat /\ SyncSummary.skipped s = 0%nat
    /\ SyncSummary.files s = 0%nat
    /\ length (SyncSummary.errors s) = length bs
    /\ Forall (fun m => m = MISSING_TOKEN \/ m = URI_MALFORMED)
              (SyncSummary.errors s).
Proof.
  intros Ht Hfill. unfold syncHomeTimelineToObsidian.
  destruct (fetched db) as [|t tweets] eqn:Hf.
  { simpl in Hfill. injection Hfill as <-. eexists. split; [reflexivity|].
    simpl. repeat split; auto. }
  rewrite Hfill.
  destruct (fold_without_token folder bs
              (SyncSummary.mk (length (t :: tweets)) 0 0 0 []) w Ht)
    as (more & Hall & Hlen & ->).
  eexists. split; [reflexivity|]. simpl. repeat split; assumption.
Qed.

End WithoutToken.

Section OnTheWire.
Context `{NumberPrinter} `{Api} `{Common} (o : Options).

Lemma request_on_wire method path data (w : Wire) :
  let r := request o method path data w in
  server (snd r) = server w
  /\ (sent (snd r) = sent w
      \/ (truthy (getObsidianApiToken o) = true
          /\ sent (snd r)
             = mkDetails method
                 (strip_trailing_slash (getObsidianApiBaseUrl o) +:+ path)
                 (("Authorization", "Bearer " +:+ getObsidianApiToken o)
                  :: match data with
                     | Some d =>
                         if truthy d
                         then [("Content-Type", "text/plain; charset=utf-8")]
                         else []
                     | None => []
                     end)
                 data :: sent w)).
Proof.
  unfold request. destruct (truthy (getObsidianApiToken o)) eqn:Ht; simpl; [|auto].
  unfold GM_xmlhttpRequest, wire_http.
  destruct (server w _); simpl; auto.
Qed.

Lemma step_on_wire folder s (w : Wire) b :
  let r := @syncBucket _ _ (vault_of o) folder (s, w) b in
  server (snd r) = server w
  /\ exists new, sent (snd r) = new ++ sent w
                 /\ Forall (proper o) new /\ (length new <= 2)%nat.
Proof.
  destruct b as [key items]. unfold syncBucket. set (path := path_of folder key).
  simpl getVaultFile. unfold getVaultFile_of.
  destruct (encodeVaultPath path) as [e|] eqn:Ee.
  2:{ simpl. split; [reflexivity|]. exists []. repeat split; [constructor|simpl; lia]. }
  pose proof (encodeVaultPath_chars _ _ Ee) as Hchars.
  pose proof (request_on_wire GET ("/vault/" +:+ e) None w) as Hget. cbv zeta in Hget.
  destruct (request o GET ("/vault/" +:+ e) None w) as [reply w1]. simpl in Hget.
  destruct Hget as [Hs1 Hsent1].
  assert (Hfirst : exists new, sent w1 = new ++ sent w
                           /\ Forall (proper o) new /\ (length new <= 1)%nat).
  { destruct Hsent1 as [->|[Ht ->]].
    - exists []. repeat split; [constructor|simpl; lia].
    - eexists [_]. split; [reflexivity|]. split; [|simpl; lia].
      constructor; [|constructor]. unfold proper. simpl.
      repeat split; eauto. }
  destruct Hfirst as (new1 & Hn1 & Hp1 & Hl1).
  destruct (readExisting path reply) as [existing|m].
  2:{ simpl. split; [exact Hs1|]. exists new1. repeat split; [assumption..|lia]. }
  destruct (newItems_of existing items) as [|d newItems] eqn:Hnew.
  { simpl. split; [exact Hs1|]. exists new1. repeat split; [assumption..|lia]. }
  simpl putVaultFile. unfold putVaultFile_of. rewrite Ee.
  set (combined := combined_of existing (newLines_of (d :: newItems))).
  pose proof (request_on_wire PUT ("/vault/" +:+ e) (Some combined) w1) as Hput.
  cbv zeta in Hput.
  destruct (request o PUT ("/vault/" +:+ e) (Some combined) w1) as [reply2 w2].
  simpl in Hput. destruct Hput as [Hs2 Hsent2].
  assert (Hend : endsWith combined LF = true) by apply combined_ends_with_LF.
  assert (Hboth : server w2 = server w
               /\ exists new, sent w2 = new ++ sent w
                              /\ Forall (proper o) new /\ (length new <= 2)%nat).
  { split; [congruence|]. destruct Hsent2 as [->|[Ht ->]].
    - exists new1. repeat split; [assumption..|lia].
    - eexists (_ :: new1). rewrite Hn1. split; [reflexivity|].
      split; [|simpl; lia]. constructor; [|exact Hp1].
      unfold proper. simpl. rewrite (endsWith_truthy _ Hend).
      repeat split; eauto. }
  destruct (writeFailure path reply2); simpl; exact Hboth.
Qed.

Lemma fold_on_wire folder bs : forall s (w : Wire),
  let r := fold_left (@syncBucket _ _ (vault_of o) folder) bs (s, w) in
  server (snd r) = server w
  /\ exists new, sent (snd r) = new ++ sent w
                 /\ Forall (proper o) new /\ (length new <= 2 * length bs)%nat.
Proof.
  induction bs as [|b bs IH]; intros s w; cbv zeta; cbn [fold_left].
  - simpl. split; [reflexivity|]. exists [].
    split; [reflexivity|]. split; [apply List.Forall_nil|simpl; lia].
  - pose proof (step_on_wire folder s w b) as Hstep. cbv zeta in Hstep.
    destruct (@syncBucket _ _ (vault_of o) folder (s, w) b) as [s' w']. simpl in Hstep.
    destruct Hstep as (Hs & new1 & Hn1 & Hp1 & Hl1).
    specialize (IH s' w'). cbv zeta in IH.
    destruct IH as (Hs2 & new2 & Hn2 & Hp2 & Hl2).
    split; [congruence|]. exists (new2 ++ new1). rewrite Hn2, Hn1, app_assoc.
    split; [reflexivity|]. split; [apply Forall_app; auto|].
    rewrite length_app. simpl length. lia.
Qed.

(** X18. What a run sends is proper: over a host that records its calls,
    every request of a run is sent with the token of the options as its
    bearer, to an encoded path under [/vault/] of the base URL; a [GET] has
    no body and a [PUT] has a body that ends with a line feed and is
    announced as plain text. A run sends no more than two requests for each
    fetched record, and none when the token is missing. *)
Theorem requests_of_a_run folder db (w w' : Wire) result :
  @syncHomeTimelineToObsidian _ _ (vault_of o) _ _ folder db w = (result, w') ->
  server w' = server w
  /\ exists new,
       sent w' = new ++ sent w
       /\ Forall (proper o) new
       /\ (length new <= 2 * length (fetched db))%nat
       /\ (truthy (getObsidianApiToken o) = false -> new = []).
Proof.
  unfold syncHomeTimelineToObsidian.
  assert (Hnone : server w = server w
                  /\ exists new, sent w = new ++ sent w /\ Forall (proper o) new
                       /\ (length new <= 2 * length (fetched db))%nat
                       /\ (truthy (getObsidianApiToken o) = false -> new = [])).
  { split; [reflexivity|]. exists []. repeat split; [constructor|simpl; lia]. }
  destruct (fetched db) as [|t tweets] eqn:Hf.
  { intros [= _ <-]. exact Hnone. }
  destruct (fillBuckets (t :: tweets) []) as [bs|] eqn:Hfill.
  2:{ intros [= _ <-]. exact Hnone. }
  destruct (fillBuckets_facts _ _ _ Hfill (NoDup_nil_2)) as (_ & Hdoc).
  destruct (fillBuckets_spec _ _ _ Hfill) as (_ & _ & _ & Hne).
  pose proof (buckets_le_documents bs (Hne (List.Forall_nil _))) as Hle.
  set (s0 := SyncSummary.mk (length (t :: tweets)) 0 0 0 []).
  pose proof (fold_on_wire folder bs s0 w) as Hfold. cbv zeta in Hfold.
  destruct (fold_left (@syncBucket _ _ (vault_of o) folder) bs (s0, w)) as [s1 w1].
  intros [= _ <-]. simpl in Hfold. destruct Hfold as (Hs & new & Hn & Hp & Hl).
  split; [exact Hs|]. exists new. split; [exact Hn|]. split; [exact Hp|].
  split; [simpl in Hdoc; simpl length; lia|].
  intros Ht. destruct new as [|d new]; [reflexivity|].
  inversion Hp as [|? ? Hd _]; subst. destruct Hd as [Hd _]. congruence.
Qed.

End OnTheWire.

Import Model Sample Cases.

Lemma encoded_path_is_safe_witness :
  all_chars path_char "Tweets/Invalid%20Date.jsonl" = true
  /\ starts "/" "Tweets/Invalid%20Date.jsonl" = None.
Proof.
  apply (encoded_path_is_safe "Tweets/Invalid Date.jsonl"). reflexivity.
Defined.

Lemma plain_path_unchanged_witness :
  encodeVaultPath "Tweets/2023-09-28.jsonl" = Some "Tweets/2023-09-28.jsonl".
Proof.
  apply (plain_path_unchanged "Tweets/2023-09-28.jsonl"); reflexivity.
Defined.

Lemma encoding_keeps_paths_apart_witness :
  strip_leading_slashes "/Tweets/a b.jsonl" = strip_leading_slashes "Tweets/a b.jsonl".
Proof.
  apply (encoding_keeps_paths_apart "/Tweets/a b.jsonl" "Tweets/a b.jsonl"
           "Tweets/a%20b.jsonl"); reflexivity.
Defined.

Lemma buckets_have_their_own_path_witness :
  "Tweets/2023-09-28.jsonl" <> "Tweets/2023-09-29.jsonl".
Proof.
  apply (buckets_have_their_own_path "Tweets" "2023-09-28" "2023-09-29");
    [discriminate|discriminate|reflexivity|reflexivity].
Defined.

Lemma buckets_of_same_day_posts :
  fillBuckets (fetched same_day_posts) []
  = Returned [("2023-09-28", [exported "2"; exported "1"])].
Proof. vm_compute. reflexivity. Qed.

Lemma sync_without_token_witness :
  exists s,
    @syncHomeTimelineToObsidian _ _ (vault_of without_token) _ _
      "Tweets" same_day_posts quiet_wire
    = (Returned s, quiet_wire)
    /\ SyncSummary.synced s = 0%nat
    /\ length (SyncSummary.errors s) = 1%nat.
Proof.
  destruct (sync_without_token without_token "Tweets" same_day_posts quiet_wire
              [("2023-09-28", [exported "2"; exported "1"])]
              eq_refl buckets_of_same_day_posts)
    as (s & Hrun & _ & Hsynced & _ & _ & Herrors & _).
  exists s. split; [exact Hrun|]. split; [exact Hsynced|exact Herrors].
Defined.

Lemma requests_of_a_run_witness :
  server (snd (@syncHomeTimelineToObsidian _ _ (vault_of with_token) _ _
                 "Tweets" same_day_posts quiet_wire))
  = server quiet_wire.
Proof.
  destruct (requests_of_a_run with_token "Tweets" same_day_posts quiet_wire
              _ _ (surjective_pairing _)) as [Hserver _].
  exact Hserver.
Defined.

End TransportFacts.

(* ===================================================================== *)
(** * Facts about languages and about the manager of the scheduler *)
(* ===================================================================== *)

Module LanguageFacts.
Import Js Language.

Lemma prefix_cons a s b t :
  String.prefix (String a s) (String b t)
  = if Ascii.eqb a b then String.prefix s t else false.
Proof.
  simpl. destruct (ascii_dec a b) as [->|Hne].
  - rewrite Ascii.eqb_refl. reflexivity.
  - destruct (Ascii.eqb_spec a b); [congruence|reflexivity].
Qed.

(** X19. The browser language is detected in one step: the tag detected
    for a language is detected as itself, so that detecting twice gives what
    detecting once gives. *)
Theorem detection_is_idempotent (language : string) :
  detectBrowserLanguage (detectBrowserLanguage language)
  = detectBrowserLanguage language.
Proof.
  remember (detectBrowserLanguage language) as detected eqn:Hd.
  unfold detectBrowserLanguage in Hd.
  set (lang := if truthy language then language else "en") in Hd.
  assert (Hlang : truthy lang = true) by (subst lang; destruct language; reflexivity).
  cbn [LANGUAGES_CONFIG List.find snd test] in Hd.
  destruct (String.prefix "en" lang) eqn:E1; [subst detected; reflexivity|].
  destruct (test_zh_Hant lang) eqn:E2; [subst detected; reflexivity|].
  destruct (String.prefix "zh" lang) eqn:E3; [subst detected; reflexivity|].
  destruct (String.prefix "id" lang) eqn:E4; [subst detected; reflexivity|].
  destruct (String.prefix "ja" lang) eqn:E5; [subst detected; reflexivity|].
  subst detected. unfold detectBrowserLanguage. rewrite Hlang.
  cbn [LANGUAGES_CONFIG List.find snd test]. rewrite E1, E2, E3, E4, E5. reflexivity.
Qed.

(** X20. A Chinese language code is detected as Traditional Chinese when it
    names Taiwan, Hong Kong, Macao or the traditional script, and as
    Simplified Chinese otherwise: the entry of the traditional script is
    tried before the entry that takes every Chinese code. *)
Theorem chinese_is_told_apart (language : string) :
  String.prefix "zh" language = true ->
  detectBrowserLanguage language
  = if String.prefix "zh-TW" language || String.prefix "zh-HK" language
       || String.prefix "zh-MO" language || String.prefix "zh-Hant" language
    then "zh-Hant" else "zh-Hans".
Proof.
  intros Hzh. unfold detectBrowserLanguage.
  destruct language as [|a language]; [discriminate|]. cbn [truthy].
  cbn [LANGUAGES_CONFIG List.find snd test]. fold (test_zh_Hant (String a language)).
  assert (Hen : String.prefix "en" (String a language) = false).
  { rewrite prefix_cons in Hzh |- *.
    destruct (Ascii.eqb_spec "z" a) as [<-|]; [reflexivity|discriminate]. }
  rewrite Hen, Hzh. destruct (test_zh_Hant (String a language)); reflexivity.
Qed.

Lemma chinese_is_told_apart_witness :
  detectBrowserLanguage "zh-HK" = "zh-Hant"
  /\ detectBrowserLanguage "zh-CN" = "zh-Hans".
Proof.
  split.
  - apply (chinese_is_told_apart "zh-HK"). reflexivity.
  - apply (chinese_is_told_apart "zh-CN"). reflexivity.
Defined.

End LanguageFacts.

Module ManagerFacts.
Import Js Store Sync Scheduler Manager ListFacts.

(** X21. The period of the timer stays within its bounds: whatever number
    of minutes is configured, the period is at least five minutes and at
    most three hours; a number of minutes within the bounds gives that many
    minutes; and a larger number of minutes never gives a shorter period. *)
Theorem interval_stays_within_bounds (minutes minutes' : Z) :
  300000 <= getIntervalMs minutes <= 10800000
  /\ (5 <= minutes <= 180 -> getIntervalMs minutes = minutes * 60000)
  /\ (minutes <= minutes' -> getIntervalMs minutes <= getIntervalMs minutes').
Proof.
  unfold getIntervalMs, MIN_INTERVAL_MINUTES, MAX_INTERVAL_MINUTES. lia.
Qed.

Section Tick.
Context `{Api} `{DateTime.Common} `{NumberPrinter} {W : Type} `{Vault W}.

(** X22. A tick that does not pass its guards does nothing: when a sync is
    in flight, when the page is not visible, when the browser is off line,
    or when an offset is recorded and no capture of the home timeline is
    later than it, the tick leaves the state of the manager and the state
    of the transport as they were. *)
Theorem guarded_tick_does_nothing host now db (w : W) s :
  inFlight s = true \/ visible host = false \/ onLine host = false
  \/ (exists lastSyncAt,
        homeTimelineLastSyncAt s = Some lastSyncAt
        /\ extGetCapturesSince db "HomeTimelineModule" lastSyncAt = []) ->
  tick host now db w s = (s, w).
Proof.
  unfold tick, tick_enter.
  intros [Hf|[Hv|[Ho|(lastSyncAt & Hl & Hnone)]]].
  - rewrite Hf. reflexivity.
  - rewrite Hv. destruct (inFlight s); reflexivity.
  - rewrite Ho. destruct (inFlight s), (visible host); reflexivity.
  - rewrite Hl. destruct (inFlight s), (visible host), (onLine host); try reflexivity.
    simpl. rewrite Hnone. reflexivity.
Qed.

(** X23. A tick on its own gives the flag back: after a tick that nothing
    interleaves with, the flag is what it was, and the signal has moved by
    two when the engine was invoked and has not moved otherwise. *)
Theorem tick_gives_the_flag_back host now db (w : W) s :
  let s' := fst (tick host now db w s) in
  inFlight s' = inFlight s
  /\ (signal s' = signal s \/ signal s' = signal s + 2)
  /\ (signal s' = signal s -> tick host now db w s = (s, w)).
Proof.
  unfold tick, tick_enter.
  destruct (inFlight s) eqn:Hf; [simpl; rewrite Hf; auto|].
  destruct (visible host); [|simpl; rewrite Hf; auto].
  destruct (onLine host); [|simpl; rewrite Hf; auto].
  cbn [negb].
  destruct (homeTimelineLastSyncAt s) as [lastSyncAt|].
  - unfold tick_captures.
    destruct (extGetCapturesSince db "HomeTimelineModule" lastSyncAt);
      [simpl; rewrite Hf; auto|].
    destruct (invoke_sync (Some lastSyncAt) db w) as [result w'].
    simpl. repeat split; [right; lia|lia].
  - destruct (invoke_sync None db w) as [result w'].
    simpl. repeat split; [right; lia|lia].
Qed.

End Tick.

Import Model Sample Cases.

Lemma guarded_tick_does_nothing_witness :
  tick (mkHost false true) 99 two_captures empty_vault (mkState false 0 None)
  = (mkState false 0 None, empty_vault).
Proof.
  apply (guarded_tick_does_nothing (mkHost false true) 99 two_captures empty_vault
           (mkState false 0 None)).
  right. left. reflexivity.
Defined.

(** ** Ticks that take turns *)

Lemma step_taking_turns sys event :
  taking_turns sys ->
  match event with
  | Fire _ => existsb awaiting_captures (ticks sys) = false
  | _ => True
  end ->
  taking_turns (step sys event).
Proof.
  intros Hinv Hev. pose proof Hinv as (Hs & Hq & Hflag).
  unfold syncs_in_flight, queries in Hs, Hq, Hflag.
  destruct event as [host|i db|i result now]; simpl.
  - apply existsb_filter in Hev.
    assert (Hdone : taking_turns (mkSystem (state sys) (ticks sys ++ [Finished]))).
    { unfold taking_turns, syncs_in_flight, queries. simpl.
      rewrite !List.filter_app, !length_app. simpl. rewrite !Nat.add_0_r.
      repeat split; try assumption; apply Hflag; assumption. }
    unfold tick_enter.
    destruct (inFlight (state sys)) eqn:Hf; [exact Hdone|].
    destruct (visible host); [|exact Hdone].
    destruct (onLine host); [|exact Hdone].
    assert (Hzero : length (List.filter at_sync (ticks sys)) = 0%nat).
    { destruct (length (List.filter at_sync (ticks sys))) as [|[|n]] eqn:E;
        [reflexivity| |lia].
      destruct (Hflag eq_refl) as [Ht _]. congruence. }
    simpl. destruct (homeTimelineLastSyncAt (state sys)) as [lastSyncAt|];
      unfold taking_turns, syncs_in_flight, queries; simpl;
      rewrite !List.filter_app, !length_app, Hev, Hzero; simpl;
      repeat split; lia.
  - destruct (ticks sys !! i) as [p|] eqn:Hi; [|exact Hinv].
    destruct p as [lastSyncAt|lastSyncAt|]; try exact Hinv.
    assert (Hzero : length (List.filter at_sync (ticks sys)) = 0%nat).
    { destruct (length (List.filter at_sync (ticks sys))) as [|[|n]] eqn:E;
        [reflexivity| |lia].
      destruct (Hflag eq_refl) as [_ Hz].
      pose proof (filter_insert awaiting_captures (ticks sys) i _ Finished Hi) as Hb.
      simpl in Hb. lia. }
    unfold tick_captures.
    destruct (extGetCapturesSince db "HomeTimelineModule" lastSyncAt);
      unfold taking_turns, syncs_in_flight, queries; simpl.
    + pose proof (filter_insert at_sync (ticks sys) i _ Finished Hi) as Ha.
      pose proof (filter_insert awaiting_captures (ticks sys) i _ Finished Hi) as Hb.
      simpl in Ha, Hb. repeat split; lia.
    + pose proof (filter_insert at_sync (ticks sys) i _
                    (AtSync (Some lastSyncAt)) Hi) as Ha.
      pose proof (filter_insert awaiting_captures (ticks sys) i _
                    (AtSync (Some lastSyncAt)) Hi) as Hb.
      simpl in Ha, Hb. repeat split; lia.
  - destruct (ticks sys !! i) as [p|] eqn:Hi; [|exact Hinv].
    destruct p as [lastSyncAt|lastSyncAt|]; try exact Hinv.
    pose proof (filter_insert at_sync (ticks sys) i _ Finished Hi) as Ha.
    pose proof (filter_insert awaiting_captures (ticks sys) i _ Finished Hi) as Hb.
    simpl in Ha, Hb.
    unfold taking_turns, syncs_in_flight, queries; simpl.
    assert (Hone : length (List.filter at_sync (ticks sys)) = 1%nat) by lia.
    destruct (Hflag Hone) as [_ Hz]. repeat split; lia.
Qed.

Lemma run_taking_turns events : forall sys,
  taking_turns sys -> well_timed sys events = true ->
  taking_turns (run sys events).
Proof.
  induction events as [|event events IH]; intros sys Hinv Hw; [exact Hinv|].
  simpl in Hw. apply andb_true_iff in Hw as [Hev Hw].
  unfold run. cbn [fold_left]. apply IH; [|exact Hw].
  apply step_taking_turns; [exact Hinv|].
  destruct event; [apply negb_true_iff, Hev|exact I..].
Qed.

Lemma well_timed_firstn events : forall sys n,
  well_timed sys events = true -> well_timed sys (firstn n events) = true.
Proof.
  induction events as [|event events IH]; intros sys [|n] Hw; try reflexivity.
  simpl in Hw |- *. apply andb_true_iff in Hw as [Hev Hw].
  rewrite Hev, (IH _ _ Hw). reflexivity.
Qed.

(** X24. Ticks that take turns keep the sync single: starting with no tick
    under way and the flag down, if no tick is started while the capture
    query of another tick is pending, then at every point of the run at
    most one sync is in flight, and the flag is up whenever one is. *)
Theorem one_sync_when_ticks_take_turns (s : State) (events : list Event) (n : nat) :
  inFlight s = false ->
  well_timed (mkSystem s []) events = true ->
  let sys := run (mkSystem s []) (firstn n events) in
  (syncs_in_flight sys <= 1)%nat
  /\ (syncs_in_flight sys = 1%nat -> inFlight (state sys) = true).
Proof.
  intros Hf Hw sys.
  assert (Hinv : taking_turns sys).
  { apply run_taking_turns; [|apply well_timed_firstn, Hw].
    unfold taking_turns, syncs_in_flight, queries. simpl. repeat split; lia. }
  destruct Hinv as (Hs & _ & Hflag). split; [exact Hs|].
  intros Hone. apply Hflag, Hone.
Qed.

Lemma one_sync_when_ticks_take_turns_witness :
  (syncs_in_flight
     (run (mkSystem (mkState false 0 None) [])
          (firstn 3 [Fire host_ready;
                     SyncSettled 0 (Returned (SyncSummary.mk 0 0 0 0 [])) 99;
                     Fire host_ready;
                     CapturesReady 1 two_captures])) <= 1)%nat.
Proof.
  apply (one_sync_when_ticks_take_turns (mkState false 0 None)
           [Fire host_ready;
            SyncSettled 0 (Returned (SyncSummary.mk 0 0 0 0 [])) 99;
            Fire host_ready;
            CapturesReady 1 two_captures] 3); reflexivity.
Defined.

(** ** The timer *)

Lemma tidy_clearTimer win0 m win :
  tidy win0 (m, win) ->
  tidy win0 (clearTimer m win) /\ timerId (fst (clearTimer m win)) = None
  /\ tokenWarningLogged (fst (clearTimer m win)) = tokenWarningLogged m
  /\ system (fst (clearTimer m win)) = system m.
Proof.
  unfold tidy, clearTimer. intros (Hold & Hnext & Hord & Hown).
  destruct (timerId m) as [id|] eqn:Hid; [|rewrite Hid; auto].
  destruct Hown as (ms & Hown & _). simpl.
  assert (Hge : (next_timer win0 <= id)%nat).
  { assert (Hin : In (id, ms) (armed_since win0 win)) by (rewrite Hown; left; reflexivity).
    apply filter_In in Hin as [_ Hge]. apply Nat.leb_le in Hge. exact Hge. }
  repeat split; auto.
  - unfold armed_before in *. simpl. rewrite filter_comm, Hold.
    apply filter_all. intros t Ht. rewrite <- Hold in Ht.
    apply filter_In in Ht as [_ Hlt]. apply Nat.ltb_lt in Hlt.
    apply negb_true_iff, Nat.eqb_neq. lia.
  - intros t Ht. simpl in Ht. apply filter_In in Ht as [Ht _]. apply Hord, Ht.
  - unfold armed_since in *. simpl. rewrite filter_comm, Hown. simpl.
    rewrite Nat.eqb_refl. reflexivity.
Qed.

Lemma tidy_step win0 st op : tidy win0 st -> tidy win0 (apply st op).
Proof.
  destruct st as [m win]. intros Ht. destruct op as [cfg host| |id host|event]; simpl.
  - unfold reschedule.
    destruct (tidy_clearTimer win0 m win Ht) as (Ht1 & Hid1 & _ & _).
    destruct (clearTimer m win) as [m1 win1]. simpl in Hid1.
    destruct (shouldRun cfg (tokenWarningLogged m1)) as [run logged].
    unfold tidy in Ht1. rewrite Hid1 in Ht1.
    destruct Ht1 as (Hold & Hnext & Hord & Hown).
    destruct run; simpl.
    + repeat split.
      * unfold armed_before in *. simpl. rewrite List.filter_app, Hold. simpl.
        destruct (Nat.ltb_spec (next_timer win1) (next_timer win0)); [lia|].
        apply app_nil_r.
      * lia.
      * intros t Hin. simpl in Hin. apply in_app_or in Hin as [Hin|[<-|[]]]; simpl.
        -- specialize (Hord t Hin). lia.
        -- lia.
      * exists (intervalMs_of cfg). split.
        -- unfold armed_since in *. simpl. rewrite List.filter_app, Hown. simpl.
           destruct (Nat.leb_spec (next_timer win0) (next_timer win1)); [reflexivity|lia].
        -- unfold intervalMs_of, getIntervalMs, MIN_INTERVAL_MINUTES,
             MAX_INTERVAL_MINUTES. lia.
    + rewrite Hid1. repeat split; assumption.
  - apply tidy_clearTimer, Ht.
  - unfold elapse. destruct (existsb _ (intervals win)); exact Ht.
  - exact Ht.
Qed.

Lemma tidy_applies win0 ops : forall st, tidy win0 st -> tidy win0 (applies st ops).
Proof.
  induction ops as [|op ops IH]; intros st Ht; [exact Ht|].
  unfold applies. cbn [fold_left]. apply IH, tidy_step, Ht.
Qed.

(** X25. The manager keeps one timer at most: from a manager that
    remembers no timer, over a window that gives its identifiers in order,
    whatever is rescheduled, disposed of, elapsed or resumed, the timers
    that were armed before are armed still; of the timers armed since, none
    is armed when the manager remembers none, and the one it remembers is
    the only one when it remembers one, with a period from five minutes to
    three hours. *)
Theorem one_timer_at_most (m0 : Manager.t) (win0 : Window) (ops : list Op) :
  timerId m0 = None -> in_order win0 ->
  let m := fst (applies (m0, win0) ops) in
  let win := snd (applies (m0, win0) ops) in
  armed_before win0 win = intervals win0
  /\ match timerId m with
     | Some id =>
         exists ms, armed_since win0 win = [(id, ms)]
                    /\ 300000 <= ms <= 10800000
     | None => armed_since win0 win = []
     end.
Proof.
  intros Hid Hord m win.
  assert (Ht : tidy win0 (m0, win0)).
  { unfold tidy. rewrite Hid. repeat split; auto.
    - unfold armed_before. apply filter_all. intros t Hin.
      apply Nat.ltb_lt, Hord, Hin.
    - unfold armed_since. apply filter_nil_iff. intros t Hin.
      apply Nat.leb_gt, Hord, Hin. }
  apply (tidy_applies win0 ops) in Ht. subst m win.
  destruct (applies (m0, win0) ops) as [m win]. simpl.
  destruct Ht as (Hold & _ & _ & Hown). auto.
Qed.

Lemma one_timer_at_most_witness :
  armed_before fresh_window
    (snd (applies (fresh_manager, fresh_window)
                  [Reschedule ready_config host_ready;
                   Reschedule ready_config host_ready; Dispose]))
  = intervals fresh_window.
Proof.
  apply (one_timer_at_most fresh_manager fresh_window
           [Reschedule ready_config host_ready;
            Reschedule ready_config host_ready; Dispose]).
  - reflexivity.
  - intros t [].
Defined.

(** X26. Rescheduling arms a timer exactly when the sync should run: after
    [reschedule] the manager remembers a timer if and only if automatic
    sync is switched on, a token is configured and the module of the home
    timeline is present and enabled; and disposing of the manager leaves it
    without a timer. *)
Theorem timer_follows_configuration cfg host (m : Manager.t) (win : Window) :
  (is_Some (timerId (fst (reschedule cfg host m win))) <->
   homeTimelineAutoSyncEnabled cfg = Some true
   /\ truthy (OBSIDIAN_API_TOKEN cfg) = true
   /\ exists homeModule,
        List.find (fun ext => String.eqb (name ext) "HomeTimelineModule")
                  (extensions cfg) = Some homeModule
        /\ enabled homeModule = true)
  /\ timerId (fst (dispose m win)) = None.
Proof.
  split.
  - unfold reschedule.
    assert (Hid : timerId (fst (clearTimer m win)) = None).
    { unfold clearTimer. destruct (timerId m) eqn:E; [reflexivity|exact E]. }
    destruct (clearTimer m win) as [m1 win1]. simpl in Hid.
    unfold shouldRun.
    destruct (homeTimelineAutoSyncEnabled cfg) as [[|]|]; simpl.
    2,3: rewrite Hid; split; [intros [? [=]]|intros ([=] & _)].
    destruct (truthy (OBSIDIAN_API_TOKEN cfg)); simpl.
    2: rewrite Hid; split; [intros [? [=]]|intros (_ & [=] & _)].
    destruct (List.find _ (extensions cfg)) as [homeModule|]; simpl.
    2: rewrite Hid; split; [intros [? [=]]|intros (_ & _ & ? & [=] & _)].
    destruct (enabled homeModule) eqn:He; simpl.
    + split; [intros _|intros _; eexists; reflexivity].
      repeat split. exists homeModule. auto.
    + rewrite Hid. split; [intros [? [=]]|].
      intros (_ & _ & hm & [= <-] & Hen). congruence.
  - unfold dispose, clearTimer. destruct (timerId m) eqn:E; [reflexivity|exact E].
Qed.

End ManagerFacts.
